(** * Phase estimation notebook (Algorithms/phase_estimation.ipynb)

    A shallow embedding of the notebook's code cells, in three readings
    of numpy's arithmetic.  In the exact reading floating point scalars
    are real numbers ([R]) and complex scalars pairs of reals: it says
    what the cells compute when nothing is rounded, and it carries the
    queue and the generator.  [RoundedPhases] puts a rounding after each
    operation of the phase cell; [Binary64] runs [create_unitary] and the
    phase cell on IEEE 754 doubles.  PennyLane's operators and scipy's
    [expm] are not part of the notebook; they are taken from their
    documented matrices and series. *)

From Stdlib Require Import Reals Lra Lia List Bool Arith ZArith Psatz RNsatz.
From Stdlib Require String Ascii Floats.
Import ListNotations.
Local Open Scope R_scope.

(** ** Complex scalars (numpy [complex128], read exactly) *)

Definition C : Type := (R * R)%type.

Declare Scope C_scope.
Delimit Scope C_scope with C.
Bind Scope C_scope with C.

Definition Re (z : C) : R := fst z.
Definition Im (z : C) : R := snd z.
Definition RtoC (x : R) : C := (x, 0).
Definition C0 : C := (0, 0).
Definition C1 : C := (1, 0).
(** Python's [1j]. *)
Definition Ci : C := (0, 1).

Definition Cadd (z w : C) : C := (fst z + fst w, snd z + snd w).
Definition Cneg (z : C) : C := (- fst z, - snd z).
Definition Csub (z w : C) : C := (fst z - fst w, snd z - snd w).
Definition Cmul (z w : C) : C :=
  (fst z * fst w - snd z * snd w, fst z * snd w + snd z * fst w).
(** [np.conj] on a scalar. *)
Definition Cconj (z : C) : C := (fst z, - snd z).
(** Squared modulus. *)
Definition Cnorm2 (z : C) : R := fst z * fst z + snd z * snd z.
(** [abs] of a complex scalar. *)
Definition Cabs (z : C) : R := sqrt (Cnorm2 z).
(** A complex scalar divided by a real one ([z / r]). *)
Definition Cdivr (z : C) (r : R) : C := (fst z / r, snd z / r).
(** [np.exp] on a complex scalar. *)
Definition Cexp (z : C) : C := (exp (fst z) * cos (snd z), exp (fst z) * sin (snd z)).

Infix "+" := Cadd : C_scope.
Infix "-" := Csub : C_scope.
Infix "*" := Cmul : C_scope.
Notation "- z" := (Cneg z) : C_scope.

(** ** numpy arrays of shape (2,1) and (2,2) *)

(** A column vector, shape (2,1). *)
Definition V2 : Type := (C * C)%type.

(** A 2x2 array, row by row. *)
Record M2 : Type := mkM2 { m00 : C; m01 : C; m10 : C; m11 : C }.

(** [M[i][j]], indices as booleans ([false] is 0, [true] is 1). *)
Definition ent (M : M2) (i j : bool) : C :=
  match i, j with
  | false, false => m00 M
  | false, true => m01 M
  | true, false => m10 M
  | true, true => m11 M
  end.

(** [v[i]]. *)
Definition vent (v : V2) (i : bool) : C := if i then snd v else fst v.

(** [np.eye(2)]. *)
Definition eye2 : M2 := mkM2 C1 C0 C0 C1.

Definition Madd (A B : M2) : M2 :=
  mkM2 (m00 A + m00 B) (m01 A + m01 B) (m10 A + m10 B) (m11 A + m11 B).
Definition Msub (A B : M2) : M2 :=
  mkM2 (m00 A - m00 B) (m01 A - m01 B) (m10 A - m10 B) (m11 A - m11 B).
(** A scalar times an array. *)
Definition Mscale (c : C) (A : M2) : M2 :=
  mkM2 (c * m00 A) (c * m01 A) (c * m10 A) (c * m11 A).
(** [A @ B] on two 2x2 arrays. *)
Definition Mmul (A B : M2) : M2 :=
  mkM2 (m00 A * m00 B + m01 A * m10 B) (m00 A * m01 B + m01 A * m11 B)
       (m10 A * m00 B + m11 A * m10 B) (m10 A * m01 B + m11 A * m11 B).
(** [A @ v] on a 2x2 array and a column. *)
Definition Mvec (A : M2) (v : V2) : V2 :=
  ((m00 A * fst v + m01 A * snd v)%C, (m10 A * fst v + m11 A * snd v)%C).
(** [np.conj(A.T)]. *)
Definition Mdag (A : M2) : M2 :=
  mkM2 (Cconj (m00 A)) (Cconj (m10 A)) (Cconj (m01 A)) (Cconj (m11 A)).
(** [v / r] for a real [r]. *)
Definition Vdivr (v : V2) (r : R) : V2 := (Cdivr (fst v) r, Cdivr (snd v) r).
Definition Vscale (c : C) (v : V2) : V2 := ((c * fst v)%C, (c * snd v)%C).
(** Sum of the squared moduli of the entries. *)
Definition Vnorm2 (v : V2) : R := Cnorm2 (fst v) + Cnorm2 (snd v).
(** [np.linalg.norm] on a column. *)
Definition Vnorm (v : V2) : R := sqrt (Vnorm2 v).
(** The inner product [<u|v>], conjugate-linear in [u]. *)
Definition Vdot (u v : V2) : C := Cconj (fst u) * fst v + Cconj (snd u) * snd v.
(** Matrix power by repeated multiplication. *)
Fixpoint Mpow (A : M2) (k : nat) : M2 :=
  match k with
  | O => eye2
  | S j => Mmul A (Mpow A j)
  end.

(** [np.linalg.norm] on a 1-D array. *)
Definition lnorm (l : list C) : R :=
  sqrt (fold_right (fun z acc => Cnorm2 z + acc) 0 l).

Definition Rleb (x y : R) : bool := if Rle_dec x y then true else false.

(** [np.allclose(a, b)] with the default [rtol=1e-05], [atol=1e-08]:
    [|a - b| <= atol + rtol * |b|] on every entry. *)
Definition close (a b : C) : bool :=
  Rleb (Cabs (a - b)) (1 / 100000000 + 1 / 100000 * Cabs b).
Definition allclose (A B : M2) : bool :=
  close (m00 A) (m00 B) && close (m01 A) (m01 B) &&
  close (m10 A) (m10 B) && close (m11 A) (m11 B).

(** ** PennyLane operators, as the notebook queues them *)

(** Wire labels are natural numbers. *)
Abbreviation wire := nat (only parsing).

Inductive op : Type :=
| RY (theta : R) (w : wire)
| RZ (phi : R) (w : wire)
| Hadamard (w : wire)
  (** [qml.pow(qml.ctrl(qml.QubitUnitary(U, target), control), z)] *)
| CtrlPow (U : M2) (target control : wire) (z : nat)
  (** [qml.ControlledSequence(qml.QubitUnitary(U, target), control)] *)
| ControlledSequence (U : M2) (target : wire) (control : list wire)
  (** [qml.adjoint(qml.QFT)(wires)] *)
| AdjointQFT (wires : list wire).

(** ** The interpreter state and its monad

    Two pieces of process-wide state are touched by the notebook: numpy's
    global generator (the samples it is still to hand out, each in
    [[0,1)]) and PennyLane's active queue. *)

Definition rng : Type := nat -> R.

Record world : Type := mkWorld { gen : rng; queue : list op }.

Inductive exn : Type := AssertionError | IndexError | ValueError | WireError.

Inductive outcome (A : Type) : Type :=
| Ok (a : A)
| Raise (e : exn).
Arguments Ok {A} a.
Arguments Raise {A} e.

Definition Py (A : Type) : Type := world -> outcome (A * world).

Definition ret {A} (a : A) : Py A := fun s => Ok (a, s).
Definition raise {A} (e : exn) : Py A := fun _ => Raise e.
Definition bind {A B} (c : Py A) (k : A -> Py B) : Py B :=
  fun s => match c s with
           | Ok (a, s') => k a s'
           | Raise e => Raise e
           end.

Notation "x <- c ;; k" := (bind c (fun x => k))
  (at level 61, c at next level, right associativity).
Notation "c ;;; k" := (bind c (fun _ => k))
  (at level 61, right associativity).

(** A [for] loop over a list. *)
Fixpoint for_each {A} (l : list A) (body : A -> Py unit) : Py unit :=
  match l with
  | [] => ret tt
  | x :: t => body x ;;; for_each t body
  end.

Definition advance (k : nat) (g : rng) : rng := fun n => g (k + n)%nat.

(** [np.random.rand(dim)]. *)
Definition np_random_rand (dim : nat) : Py (list R) :=
  fun s => Ok (map (gen s) (seq 0 dim), mkWorld (advance dim (gen s)) (queue s)).

(** [np.random.rand()]. *)
Definition np_random_rand0 : Py R :=
  fun s => Ok (gen s 0%nat, mkWorld (advance 1 (gen s)) (queue s)).

(** Constructing an operator inside a queuing context appends it. *)
Definition enqueue (o : op) : Py unit :=
  fun s => Ok (tt, mkWorld (gen s) (queue s ++ [o])).

(** [l[i]] on a Python sequence. *)
Definition item {A} (l : list A) (i : nat) : Py A :=
  match nth_error l i with
  | Some a => ret a
  | None => raise IndexError
  end.

(** ** Create a random unitary *)

Module RandomUnitary.

(** Element-wise [re + 1j * im] on two 1-D arrays. *)
Fixpoint complex_of (re im : list R) : list C :=
  match re, im with
  | x :: re', y :: im' => (RtoC x + Ci * RtoC y)%C :: complex_of re' im'
  | _, _ => []
  end.

(** <<
def create_random_vec(dim):
    vec = np.random.rand(dim) + 1j * np.random.rand(dim)
    return (vec / np.linalg.norm(vec))[:, None]
>>
    When every sample drawn is zero the norm is zero and numpy returns
    nan entries (see [Binary64]); the division of [R] returns zeros there
    instead, so what is proved of the value returned is proved for draws
    with a nonzero sample. *)
Definition create_random_vec (dim : nat) : Py (list C) :=
  re <- np_random_rand dim ;;
  im <- np_random_rand dim ;;
  let vec := complex_of re im in
  ret (map (fun z => Cdivr z (lnorm vec)) vec).

(** <<
def proj(vec):
    return vec @ np.conj(vec).T
>> on a column of shape (2,1). *)
Definition proj (vec : V2) : M2 :=
  mkM2 (fst vec * Cconj (fst vec)) (fst vec * Cconj (snd vec))
       (snd vec * Cconj (fst vec)) (snd vec * Cconj (snd vec)).

(** The 2x2 operations of [create_unitary] need a column of shape (2,1). *)
Definition as_col2 (v : list C) : Py V2 :=
  match v with
  | [a; b] => ret (a, b)
  | _ => raise ValueError
  end.

(** [np.exp(2*np.pi*1j*phase)]. *)
Definition phase_factor (phase : R) : C :=
  Cexp (RtoC (2 * PI) * Ci * RtoC phase).

(** <<
def create_unitary(phases):
    eigvec_1 = create_random_vec(2)
    eigvec_2 = (np.eye(2) - proj(eigvec_1)) @ create_random_vec(2)
    eigvec_2 /= np.linalg.norm(eigvec_2)
    unitary = np.exp(2*np.pi*1j*phases[0]) * proj(eigvec_1)
              + np.exp(2*np.pi*1j*phases[1]) * proj(eigvec_2)
    assert np.allclose(np.eye(2), np.conj(unitary.T) @ unitary)
    return unitary
>> *)
Definition create_unitary (phases : list R) : Py M2 :=
  v1 <- create_random_vec 2 ;;
  eigvec_1 <- as_col2 v1 ;;
  w <- create_random_vec 2 ;;
  w2 <- as_col2 w ;;
  let eigvec_2 := Mvec (Msub eye2 (proj eigvec_1)) w2 in
  let eigvec_2 := Vdivr eigvec_2 (Vnorm eigvec_2) in
  p0 <- item phases 0 ;;
  p1 <- item phases 1 ;;
  let unitary := Madd (Mscale (phase_factor p0) (proj eigvec_1))
                      (Mscale (phase_factor p1) (proj eigvec_2)) in
  if allclose eye2 (Mmul (Mdag unitary) unitary)
  then ret unitary
  else raise AssertionError.

(** The values the locals of [create_unitary] take, as functions of the
    generator: [vec] inside the first call of [create_random_vec], the
    column it returns, and the second column after the projection and
    after the renormalisation. *)
Definition drawn_vec (g : rng) : V2 :=
  ((RtoC (g 0%nat) + Ci * RtoC (g 2%nat))%C, (RtoC (g 1%nat) + Ci * RtoC (g 3%nat))%C).
Definition random_vec (g : rng) : V2 := Vdivr (drawn_vec g) (Vnorm (drawn_vec g)).
Definition eigvec_1_of (g : rng) : V2 := random_vec g.
Definition projected_of (g : rng) : V2 :=
  Mvec (Msub eye2 (proj (eigvec_1_of g))) (random_vec (advance 4 g)).
Definition eigvec_2_of (g : rng) : V2 :=
  Vdivr (projected_of g) (Vnorm (projected_of g)).

(** A generator state for worked examples: the first call draws
    [0.5 + 0j, 0], the second [0, 0.5 + 0j]. *)
Definition demo_gen : rng :=
  fun n => match n with
           | 0%nat => 1 / 2
           | 5%nat => 1 / 2
           | _ => 0
           end.
Definition demo_world : world := mkWorld demo_gen [].

(** A second one: the first call draws [0.5 + 0j, 0], the second
    [0.5 + 0j, 0.5 + 0j], which is not orthogonal to the first, and the
    ninth sample is a quarter turn. *)
Definition skew_gen : rng :=
  fun n => match n with
           | 0%nat => 1 / 2
           | 4%nat => 1 / 2
           | 5%nat => 1 / 2
           | 8%nat => 1 / 4
           | _ => 0
           end.
Definition skew_world : world := mkWorld skew_gen [].

(** The column orthogonal to [v] in the plane (used in the proofs). *)
Definition perp (v : V2) : V2 := ((- Cconj (snd v))%C, Cconj (fst v)).

End RandomUnitary.

(** ** The state-vector simulator behind [qml.device("default.qubit")]

    The device keeps one complex amplitude per basis state; a basis state
    is one bit per device axis, the first axis being the most significant
    bit of the flattened index. *)

Module Simulator.

Definition basis : Type := list bool.
Definition state : Type := basis -> C.

Definition bit (b : basis) (a : nat) : bool := nth a b false.

(** The basis state [b] with the bit of axis [a] set to [v]. *)
Fixpoint upd (a : nat) (v : bool) (b : basis) : basis :=
  match b, a with
  | [], _ => []
  | _ :: t, O => v :: t
  | h :: t, S a' => h :: upd a' v t
  end.

(** [|0...0>]. *)
Definition zero_state : state :=
  fun b => if forallb negb b then C1 else C0.

(** A 2x2 matrix on axis [a], identity elsewhere. *)
Definition apply1 (G : M2) (a : nat) (psi : state) : state :=
  fun b => (ent G (bit b a) false * psi (upd a false b) +
            ent G (bit b a) true * psi (upd a true b))%C.

(** The same matrix on axis [t], on the subspace where axis [c] is 1. *)
Definition ctrl1 (G : M2) (c t : nat) (psi : state) : state :=
  fun b => if bit b c then apply1 G t psi b else psi b.

Fixpoint Csum (n : nat) (f : nat -> C) : C :=
  match n with
  | O => C0
  | S k => (Csum k f + f k)%C
  end.

(** The integer a bit string spells, first bit most significant. *)
Fixpoint val (x : list bool) : nat :=
  match x with
  | [] => 0
  | h :: t => (if h then 2 ^ length t else 0) + val t
  end.

(** The [m]-bit string of [k], first bit most significant. *)
Fixpoint bits (m k : nat) : list bool :=
  match m with
  | O => []
  | S m' => Nat.testbit k m' :: bits m' k
  end.

Definition read (axes : list nat) (b : basis) : list bool := map (bit b) axes.

Definition write (axes : list nat) (x : list bool) (b : basis) : basis :=
  fold_left (fun acc av => upd (fst av) (snd av) acc) (combine axes x) b.

(** A [2^m x 2^m] matrix on the listed axes (first listed axis most
    significant), identity elsewhere. *)
Definition apply_matrix (M : nat -> nat -> C) (axes : list nat) (psi : state) : state :=
  fun b => Csum (2 ^ length axes)
             (fun k => (M (val (read axes b)) k *
                        psi (write axes (bits (length axes) k) b))%C).

(** Sum of a real function over all basis states of [n] axes. *)
Fixpoint bsum (n : nat) (f : basis -> R) : R :=
  match n with
  | O => f []
  | S k => bsum k (fun x => f (false :: x)) + bsum k (fun x => f (true :: x))
  end.

Definition norm2 (n : nat) (psi : state) : R :=
  bsum n (fun b => Cnorm2 (psi b)).

(** Probability of reading the integer [j] on the listed axes: the squared
    moduli of all basis states whose bits there spell [j]. *)
Definition marginal (n : nat) (axes : list nat) (psi : state) (j : nat) : R :=
  bsum n (fun b => if Nat.eqb (val (read axes b)) j then Cnorm2 (psi b) else 0).

(** [qml.probs(wires)]: the flat array of the [2^m] marginals. *)
Definition probs (n : nat) (axes : list nat) (psi : state) : list R :=
  map (marginal n axes psi) (seq 0 (2 ^ length axes)).

(** [e^(i t)]. *)
Definition Cexpi (t : R) : C := Cexp (0, t).

(** Operator matrices, as PennyLane documents them. *)
Definition RY_matrix (theta : R) : M2 :=
  mkM2 (RtoC (cos (theta / 2))) (RtoC (- sin (theta / 2)))
       (RtoC (sin (theta / 2))) (RtoC (cos (theta / 2))).
Definition RZ_matrix (phi : R) : M2 :=
  mkM2 (Cexpi (- phi / 2)) C0 C0 (Cexpi (phi / 2)).
Definition H_matrix : M2 :=
  mkM2 (RtoC (/ sqrt 2)) (RtoC (/ sqrt 2)) (RtoC (/ sqrt 2)) (RtoC (- / sqrt 2)).
(** [QFT|j> = 2^(-m/2) sum_k e^(2 pi i j k / 2^m) |k>]. *)
Definition QFT_matrix (m : nat) (j k : nat) : C :=
  (RtoC (/ sqrt (2 ^ m)) * Cexpi (2 * PI * INR (j * k) / 2 ^ m))%C.
(** [qml.adjoint]: the conjugate transpose. *)
Definition adjoint_matrix (M : nat -> nat -> C) (j k : nat) : C := Cconj (M k j).

(** The powers [ControlledSequence] hands to its control wires:
<<
powers_of_two = [2**i for i in range(len(control_wires))]
for z, ctrl_wire in zip(powers_of_two[::-1], control_wires):
    ops.append(qml.pow(qml.ctrl(base, control=ctrl_wire), z=z))
>> *)
Definition ladder (control : list wire) : list (nat * wire) :=
  combine (rev (map (Nat.pow 2) (seq 0 (length control)))) control.

Definition decomposition (U : M2) (target : wire) (control : list wire) : list op :=
  map (fun zc => CtrlPow U target (snd zc) (fst zc)) (ladder control).

Definition op_wires (o : op) : list wire :=
  match o with
  | RY _ w | RZ _ w | Hadamard w => [w]
  | CtrlPow _ t c _ => [c; t]
  | ControlledSequence _ t cs => cs ++ [t]
  | AdjointQFT ws => ws
  end.

(** The wires of a tape in order of first appearance: the device, created
    without wires, lays out its axes in this order. *)
Definition wires_in_order (ws : list wire) : list wire :=
  fold_left (fun acc w => if existsb (Nat.eqb w) acc then acc else acc ++ [w]) ws [].

(** Axis of a wire (the length of [order] for a wire not on the device,
    which no tape built here contains). *)
Fixpoint index_of (w : wire) (order : list wire) : nat :=
  match order with
  | [] => 0
  | x :: t => if Nat.eqb x w then 0 else S (index_of w t)
  end.

(** [z] applications of the controlled matrix. *)
Definition ctrl_pow (order : list wire) (U : M2) (t c : wire) (z : nat)
    (psi : state) : state :=
  Nat.iter z (ctrl1 U (index_of c order) (index_of t order)) psi.

Definition apply_op (order : list wire) (o : op) (psi : state) : state :=
  match o with
  | RY theta w => apply1 (RY_matrix theta) (index_of w order) psi
  | RZ phi w => apply1 (RZ_matrix phi) (index_of w order) psi
  | Hadamard w => apply1 H_matrix (index_of w order) psi
  | CtrlPow U t c z => ctrl_pow order U t c z psi
  | ControlledSequence U t cs =>
      fold_left (fun st zc => ctrl_pow order U t (snd zc) (fst zc) st) (ladder cs) psi
  | AdjointQFT ws =>
      apply_matrix (adjoint_matrix (QFT_matrix (length ws)))
                   (map (fun w => index_of w order) ws) psi
  end.

Definition run (order : list wire) (tape : list op) (psi : state) : state :=
  fold_left (fun st o => apply_op order o st) tape psi.

(** Executing a recorded tape with one [probs] measurement. *)
Definition execute (tape : list op) (mwires : list wire) : list R :=
  let order := wires_in_order (flat_map op_wires tape ++ mwires) in
  probs (length order) (map (fun w => index_of w order) mwires)
        (run order tape zero_state).

(** *** Notions used to state and prove the properties *)

Fixpoint Rsum (n : nat) (f : nat -> R) : R :=
  match n with
  | O => 0
  | S k => Rsum k f + f k
  end.

Fixpoint Cpow (z : C) (k : nat) : C :=
  match k with
  | O => C1
  | S j => (z * Cpow z j)%C
  end.

(** Two amplitude tensors agree on the basis states of [n] axes. *)
Definition eqn (n : nat) (psi phi : state) : Prop :=
  forall b, length b = n -> psi b = phi b.

(** A product state: one column per axis. *)
Fixpoint pstate (vs : list V2) (b : basis) : C :=
  match vs, b with
  | [], [] => C1
  | v :: vs', h :: t => (vent v h * pstate vs' t)%C
  | _, _ => C0
  end.

(** The basis state [x] on the axes after the first, a column [v] on the first. *)
Definition ket (v : V2) (x : list bool) : state :=
  fun b => match b with
           | [] => C0
           | s :: y => if list_eq_dec Bool.bool_dec y x then vent v s else C0
           end.

Definition unitary2 (G : M2) : Prop := Mmul (Mdag G) G = eye2.

(** Pauli Z, a unitary with eigenphases 0 and 1/2 (for worked examples). *)
Definition Z_matrix : M2 := mkM2 C1 C0 C0 (- C1)%C.

(** The power of the base a list of (power, control axis) pairs applies
    on the basis state [b]. *)
Fixpoint expo (l : list (nat * nat)) (b : basis) : nat :=
  match l with
  | [] => 0
  | zc :: l' => (if bit b (snd zc) then fst zc else 0) + expo l' b
  end.

End Simulator.

(** ** Create the circuit *)

Module QPE.
Import Simulator.

(** <<
def create_random_state():
    qml.RY(2*np.pi*np.random.rand(), wires=0)
    qml.RZ(2*np.pi*np.random.rand(), wires=0)
>> *)
Definition create_random_state : Py unit :=
  r1 <- np_random_rand0 ;;
  enqueue (RY (2 * PI * r1) 0%nat) ;;;
  r2 <- np_random_rand0 ;;
  enqueue (RZ (2 * PI * r2) 0%nat).

(** Whether no wire label is listed twice. *)
Fixpoint distinct (ws : list wire) : bool :=
  match ws with
  | [] => true
  | w :: t => negb (existsb (Nat.eqb w) t) && distinct t
  end.

(** [qml.ControlledSequence(base, control=...)] with the base
    [qml.QubitUnitary(unitary, target)]: the constructor first builds
    [Wires(control)], which refuses a label listed twice (WireError), then
    refuses control wires that meet the wire of the base (ValueError), and
    only then is the operator queued. *)
Definition qml_ControlledSequence (U : M2) (target : wire) (control : list wire)
    : Py unit :=
  if negb (distinct control) then raise WireError
  else if existsb (Nat.eqb target) control then raise ValueError
  else enqueue (ControlledSequence U target control).

(** [qml.probs(wires=...)]: a measurement over an empty list of wires is
    refused (ValueError); otherwise the wires to measure are returned. *)
Definition qml_probs (wires : list wire) : Py (list wire) :=
  match wires with
  | [] => raise ValueError
  | _ :: _ => ret wires
  end.

(** <<
def qpe_circuit(unitary, estimation_wires):
    for wire in estimation_wires:
        qml.H(wires=wire)
    qml.ControlledSequence(qml.QubitUnitary(unitary, 0), control=estimation_wires)
    qml.adjoint(qml.QFT)(wires=estimation_wires)
>> *)
Definition qpe_circuit (unitary : M2) (estimation_wires : list wire) : Py unit :=
  for_each estimation_wires (fun w => enqueue (Hadamard w)) ;;;
  qml_ControlledSequence unitary 0%nat estimation_wires ;;;
  enqueue (AdjointQFT estimation_wires).

(** The body of [circuit]; it returns the wires of its [qml.probs]. *)
Definition circuit_body (unitary : M2) (estimation_wires : list wire)
    : Py (list wire) :=
  create_random_state ;;;
  qpe_circuit unitary estimation_wires ;;;
  qml_probs estimation_wires.

(** [@qml.qnode(device)]: the body is recorded on a fresh tape, the tape
    is executed, the surrounding queue is left as it was. *)
Definition qnode (body : Py (list wire)) : Py (list R) :=
  fun s => match body (mkWorld (gen s) []) with
           | Ok (mwires, s') =>
               Ok (execute (queue s') mwires, mkWorld (gen s') (queue s))
           | Raise e => Raise e
           end.

Definition circuit (unitary : M2) (estimation_wires : list wire) : Py (list R) :=
  qnode (circuit_body unitary estimation_wires).

(** The operators [circuit] can record for a unitary [U] and estimation
    wires [ws]: rotations of wire 0, Hadamards on estimation wires,
    powers of [U] on wire 0 controlled by an estimation wire (alone or as
    the whole ladder) and the inverse QFT over the estimation wires. *)
Definition circuit_gate (U : M2) (ws : list wire) (o : op) : Prop :=
  match o with
  | RY _ w | RZ _ w => w = 0%nat
  | Hadamard w => In w ws
  | CtrlPow V t c _ => V = U /\ t = 0%nat /\ In c ws
  | ControlledSequence V t cs => V = U /\ t = 0%nat /\ cs = ws
  | AdjointQFT cs => cs = ws
  end.

(** The inverse discrete Fourier transform as the design text writes it:
    entry [(j,k)] is [(1/sqrt(2^m)) e^(-2 pi i j k / 2^m)]. *)
Definition inverse_dft (m : nat) (j k : nat) : C :=
  (RtoC (1 / sqrt (2 ^ m)) *
   Cexp (- (RtoC (2 * PI) * Ci * RtoC (INR j * INR k / 2 ^ m))))%C.

(** Sum of the entries of a probability array. *)
Definition total (p : list R) : R := fold_right Rplus 0 p.

(** The system state [create_random_state] prepares on wire 0 from the
    next two samples of the generator. *)
Definition prepared (g : rng) : V2 :=
  Mvec (RZ_matrix (2 * PI * g 1%nat)) (Mvec (RY_matrix (2 * PI * g 0%nat)) (C1, C0)).

End QPE.

(** ** Phase estimation of a Hamiltonian: the phase cell

<<
phases = eigs * duration / (2 * np.pi)
for i in range(2):
    if phases[i] < 0.:
        phases[i] = 1 + phases[i]
>>
*)

Module HamiltonianPhases.

(** [phases[i] = v] on a Python list/array: [None] stands for IndexError. *)
Fixpoint set_item (i : nat) (v : R) (l : list R) : option (list R) :=
  match l, i with
  | [], _ => None
  | _ :: t, O => Some (v :: t)
  | h :: t, S j => option_map (cons h) (set_item j v t)
  end.

(** Body of the loop for one index [i]. *)
Definition wrap_at (phases : list R) (i : nat) : option (list R) :=
  match nth_error phases i with
  | None => None
  | Some p => if Rlt_dec p 0 then set_item i (1 + p) phases else Some phases
  end.

(** The loop over [range(n)], threading the array through. *)
Definition wrap_loop (n : nat) (phases : list R) : option (list R) :=
  fold_left
    (fun acc i => match acc with Some ph => wrap_at ph i | None => None end)
    (seq 0 n) (Some phases).

(** The whole cell, as a function of [eigs] and [duration]. *)
Definition phases_of (eigs : list R) (duration : R) : option (list R) :=
  wrap_loop 2 (map (fun e => e * duration / (2 * PI)) eigs).

(** The value one entry ends up with. *)
Definition wrap1 (p : R) : R := if Rlt_dec p 0 then 1 + p else p.

(** Floored real remainder, [x mod y] as the data model writes it
    (the reading of the specification, not of the code). *)
Definition Rmod (x y : R) : R := x - IZR (Int_part (x / y)) * y.

End HamiltonianPhases.

(** ** Phase estimation of a Hamiltonian: the Hamiltonian and its evolution

<<
hamiltonian = np.random.uniform(-1, 1, (2, 2)) + 1j * np.random.uniform(-1, 1, (2, 2))
hamiltonian = 0.5 * (hamiltonian + np.conj(hamiltonian.T))
eigs = np.real(np.linalg.eigvals(hamiltonian))
duration = 1.
unitary = expm(hamiltonian * 1j * duration)
>>
*)

Module Hamiltonian.
Import Simulator.

(** [0.5 * (A + np.conj(A.T))]. *)
Definition hermitian_part (A : M2) : M2 :=
  Mscale (RtoC (1 / 2)) (Madd A (Mdag A)).

(** An array times a scalar, [A * c]. *)
Definition Mtimes (A : M2) (c : C) : M2 :=
  mkM2 (m00 A * c) (m01 A * c) (m10 A * c) (m11 A * c).

(** The argument of [expm]: [hamiltonian * 1j * duration]. *)
Definition generator (H : M2) (duration : R) : M2 :=
  Mtimes (Mtimes H Ci) (RtoC duration).

(** What [np.linalg.eigvals] returns are the eigenvalues of the array:
    the scalars with a nonzero eigen-column. *)
Definition eigenvalue (M : M2) (lam : C) : Prop :=
  exists v : V2, v <> (C0, C0) /\ Mvec M v = Vscale lam v.

(** Partial sums of the exponential series, [sum_(k <= n) A^k / k!]. *)
Fixpoint expm_partial (A : M2) (n : nat) : M2 :=
  match n with
  | O => eye2
  | S k => Madd (expm_partial A k)
                (Mscale (RtoC (/ INR (fact (S k)))) (Mpow A (S k)))
  end.

(** Convergence of a sequence of complex scalars, and of 2x2 arrays
    entry by entry. *)
Definition Ccv (zn : nat -> C) (l : C) : Prop :=
  Un_cv (fun n => Re (zn n)) (Re l) /\ Un_cv (fun n => Im (zn n)) (Im l).

Definition Mcv (Mn : nat -> M2) (E : M2) : Prop :=
  forall i j : bool, Ccv (fun n => ent (Mn n) i j) (ent E i j).

(** [scipy.linalg.expm(A)] is the matrix exponential of [A]: the sum of
    the exponential series. *)
Definition is_expm (A E : M2) : Prop := Mcv (expm_partial A) E.

Definition Mzero : M2 := mkM2 C0 C0 C0 C0.

(** Partial sums of the scalar exponential series. *)
Fixpoint cexp_partial (w : C) (n : nat) : C :=
  match n with
  | O => C1
  | S k => (cexp_partial w k + RtoC (/ INR (fact (S k))) * Cpow w (S k))%C
  end.

End Hamiltonian.

(** ** The distribution phase estimation gives an eigenphase

    The quantities the run cells plot: for an eigenphase [theta] and [m]
    estimation wires, the weight of bitstring [j]. *)

Module Response.
Import Simulator.

(** [2^-m sum_(k < 2^m) e^(2 pi i (theta - j/2^m) k)]. *)
Definition amplitude (m : nat) (theta : R) (j : nat) : C :=
  (RtoC (/ 2 ^ m) *
   Csum (2 ^ m) (fun k => Cexpi (2 * PI * (theta - INR j / 2 ^ m) * INR k)))%C.

Definition response (m : nat) (theta : R) (j : nat) : R :=
  Cnorm2 (amplitude m theta j).

End Response.

(** ** The cell that draws the Hamiltonian

<<
hamiltonian = np.random.uniform(-1, 1, (2, 2)) + 1j * np.random.uniform(-1, 1, (2, 2))
hamiltonian = 0.5 * (hamiltonian + np.conj(hamiltonian.T))
>>
*)

Module HamiltonianDraw.
Import Hamiltonian.

(** [np.random.uniform(low, high, (2, 2))]: four samples of the global
    generator, row by row, each mapped to [low + (high - low) * u]; the
    real array is held as a complex one. *)
Definition np_random_uniform_2x2 (low high : R) : Py M2 :=
  fun s =>
    let u := fun n => RtoC (low + (high - low) * gen s n) in
    Ok (mkM2 (u 0%nat) (u 1%nat) (u 2%nat) (u 3%nat),
        mkWorld (advance 4 (gen s)) (queue s)).

(** The two lines of the cell; the left operand of [+] is drawn first. *)
Definition hamiltonian_cell : Py M2 :=
  re <- np_random_uniform_2x2 (-1) 1 ;;
  im <- np_random_uniform_2x2 (-1) 1 ;;
  ret (hermitian_part (Madd re (Mscale Ci im))).

End HamiltonianDraw.

(** ** Plotting the results

<<
def view_results(results, phases, show_every=1):
    _, ax = plt.subplots()
    xs = np.arange(len(results))
    ax.bar(xs, results)

    qbs = int(np.log2(len(results)))
    _xticks = [f"{i/len(xs)}\n({np.binary_repr(i, qbs)})" for i in xs]
    plt.xticks(xs[::show_every], _xticks[::show_every], rotation=15)

    for true_phase in phases:
        plt.axvline(x=true_phase * len(results), c='k', ls='dashed')

    ax.set_xlabel("phase")
    ax.set_ylabel("probability")

    plt.show()
>>

    The figure is modelled by the data the calls hand to matplotlib: the
    bars, the tick positions with their labels, and the dashed lines. *)

Module Plotting.
Import Simulator.

(** The characters ['0'] and ['1']. *)
Definition digit (b : bool) : Ascii.ascii :=
  Ascii.ascii_of_nat (if b then 49 else 48).

Fixpoint bitstring (x : list bool) : String.string :=
  match x with
  | [] => String.EmptyString
  | b :: t => String.String (digit b) (bitstring t)
  end.

(** [np.binary_repr(num, width)] for [num >= 0]: the binary digits of
    [num], most significant first, padded with zeros on the left to
    [width]; for [num = 0], ['0' * (width or 1)].  When [width] is too
    small NumPy 2 raises ValueError ([None] here), where NumPy 1 warned
    and returned the unpadded digits; on arrays of length [2^m] the width
    always suffices. *)
Definition binary_repr (num width : nat) : option String.string :=
  match num with
  | O => Some (bitstring (repeat false (match width with O => 1 | _ => width end)))
  | _ =>
      let binwidth := S (Nat.log2 num) in
      if (width <? binwidth)%nat then None
      else Some (bitstring (repeat false (width - binwidth) ++ bits binwidth num))
  end.

(** A tick label [f"{i/len(xs)}\n({np.binary_repr(i, qbs)})"]: the
    fraction it prints and the bitstring in the parentheses. *)
Record label : Type := mkLabel { fraction : R; bitstring_of : String.string }.

Record figure : Type := mkFigure {
  bars : list (nat * R);
  ticks : list nat;
  ticklabels : list label;
  vlines : list R
}.

(** The outcome of a call: the figure shown, an exception of the kind the
    other cells raise, or the OverflowError of [int(-inf)]. *)
Inductive plot_outcome : Type :=
  | Shown (f : figure)
  | Raised (e : exn)
  | RaisedOverflowError.

(** Every [step]-th element, after skipping [skip]. *)
Fixpoint stride {A} (step skip : nat) (l : list A) : list A :=
  match l with
  | [] => []
  | x :: t =>
      match skip with
      | O => x :: stride step (step - 1) t
      | S k => stride step k t
      end
  end.

(** [l[::step]]: a zero step raises ValueError, a negative one walks
    from the end. *)
Definition slice_step {A} (step : Z) (l : list A) : option (list A) :=
  if (step =? 0)%Z then None
  else if (0 <? step)%Z then Some (stride (Z.to_nat step) 0 l)
  else Some (stride (Z.to_nat (- step)) 0 (rev l)).

(** The list comprehension building [_xticks]. *)
Fixpoint xtick_labels (xs : list nat) (n qbs : nat) : option (list label) :=
  match xs with
  | [] => Some []
  | i :: t =>
      match binary_repr i qbs with
      | None => None
      | Some b =>
          match xtick_labels t n qbs with
          | None => None
          | Some rest => Some (mkLabel (INR i / INR n) b :: rest)
          end
      end
  end.

Definition view_results (results phases : list R) (show_every : Z) : plot_outcome :=
  let n := length results in
  let xs := seq 0 n in
  match n with
  | O => RaisedOverflowError
  | _ =>
      let qbs := Nat.log2 n in
      match xtick_labels xs n qbs with
      | None => Raised ValueError
      | Some _xticks =>
          match slice_step show_every xs, slice_step show_every _xticks with
          | Some tx, Some tl =>
              Shown (mkFigure (combine xs results) tx tl
                              (map (fun true_phase => true_phase * INR n) phases))
          | _, _ => Raised ValueError
          end
      end
  end.

End Plotting.

(** ** The phase cell in rounded arithmetic

    The cell runs on float64: each of its operations returns the
    rounding of the exact result.  Below, [rnd] is that rounding: any function
    with the properties of [rounding], which round-to-nearest has.  With
    the identity for [rnd] these are the definitions of
    [HamiltonianPhases]. *)

Module RoundedPhases.

Section Rounding.
Variable rnd : R -> R.

(** [2 * np.pi]: [np.pi] is the double nearest to pi, and doubling a
    double is exact. *)
Definition two_pi : R := 2 * rnd PI.

(** One entry of [eigs * duration / (2 * np.pi)]. *)
Definition scaled (e duration : R) : R := rnd (rnd (e * duration) / two_pi).

(** Body of the loop for one index [i]. *)
Definition wrap_at (phases : list R) (i : nat) : option (list R) :=
  match nth_error phases i with
  | None => None
  | Some p =>
      if Rlt_dec p 0 then HamiltonianPhases.set_item i (rnd (1 + p)) phases
      else Some phases
  end.

Definition wrap_loop (n : nat) (phases : list R) : option (list R) :=
  fold_left
    (fun acc i => match acc with Some ph => wrap_at ph i | None => None end)
    (seq 0 n) (Some phases).

(** The whole cell, as a function of [eigs] and [duration]. *)
Definition phases_of (eigs : list R) (duration : R) : option (list R) :=
  wrap_loop 2 (map (fun e => scaled e duration) eigs).

(** The value one entry ends up with. *)
Definition wrap1 (p : R) : R := if Rlt_dec p 0 then rnd (1 + p) else p.

End Rounding.

(** What is used of the rounding: it keeps the order, commutes with the
    sign, leaves 1 as it is, and rounds [2 pi] to twice the rounding
    of [pi]. *)
Record rounding (rnd : R -> R) : Prop := mkRounding {
  rnd_monotone : forall x y, x <= y -> rnd x <= rnd y;
  rnd_opp : forall x, rnd (- x) = - rnd x;
  rnd_one : rnd 1 = 1;
  rnd_two_pi : rnd (2 * PI) = 2 * rnd PI
}.

(** A coarse rounding for worked examples: what lies strictly between
    3/4 and 1 in absolute value goes to 1 in absolute value, the rest
    stays. *)
Definition snap (x : R) : R :=
  if Rlt_dec (3 / 4) x then (if Rlt_dec x 1 then 1 else x)
  else if Rlt_dec x (- (3 / 4)) then (if Rlt_dec (-1) x then -1 else x)
  else x.

End RoundedPhases.

(** ** The random unitary and the phase cell on binary64

    The same cells over IEEE 754 binary64 ([float]), operation by
    operation, for runs on concrete samples.  numpy's conventions, as its
    sources have them: a complex array divided by a float divides by the
    complex scalar [n + 0j] with Smith's algorithm; [np.linalg.norm] of a
    complex array is the square root of [re . re + im . im]; a product of
    small arrays sums its terms from left to right; [np.allclose(a, b)]
    tests [|a - b| <= atol + rtol * |b|] entry by entry with
    [atol = 1e-8] and [rtol = 1e-5]; the modulus of [x + iy] is taken as
    [sqrt (x * x + y * y)].  [np.exp] on a complex scalar comes from the
    C library and is a parameter [cexp]. *)

Module Binary64.
Import PrimFloat.
Local Open Scope float_scope.

Definition complex : Type := (float * float)%type.
(** A column of shape (2,1) and a 2x2 array, row by row. *)
Definition vec2 : Type := (complex * complex)%type.
Definition mat2 : Type := (vec2 * vec2)%type.

Definition of_real (x : float) : complex := (x, 0).
(** Python's [1j]. *)
Definition j : complex := (0, 1).
Definition cadd (z w : complex) : complex := (fst z + fst w, snd z + snd w).
Definition csub (z w : complex) : complex := (fst z - fst w, snd z - snd w).
Definition cmul (z w : complex) : complex :=
  (fst z * fst w - snd z * snd w, fst z * snd w + snd z * fst w).
Definition cconj (z : complex) : complex := (fst z, - snd z).
(** Complex division (Smith's algorithm). *)
Definition cdiv (z w : complex) : complex :=
  let (a, b) := z in
  let (c, d) := w in
  if abs d <=? abs c then
    if (abs c =? 0) && (abs d =? 0) then (a / abs c, b / abs c)
    else
      let rat := d / c in
      let scl := 1 / (c + d * rat) in
      ((a + b * rat) * scl, (b - a * rat) * scl)
  else
    let rat := c / d in
    let scl := 1 / (c * rat + d) in
    ((a * rat + b) * scl, (b * rat - a) * scl).
Definition cabs (z : complex) : float := sqrt (fst z * fst z + snd z * snd z).

Definition dot (x y : list float) : float :=
  fold_left (fun acc xy => acc + fst xy * snd xy) (combine x y) 0.
(** [np.linalg.norm] on a complex array, flattened. *)
Definition norm (v : list complex) : float :=
  sqrt (dot (map fst v) (map fst v) + dot (map snd v) (map snd v)).

(** The generator: the stream of samples still to come. *)
Definition rng : Type := nat -> float.
Definition advance (k : nat) (g : rng) : rng := fun n => g (k + n)%nat.
Definition np_random_rand (dim : nat) (g : rng) : list float * rng :=
  (map g (seq 0 dim), advance dim g).

(** [vec] inside [create_random_vec]. *)
Definition complex_of (re im : list float) : list complex :=
  map (fun xy => cadd (of_real (fst xy)) (cmul j (of_real (snd xy))))
      (combine re im).

Definition create_random_vec (dim : nat) (g : rng) : list complex * rng :=
  let (re, g1) := np_random_rand dim g in
  let (im, g2) := np_random_rand dim g1 in
  let vec := complex_of re im in
  (map (fun z => cdiv z (of_real (norm vec))) vec, g2).

Definition col (l : list complex) : vec2 := (nth 0 l (0, 0), nth 1 l (0, 0)).
Definition entries (v : vec2) : list complex := [fst v; snd v].

Definition proj (v : vec2) : mat2 :=
  ((cmul (fst v) (cconj (fst v)), cmul (fst v) (cconj (snd v))),
   (cmul (snd v) (cconj (fst v)), cmul (snd v) (cconj (snd v)))).
(** [np.eye(2)], promoted to complex. *)
Definition eye : mat2 := ((of_real 1, of_real 0), (of_real 0, of_real 1)).
Definition mmap2 (f : complex -> complex -> complex) (A B : mat2) : mat2 :=
  ((f (fst (fst A)) (fst (fst B)), f (snd (fst A)) (snd (fst B))),
   (f (fst (snd A)) (fst (snd B)), f (snd (snd A)) (snd (snd B)))).
Definition mscale (c : complex) (A : mat2) : mat2 :=
  ((cmul c (fst (fst A)), cmul c (snd (fst A))),
   (cmul c (fst (snd A)), cmul c (snd (snd A)))).
Definition matvec (A : mat2) (v : vec2) : vec2 :=
  (cadd (cmul (fst (fst A)) (fst v)) (cmul (snd (fst A)) (snd v)),
   cadd (cmul (fst (snd A)) (fst v)) (cmul (snd (snd A)) (snd v))).
Definition mdag (A : mat2) : mat2 :=
  ((cconj (fst (fst A)), cconj (fst (snd A))),
   (cconj (snd (fst A)), cconj (snd (snd A)))).
Definition mmul (A B : mat2) : mat2 :=
  let c1 := matvec A (fst (fst B), fst (snd B)) in
  let c2 := matvec A (snd (fst B), snd (snd B)) in
  ((fst c1, fst c2), (snd c1, snd c2)).

(** [atol = 1e-8] and [rtol = 1e-5], as the doubles Python reads. *)
Definition atol : float := 0x1.5798ee2308c3ap-27.
Definition rtol : float := 0x1.4f8b588e368f1p-17.
Definition isclose (a b : complex) : bool :=
  cabs (csub a b) <=? atol + rtol * cabs b.
Definition allclose (A B : mat2) : bool :=
  isclose (fst (fst A)) (fst (fst B)) && isclose (snd (fst A)) (snd (fst B)) &&
  isclose (fst (snd A)) (fst (snd B)) && isclose (snd (snd A)) (snd (snd B)).

(** [np.pi]. *)
Definition np_pi : float := 0x1.921fb54442d18p+1.

(** [2*np.pi*1j*phase]. *)
Definition exponent (phase : float) : complex :=
  cmul (cmul (of_real (2 * np_pi)) j) (of_real phase).

(** [x /= np.linalg.norm(x)] on a column. *)
Definition normalized (w : vec2) : vec2 :=
  let n := of_real (norm (entries w)) in (cdiv (fst w) n, cdiv (snd w) n).

Definition create_unitary (cexp : complex -> complex) (phases : list float)
    (g : rng) : outcome (mat2 * rng) :=
  let (v1, g1) := create_random_vec 2 g in
  let eigvec_1 := col v1 in
  let (v2, g2) := create_random_vec 2 g1 in
  let eigvec_2 := matvec (mmap2 csub eye (proj eigvec_1)) (col v2) in
  let eigvec_2 := normalized eigvec_2 in
  match nth_error phases 0, nth_error phases 1 with
  | Some p0, Some p1 =>
      let unitary := mmap2 cadd (mscale (cexp (exponent p0)) (proj eigvec_1))
                                (mscale (cexp (exponent p1)) (proj eigvec_2)) in
      if allclose eye (mmul (mdag unitary) unitary)
      then Ok (unitary, g2)
      else Raise AssertionError
  | _, _ => Raise IndexError
  end.

(** The values the locals of [create_unitary] take, as functions of the
    generator: [vec] of the first and of the second call, the column the
    first call returns, the second column after the projection and after
    the renormalisation. *)
Definition drawn_vec (g : rng) : list complex :=
  complex_of (fst (np_random_rand 2 g))
             (fst (np_random_rand 2 (snd (np_random_rand 2 g)))).
Definition eigvec_1_of (g : rng) : vec2 := col (fst (create_random_vec 2 g)).
Definition projected_of (g : rng) : vec2 :=
  matvec (mmap2 csub eye (proj (eigvec_1_of g)))
         (col (fst (create_random_vec 2 (snd (create_random_vec 2 g))))).
Definition eigvec_2_of (g : rng) : vec2 := normalized (projected_of g).

(** The phase cell. *)
Fixpoint set_item (i : nat) (v : float) (l : list float) : option (list float) :=
  match l, i with
  | [], _ => None
  | _ :: t, O => Some (v :: t)
  | h :: t, S k => option_map (cons h) (set_item k v t)
  end.

Definition wrap_at (phases : list float) (i : nat) : option (list float) :=
  match nth_error phases i with
  | None => None
  | Some p => if p <? 0 then set_item i (1 + p) phases else Some phases
  end.

Definition wrap_loop (n : nat) (phases : list float) : option (list float) :=
  fold_left
    (fun acc i => match acc with Some ph => wrap_at ph i | None => None end)
    (seq 0 n) (Some phases).

Definition phases_of (eigs : list float) (duration : float) : option (list float) :=
  wrap_loop 2 (map (fun e => e * duration / (2 * np_pi)) eigs).




End Binary64.

(** * Properties *)

Section PhaseWrap.
Import HamiltonianPhases.

Lemma two_pi_pos : 0 < 2 * PI.
Proof. generalize PI_RGT_0; lra. Qed.

Lemma phases_of_pair (l1 l2 T : R) :
  phases_of [l1; l2] T =
  Some [wrap1 (l1 * T / (2 * PI)); wrap1 (l2 * T / (2 * PI))].
Proof.
  unfold phases_of, wrap_loop, wrap_at, wrap1; simpl.
  destruct (Rlt_dec (l1 * T / (2 * PI)) 0); simpl;
    destruct (Rlt_dec (l2 * T / (2 * PI)) 0); reflexivity.
Qed.

Lemma div_two_pi_bounds (x : R) :
  Rabs x < 2 * PI -> -1 < x / (2 * PI) < 1.
Proof.
  intros Hx. pose proof two_pi_pos as Hp.
  apply Rabs_def2 in Hx. destruct Hx as [Hlt Hgt].
  split.
  - apply Rmult_lt_reg_r with (2 * PI); [exact Hp|].
    unfold Rdiv. rewrite Rmult_assoc, Rinv_l by lra. lra.
  - apply Rmult_lt_reg_r with (2 * PI); [exact Hp|].
    unfold Rdiv. rewrite Rmult_assoc, Rinv_l by lra. lra.
Qed.

Lemma wrap1_range (p : R) : -1 < p < 1 -> 0 <= wrap1 p < 1.
Proof. intros Hp. unfold wrap1. destruct (Rlt_dec p 0); lra. Qed.

Lemma wrap1_once (p : R) :
  wrap1 p = p + (if Rlt_dec p 0 then 1 else 0).
Proof. unfold wrap1. destruct (Rlt_dec p 0); lra. Qed.

Lemma wrap1_mod (x : R) :
  Rabs x < 2 * PI -> wrap1 (x / (2 * PI)) = Rmod x (2 * PI) / (2 * PI).
Proof.
  intros Hx. pose proof two_pi_pos as Hp.
  pose proof (div_two_pi_bounds x Hx) as Hb.
  unfold wrap1, Rmod. destruct (Rlt_dec (x / (2 * PI)) 0) as [Hneg | Hpos].
  - rewrite <- (Int_part_spec (x / (2 * PI)) (-1)%Z) by (simpl; lra).
    simpl. field. lra.
  - rewrite <- (Int_part_spec (x / (2 * PI)) 0%Z) by (simpl; lra).
    simpl. field. lra.
Qed.

(** C5: there are an eigenvalue and a duration with [|l * T| >= 2 pi]
    for which the cell runs to completion (nothing raises) and leaves a
    phase outside [[0,1)]: at [l * T = -4 pi] the single increment is
    applied and gives [-1]; at [l * T = 2 pi] the phase [1] is not
    negative and is left as it is. *)
Theorem C5_phase_wrap_out_of_range :
  (exists (l T p : R),
     2 * PI <= Rabs (l * T) /\ l * T / (2 * PI) < 0 /\
     phases_of [l; l] T = Some [p; p] /\
     p = 1 + l * T / (2 * PI) /\ ~ (0 <= p < 1)) /\
  (exists (l T p : R),
     2 * PI <= Rabs (l * T) /\
     phases_of [l; l] T = Some [p; p] /\
     p = l * T / (2 * PI) /\ ~ (0 <= p < 1)).
Proof.
  pose proof two_pi_pos as Hp. split.
  - exists (- (4 * PI)), 1, (-1).
    assert (E : - (4 * PI) * 1 / (2 * PI) = -2) by (field; lra).
    split; [rewrite Rmult_1_r, Rabs_left; lra|].
    split; [lra|]. split; [|split; lra].
    rewrite phases_of_pair, E. unfold wrap1.
    destruct (Rlt_dec (-2) 0); [|lra]. do 3 f_equal; lra.
  - exists (2 * PI), 1, 1.
    assert (E : 2 * PI * 1 / (2 * PI) = 1) by (field; lra).
    split; [rewrite Rmult_1_r, Rabs_right; lra|].
    split; [|split; lra].
    rewrite phases_of_pair, E. unfold wrap1.
    destruct (Rlt_dec 1 0); [lra | reflexivity].
Qed.

End PhaseWrap.

(** ** The phase cell in rounded arithmetic *)

Section RoundedPhaseWrap.
Import RoundedPhases.

(** With nothing rounded the cell is the exact one. *)
Lemma phases_of_exact (eigs : list R) (T : R) :
  phases_of (fun x => x) eigs T = HamiltonianPhases.phases_of eigs T.
Proof. reflexivity. Qed.

Lemma rounded_phases_of_pair (rnd : R -> R) (l1 l2 T : R) :
  phases_of rnd [l1; l2] T =
  Some [wrap1 rnd (scaled rnd l1 T); wrap1 rnd (scaled rnd l2 T)].
Proof.
  unfold phases_of, wrap_loop, wrap_at, wrap1; simpl.
  destruct (Rlt_dec (scaled rnd l1 T) 0); simpl;
    destruct (Rlt_dec (scaled rnd l2 T) 0); reflexivity.
Qed.

Lemma rnd_zero (rnd : R -> R) : rounding rnd -> rnd 0 = 0.
Proof.
  intros H. pose proof (rnd_opp rnd H 0) as E. rewrite Ropp_0 in E. lra.
Qed.

Lemma rnd_minus_one (rnd : R -> R) : rounding rnd -> rnd (-1) = -1.
Proof.
  intros H. replace (-1) with (- (1)) by lra.
  rewrite (rnd_opp rnd H), (rnd_one rnd H). reflexivity.
Qed.

Lemma rnd_pi_ge_1 (rnd : R -> R) : rounding rnd -> 1 <= rnd PI.
Proof.
  intros H. apply Rle_trans with (rnd 1).
  - rewrite (rnd_one rnd H). lra.
  - apply (rnd_monotone rnd H). generalize PI2_1. lra.
Qed.

(** The rounded quotient of a product below [2 pi] in absolute value
    lies between -1 and 1, both included. *)
Lemma scaled_bounds (rnd : R -> R) (l T : R) :
  rounding rnd -> Rabs (l * T) < 2 * PI -> -1 <= scaled rnd l T <= 1.
Proof.
  intros H Hx. apply Rabs_def2 in Hx. destruct Hx as [Hlt Hgt].
  pose proof (rnd_pi_ge_1 rnd H) as Hpi.
  assert (Hu : rnd (l * T) <= two_pi rnd).
  { unfold two_pi. rewrite <- (rnd_two_pi rnd H).
    apply (rnd_monotone rnd H). lra. }
  assert (Hl : - two_pi rnd <= rnd (l * T)).
  { unfold two_pi. rewrite <- (rnd_two_pi rnd H), <- (rnd_opp rnd H).
    apply (rnd_monotone rnd H). lra. }
  assert (Hp : 0 < two_pi rnd) by (unfold two_pi; lra).
  unfold scaled. split.
  - apply Rle_trans with (rnd (-1)); [rewrite (rnd_minus_one rnd H); lra|].
    apply (rnd_monotone rnd H).
    apply Rmult_le_reg_r with (two_pi rnd); [exact Hp|].
    unfold Rdiv. rewrite Rmult_assoc, Rinv_l by lra. lra.
  - apply Rle_trans with (rnd 1); [|rewrite (rnd_one rnd H); lra].
    apply (rnd_monotone rnd H).
    apply Rmult_le_reg_r with (two_pi rnd); [exact Hp|].
    unfold Rdiv. rewrite Rmult_assoc, Rinv_l by lra. lra.
Qed.

Lemma rounded_wrap1_range (rnd : R -> R) (q : R) :
  rounding rnd -> -1 <= q <= 1 -> 0 <= wrap1 rnd q <= 1.
Proof.
  intros H Hq. unfold wrap1. destruct (Rlt_dec q 0) as [Hneg | Hpos]; [|lra].
  split.
  - apply Rle_trans with (rnd 0); [rewrite (rnd_zero rnd H); lra|].
    apply (rnd_monotone rnd H). lra.
  - apply Rle_trans with (rnd 1); [|rewrite (rnd_one rnd H); lra].
    apply (rnd_monotone rnd H). lra.
Qed.

Lemma snap_rounding : rounding snap.
Proof.
  pose proof PI2_1 as Hpi. constructor.
  - intros x y Hxy. unfold snap.
    repeat match goal with |- context [Rlt_dec ?a ?b] => destruct (Rlt_dec a b) end;
      lra.
  - intros x. unfold snap.
    repeat match goal with |- context [Rlt_dec ?a ?b] => destruct (Rlt_dec a b) end;
      lra.
  - unfold snap.
    repeat match goal with |- context [Rlt_dec ?a ?b] => destruct (Rlt_dec a b) end;
      lra.
  - unfold snap.
    repeat match goal with |- context [Rlt_dec ?a ?b] => destruct (Rlt_dec a b) end;
      lra.
Qed.

(** Under the coarse rounding a small negative quotient ends at 1: the
    upper end of [[0,1]] is reached. *)
Lemma snap_reaches_one : wrap1 snap (scaled snap (-1 / 10) 1) = 1.
Proof.
  pose proof PI2_1 as Hpi.
  assert (E1 : snap PI = PI).
  { unfold snap.
    repeat match goal with |- context [Rlt_dec ?a ?b] => destruct (Rlt_dec a b) end;
      lra. }
  assert (E2 : snap (-1 / 10 * 1) = -1 / 10).
  { unfold snap.
    repeat match goal with |- context [Rlt_dec ?a ?b] => destruct (Rlt_dec a b) end;
      lra. }
  unfold scaled, two_pi. rewrite E1, E2.
  set (q := -1 / 10 / (2 * PI)).
  assert (Hq : -1 / 10 < q < 0).
  { unfold q. split.
    - apply Rmult_lt_reg_r with (2 * PI); [lra|].
      unfold Rdiv at 2. rewrite Rmult_assoc, Rinv_l by lra. lra.
    - apply Rmult_lt_reg_r with (2 * PI); [lra|].
      unfold Rdiv at 1. rewrite Rmult_assoc, Rinv_l by lra. lra. }
  clearbody q.
  assert (E3 : snap q = q).
  { unfold snap.
    repeat match goal with |- context [Rlt_dec ?a ?b] => destruct (Rlt_dec a b) end;
      lra. }
  rewrite E3. unfold wrap1. destruct (Rlt_dec q 0) as [_ | Hn]; [|lra].
  unfold snap.
  repeat match goal with |- context [Rlt_dec ?a ?b] => destruct (Rlt_dec a b) end;
    lra.
Qed.

(** C4: for eigenvalues [l1], [l2] and a duration [T] with
    [|l * T| < 2 pi], the phase cell returns, for each eigenvalue, the
    quotient [l * T / (2 pi)] plus 1 exactly when the quotient is
    negative.  On float64, whose operations round ([rnd]), the result
    lies in [[0,1]], both ends included; in exact arithmetic it lies in
    [[0,1)] and equals [(l * T mod 2 pi) / (2 pi)]. *)
Theorem C4_phase_wrap_in_range (rnd : R -> R) (l1 l2 T : R) :
  rounding rnd ->
  Rabs (l1 * T) < 2 * PI -> Rabs (l2 * T) < 2 * PI ->
  (exists p1 p2,
     phases_of rnd [l1; l2] T = Some [p1; p2] /\
     p1 = (if Rlt_dec (scaled rnd l1 T) 0 then rnd (1 + scaled rnd l1 T)
           else scaled rnd l1 T) /\
     p2 = (if Rlt_dec (scaled rnd l2 T) 0 then rnd (1 + scaled rnd l2 T)
           else scaled rnd l2 T) /\
     0 <= p1 <= 1 /\ 0 <= p2 <= 1) /\
  (exists p1 p2,
     HamiltonianPhases.phases_of [l1; l2] T = Some [p1; p2] /\
     p1 = l1 * T / (2 * PI) + (if Rlt_dec (l1 * T / (2 * PI)) 0 then 1 else 0) /\
     p2 = l2 * T / (2 * PI) + (if Rlt_dec (l2 * T / (2 * PI)) 0 then 1 else 0) /\
     0 <= p1 < 1 /\ 0 <= p2 < 1 /\
     p1 = HamiltonianPhases.Rmod (l1 * T) (2 * PI) / (2 * PI) /\
     p2 = HamiltonianPhases.Rmod (l2 * T) (2 * PI) / (2 * PI)).
Proof.
  intros Hr H1 H2. split.
  - exists (wrap1 rnd (scaled rnd l1 T)), (wrap1 rnd (scaled rnd l2 T)).
    split; [apply rounded_phases_of_pair|].
    split; [reflexivity|]. split; [reflexivity|].
    split; apply rounded_wrap1_range, scaled_bounds; assumption.
  - exists (HamiltonianPhases.wrap1 (l1 * T / (2 * PI))),
           (HamiltonianPhases.wrap1 (l2 * T / (2 * PI))).
    split; [apply phases_of_pair|].
    repeat split; try apply wrap1_once;
      try (apply wrap1_range, div_two_pi_bounds; assumption);
      try (apply wrap1_mod; assumption).
Qed.

Lemma C4_phase_wrap_in_range_witness :
  (exists p1 p2,
     phases_of snap [-1 / 10; 1] 1 = Some [p1; p2] /\
     p1 = (if Rlt_dec (scaled snap (-1 / 10) 1) 0
           then snap (1 + scaled snap (-1 / 10) 1)
           else scaled snap (-1 / 10) 1) /\
     p2 = (if Rlt_dec (scaled snap 1 1) 0 then snap (1 + scaled snap 1 1)
           else scaled snap 1 1) /\
     0 <= p1 <= 1 /\ 0 <= p2 <= 1) /\
  (exists p1 p2,
     HamiltonianPhases.phases_of [-1 / 10; 1] 1 = Some [p1; p2] /\
     p1 = -1 / 10 * 1 / (2 * PI) +
          (if Rlt_dec (-1 / 10 * 1 / (2 * PI)) 0 then 1 else 0) /\
     p2 = 1 * 1 / (2 * PI) + (if Rlt_dec (1 * 1 / (2 * PI)) 0 then 1 else 0) /\
     0 <= p1 < 1 /\ 0 <= p2 < 1 /\
     p1 = HamiltonianPhases.Rmod (-1 / 10 * 1) (2 * PI) / (2 * PI) /\
     p2 = HamiltonianPhases.Rmod (1 * 1) (2 * PI) / (2 * PI)).
Proof.
  apply (C4_phase_wrap_in_range snap (-1 / 10) 1 1).
  - exact snap_rounding.
  - apply Rabs_def1; generalize PI2_1; lra.
  - apply Rabs_def1; generalize PI2_1; lra.
Defined.

End RoundedPhaseWrap.

(** ** Runs on binary64 *)

Section Binary64Runs.
Import PrimFloat Binary64.
Local Open Scope float_scope.



(** C4, the float64 reading: at [-2^-60] the quotient is about
    [-1.4e-19], and [1 + phase] is [1.0]. *)
Lemma C4_binary64_reaches_one :
  exists p,
    (abs (- 0x1p-60 * 1) <? 2 * np_pi) = true /\
    phases_of [- 0x1p-60; - 0x1p-60] 1 = Some [p; p] /\
    (p <? 1) = false.
Proof. exists 1. vm_compute. repeat split. Qed.



End Binary64Runs.


(** ** Algebra of columns and 2x2 arrays *)

(** Expanding the complex and 2x2 operations down to real components. *)
Ltac calg :=
  cbv [Cdivr Cexp Cabs Cnorm2 Cconj Cmul Csub Cneg Cadd Ci C1 C0 RtoC Re Im
       fst snd m00 m01 m10 m11 ent vent eye2 Madd Msub Mscale Mmul Mvec Mdag
       Vdivr Vscale Vnorm2 Vdot RandomUnitary.proj RandomUnitary.perp] in *.

Ltac csplit := apply injective_projections; cbv [fst snd].
Ltac msplit := apply (f_equal4 mkM2); csplit.
Ltac cring := calg; csplit; ring.
Ltac mring := calg; msplit; ring.

Section LinearAlgebra2.
Import RandomUnitary.

Lemma f_equal4 {A B D E F} (f : A -> B -> D -> E -> F) a a' b b' d d' e e' :
  a = a' -> b = b' -> d = d' -> e = e' -> f a b d e = f a' b' d' e'.
Proof. intros; subst; reflexivity. Qed.

Lemma Cnorm2_nonneg (z : C) : 0 <= Cnorm2 z.
Proof. unfold Cnorm2. nra. Qed.

Lemma Vnorm2_nonneg (v : V2) : 0 <= Vnorm2 v.
Proof.
  unfold Vnorm2. generalize (Cnorm2_nonneg (fst v)), (Cnorm2_nonneg (snd v)). lra.
Qed.

Lemma Vnorm_sqr (v : V2) : Vnorm v * Vnorm v = Vnorm2 v.
Proof. apply sqrt_sqrt, Vnorm2_nonneg. Qed.

Lemma Vnorm_nonzero (v : V2) : Vnorm v <> 0 -> Vnorm2 v <> 0.
Proof. intros H E. apply H. unfold Vnorm. rewrite E. apply sqrt_0. Qed.

Lemma Vnorm2_divr (v : V2) (r : R) :
  r <> 0 -> Vnorm2 (Vdivr v r) = Vnorm2 v / (r * r).
Proof.
  intros Hr. destruct v as [[a b] [c d]]. calg. field. exact Hr.
Qed.

(** Dividing a nonzero column by its norm gives a unit column. *)
Lemma Vnorm2_normalized (v : V2) :
  Vnorm v <> 0 -> Vnorm2 (Vdivr v (Vnorm v)) = 1.
Proof.
  intros H. rewrite Vnorm2_divr by exact H. rewrite Vnorm_sqr.
  field. apply Vnorm_nonzero, H.
Qed.


Lemma project_out_is_perp (v w : V2) :
  Vnorm2 v = 1 ->
  Mvec (Msub eye2 (proj v)) w =
  Vscale (fst v * snd w - snd v * fst w)%C (perp v).
Proof.
  destruct v as [[a b] [c d]], w as [[e f] [g h]]. calg.
  intros Hn. csplit; csplit; nsatz.
Qed.

Lemma Vnorm2_scale (c : C) (v : V2) :
  Vnorm2 (Vscale c v) = Cnorm2 c * Vnorm2 v.
Proof. destruct v as [[a b] [e f]], c as [x y]. calg. ring. Qed.

Lemma Vnorm2_perp (v : V2) : Vnorm2 (perp v) = Vnorm2 v.
Proof. destruct v as [[a b] [e f]]. calg. ring. Qed.

Lemma proj_divr (e : V2) (r : R) :
  r <> 0 -> proj (Vdivr e r) = Mscale (RtoC (/ (r * r))) (proj e).
Proof.
  intros Hr. destruct e as [[a b] [c d]]. calg. msplit; field; exact Hr.
Qed.

Lemma proj_scale (s : C) (u : V2) :
  proj (Vscale s u) = Mscale (RtoC (Cnorm2 s)) (proj u).
Proof. destruct u as [[a b] [c d]], s as [x y]. mring. Qed.

Lemma proj_perp (v : V2) :
  Vnorm2 v = 1 -> proj (perp v) = Msub eye2 (proj v).
Proof.
  destruct v as [[a b] [c d]]. calg. intros H. msplit; nsatz.
Qed.

Lemma Mscale_inv (r : R) (A : M2) :
  r <> 0 -> Mscale (RtoC (/ r)) (Mscale (RtoC r) A) = A.
Proof.
  intros Hr. destruct A as [[a b] [c d] [e f] [g h]]. calg.
  msplit; field; exact Hr.
Qed.

(** In the plane, the projector on the normalised [(I - |v><v|) w] is
    [I - |v><v|] itself. *)
Lemma proj_of_projected (v w : V2) :
  Vnorm2 v = 1 ->
  Vnorm (Mvec (Msub eye2 (proj v)) w) <> 0 ->
  proj (Vdivr (Mvec (Msub eye2 (proj v)) w)
              (Vnorm (Mvec (Msub eye2 (proj v)) w))) =
  Msub eye2 (proj v).
Proof.
  intros Hv Hn.
  rewrite proj_divr by exact Hn. rewrite Vnorm_sqr.
  pose proof (Vnorm_nonzero _ Hn) as Hn2. revert Hn2.
  rewrite (project_out_is_perp v w Hv).
  rewrite Vnorm2_scale, Vnorm2_perp, Hv, Rmult_1_r. intros Hs.
  rewrite proj_scale, Mscale_inv by exact Hs.
  apply proj_perp, Hv.
Qed.

(** The first column is orthogonal to whatever [I - |v><v|] produces. *)
Lemma Vdot_projected (v w : V2) (r : R) :
  Vnorm2 v = 1 ->
  Vdot v (Vdivr (Mvec (Msub eye2 (proj v)) w) r) = C0.
Proof.
  intros Hv. rewrite (project_out_is_perp v w Hv).
  generalize (fst v * snd w - snd v * fst w)%C. intros [x y].
  destruct v as [[a b] [e f]]. calg. unfold Rdiv. csplit; ring.
Qed.

Lemma Mdag_proj (v : V2) : Mdag (proj v) = proj v.
Proof. destruct v as [[a b] [e f]]. mring. Qed.

Lemma proj_idem (v : V2) :
  Vnorm2 v = 1 -> Mmul (proj v) (proj v) = proj v.
Proof.
  intros Hv.
  assert (E : Mmul (proj v) (proj v) = Mscale (RtoC (Vnorm2 v)) (proj v)).
  { destruct v as [[a b] [e f]]. mring. }
  rewrite E, Hv. destruct (proj v) as [[a b] [c d] [e f] [g h]]. mring.
Qed.

Lemma Mdag_two_phase (alpha beta : C) (P : M2) :
  Mdag (Madd (Mscale alpha P) (Mscale beta (Msub eye2 P))) =
  Madd (Mscale (Cconj alpha) (Mdag P)) (Mscale (Cconj beta) (Msub eye2 (Mdag P))).
Proof.
  destruct P as [[a b] [c d] [e f] [g h]], alpha as [p q], beta as [s t]. mring.
Qed.

Lemma two_phase_product (a' b' a b : C) (P : M2) :
  Mmul (Madd (Mscale a' P) (Mscale b' (Msub eye2 P)))
       (Madd (Mscale a P) (Mscale b (Msub eye2 P))) =
  Madd (Mscale (b' * b) eye2)
       (Madd (Mscale (a' * b + b' * a - (b' * b + b' * b)) P)
             (Mscale ((a' - b') * (a - b)) (Mmul P P))).
Proof.
  destruct P as [[p0 p1] [p2 p3] [p4 p5] [p6 p7]],
           a' as [x0 x1], b' as [y0 y1], a as [z0 z1], b as [w0 w1]. mring.
Qed.

Lemma Cconj_mul_self (z : C) : (Cconj z * z)%C = RtoC (Cnorm2 z).
Proof. destruct z as [x y]. cring. Qed.

Lemma Mscale_plus (c d : C) (P : M2) :
  Madd (Mscale c P) (Mscale d P) = Mscale (c + d) P.
Proof.
  destruct P as [[p0 p1] [p2 p3] [p4 p5] [p6 p7]], c as [x y], d as [z w]. mring.
Qed.

Lemma Mscale_one_zero (P : M2) : Madd (Mscale C1 eye2) (Mscale C0 P) = eye2.
Proof. destruct P as [[p0 p1] [p2 p3] [p4 p5] [p6 p7]]. mring. Qed.

(** [alpha P + beta (I - P)] is unitary when [P] is a Hermitian
    projector and [alpha], [beta] have modulus 1. *)
Lemma two_phase_unitary_gen (alpha beta : C) (P : M2) :
  Mdag P = P -> Mmul P P = P -> Cnorm2 alpha = 1 -> Cnorm2 beta = 1 ->
  Mmul (Mdag (Madd (Mscale alpha P) (Mscale beta (Msub eye2 P))))
       (Madd (Mscale alpha P) (Mscale beta (Msub eye2 P))) = eye2.
Proof.
  intros Hd Hi Ha Hb.
  rewrite Mdag_two_phase, Hd, two_phase_product, Hi.
  rewrite Mscale_plus.
  pose proof (Cconj_mul_self alpha) as Ea. pose proof (Cconj_mul_self beta) as Eb.
  rewrite Ha in Ea. rewrite Hb in Eb.
  assert (Ec : (Cconj alpha * beta + Cconj beta * alpha
                - (Cconj beta * beta + Cconj beta * beta)
                + (Cconj alpha - Cconj beta) * (alpha - beta))%C = C0).
  { transitivity (Cconj alpha * alpha - Cconj beta * beta)%C.
    - destruct alpha as [p q], beta as [s t]. cring.
    - rewrite Ea, Eb. cring. }
  rewrite Ec, Eb. apply Mscale_one_zero.
Qed.

Lemma two_phase_unitary (alpha beta : C) (v : V2) :
  Vnorm2 v = 1 -> Cnorm2 alpha = 1 -> Cnorm2 beta = 1 ->
  Mmul (Mdag (Madd (Mscale alpha (proj v)) (Mscale beta (Msub eye2 (proj v)))))
       (Madd (Mscale alpha (proj v)) (Mscale beta (Msub eye2 (proj v)))) = eye2.
Proof.
  intros Hv. apply two_phase_unitary_gen; [apply Mdag_proj | apply proj_idem, Hv].
Qed.

End LinearAlgebra2.

(** ** [create_unitary] *)

Section CreateUnitary.
Import RandomUnitary.

Lemma lnorm_pair (a b : C) : lnorm [a; b] = Vnorm (a, b).
Proof. unfold lnorm, Vnorm, Vnorm2. simpl. rewrite Rplus_0_r. reflexivity. Qed.

(** [create_random_vec(2)] returns the normalised drawn column and moves
    the generator four samples on. *)
Lemma create_random_vec_2 (s : world) :
  create_random_vec 2 s =
  Ok ([fst (random_vec (gen s)); snd (random_vec (gen s))],
      mkWorld (advance 4 (gen s)) (queue s)).
Proof.
  unfold create_random_vec, bind, np_random_rand, ret.
  cbn [map seq complex_of gen queue advance Nat.add].
  rewrite lnorm_pair. reflexivity.
Qed.

Lemma close_refl (z : C) : close z z = true.
Proof.
  unfold close, Rleb.
  assert (E : Cabs (z - z) = 0).
  { unfold Cabs. replace (Cnorm2 (z - z)) with 0.
    - apply sqrt_0.
    - destruct z as [x y]. calg. ring. }
  rewrite E. destruct (Rle_dec 0 (1 / 100000000 + 1 / 100000 * Cabs z)) as [H | H].
  - reflexivity.
  - exfalso. apply H. pose proof (sqrt_pos (Cnorm2 z)) as Hp. unfold Cabs. lra.
Qed.

Lemma allclose_refl (A : M2) : allclose A A = true.
Proof. unfold allclose. rewrite !close_refl. reflexivity. Qed.

Lemma phase_factor_cis (p : R) :
  phase_factor p = (cos (2 * PI * p), sin (2 * PI * p)).
Proof.
  unfold phase_factor.
  replace (RtoC (2 * PI) * Ci * RtoC p)%C with ((0, 2 * PI * p) : C) by cring.
  unfold Cexp. cbn [fst snd]. rewrite exp_0, !Rmult_1_l. reflexivity.
Qed.

Lemma phase_factor_unit (p : R) : Cnorm2 (phase_factor p) = 1.
Proof.
  rewrite phase_factor_cis. unfold Cnorm2. cbn [fst snd].
  pose proof (sin2_cos2 (2 * PI * p)) as H. unfold Rsqr in H. lra.
Qed.

(** The array [create_unitary] builds before its assertion. *)
Lemma unitary_of_draws_unitary (a b : R) (g : rng) :
  Vnorm (drawn_vec g) <> 0 -> Vnorm (projected_of g) <> 0 ->
  let U := Madd (Mscale (phase_factor a) (proj (eigvec_1_of g)))
                (Mscale (phase_factor b) (proj (eigvec_2_of g))) in
  Mmul (Mdag U) U = eye2.
Proof.
  intros H1 H3 U. subst U.
  assert (Hu : Vnorm2 (eigvec_1_of g) = 1) by (apply Vnorm2_normalized, H1).
  unfold eigvec_2_of, projected_of in *.
  rewrite (proj_of_projected _ _ Hu H3).
  apply two_phase_unitary; [exact Hu | apply phase_factor_unit ..].
Qed.

Lemma create_unitary_run (a b : R) (s : world) :
  Vnorm (drawn_vec (gen s)) <> 0 -> Vnorm (projected_of (gen s)) <> 0 ->
  create_unitary [a; b] s =
  Ok (Madd (Mscale (phase_factor a) (proj (eigvec_1_of (gen s))))
           (Mscale (phase_factor b) (proj (eigvec_2_of (gen s)))),
      mkWorld (advance 8 (gen s)) (queue s)).
Proof.
  intros H1 H3.
  pose proof (unitary_of_draws_unitary a b (gen s) H1 H3) as HU. cbv zeta in HU.
  unfold create_unitary, bind at 1. rewrite create_random_vec_2.
  unfold as_col2, bind at 1, ret at 1. unfold bind at 1.
  rewrite create_random_vec_2. cbn [gen queue].
  unfold bind at 1, ret at 1. unfold item, bind, ret. cbn [nth_error].
  change (fst (random_vec (gen s)), snd (random_vec (gen s)))
    with (let v := random_vec (gen s) in (fst v, snd v)).
  cbv zeta. rewrite <- !surjective_pairing.
  change (random_vec (gen s)) with (eigvec_1_of (gen s)).
  fold (projected_of (gen s)). fold (eigvec_2_of (gen s)).
  rewrite HU, allclose_refl. reflexivity.
Qed.



Lemma sqrt_quarter : sqrt (1 / 4) = 1 / 2.
Proof.
  replace (1 / 4) with ((1 / 2) * (1 / 2)) by field.
  apply sqrt_square. lra.
Qed.

Lemma demo_drawn_1 : drawn_vec demo_gen = ((1 / 2, 0), (0, 0)).
Proof. unfold drawn_vec, demo_gen. calg. csplit; csplit; ring. Qed.

Lemma demo_drawn_2 : drawn_vec (advance 4 demo_gen) = ((0, 0), (1 / 2, 0)).
Proof. unfold drawn_vec, demo_gen, advance. cbn [Nat.add]. calg. csplit; csplit; ring. Qed.

Lemma demo_norm_1 : Vnorm (drawn_vec demo_gen) = 1 / 2.
Proof.
  rewrite demo_drawn_1. unfold Vnorm. calg.
  replace (1 / 2 * (1 / 2) + 0 * 0 + (0 * 0 + 0 * 0)) with (1 / 4) by field.
  apply sqrt_quarter.
Qed.

Lemma demo_norm_2 : Vnorm (drawn_vec (advance 4 demo_gen)) = 1 / 2.
Proof.
  rewrite demo_drawn_2. unfold Vnorm. calg.
  replace (0 * 0 + 0 * 0 + (1 / 2 * (1 / 2) + 0 * 0)) with (1 / 4) by field.
  apply sqrt_quarter.
Qed.

Lemma demo_projected : projected_of demo_gen = ((0, 0), (1, 0)).
Proof.
  unfold projected_of, eigvec_1_of, random_vec.
  rewrite demo_norm_1, demo_norm_2, demo_drawn_1, demo_drawn_2.
  calg. csplit; csplit; field.
Qed.

Lemma demo_projected_norm : Vnorm (projected_of demo_gen) = 1.
Proof.
  rewrite demo_projected. unfold Vnorm. calg.
  replace (0 * 0 + 0 * 0 + (1 * 1 + 0 * 0)) with 1 by ring. apply sqrt_1.
Qed.

End CreateUnitary.

(** ** Bit strings and their integers *)

Section BitStrings.
Import Simulator.

Lemma length_bits (m k : nat) : length (bits m k) = m.
Proof. induction m as [|m IH]; simpl; [reflexivity | now rewrite IH]. Qed.

Lemma pow2_pos (m : nat) : (0 < 2 ^ m)%nat.
Proof. induction m; simpl; lia. Qed.

Lemma val_lt (x : list bool) : (val x < 2 ^ length x)%nat.
Proof.
  induction x as [|h t IH]; simpl; [lia|].
  destruct h; lia.
Qed.

Lemma testbit_small (k m : nat) : (k < 2 ^ m)%nat -> Nat.testbit k m = false.
Proof.
  intros H. destruct k as [|k].
  - apply Nat.bits_0.
  - apply Nat.bits_above_log2. apply Nat.log2_lt_pow2; [lia | exact H].
Qed.

Lemma testbit_pow2_add_high (k m : nat) :
  (k < 2 ^ m)%nat -> Nat.testbit (2 ^ m + k) m = true.
Proof.
  intros H. apply Nat.b2n_inj. rewrite Nat.testbit_spec'.
  replace (2 ^ m + k)%nat with (k + 1 * 2 ^ m)%nat by lia.
  rewrite Nat.div_add by (pose proof (pow2_pos m); lia).
  rewrite Nat.div_small by exact H. reflexivity.
Qed.

Lemma testbit_pow2_add_low (k m i : nat) :
  (i < m)%nat -> Nat.testbit (2 ^ m + k) i = Nat.testbit k i.
Proof.
  intros H. apply Nat.b2n_inj. rewrite !Nat.testbit_spec'.
  replace (2 ^ m)%nat with (2 ^ (m - i) * 2 ^ i)%nat
    by (rewrite <- Nat.pow_add_r; f_equal; lia).
  rewrite Nat.add_comm, Nat.div_add by (pose proof (pow2_pos i); lia).
  replace (m - i)%nat with (S (m - i - 1)) by lia.
  rewrite Nat.pow_succ_r', (Nat.mul_comm 2), Nat.Div0.mod_add. reflexivity.
Qed.

Lemma bits_pow2_add (m m' k : nat) :
  (m <= m')%nat -> bits m (2 ^ m' + k) = bits m k.
Proof.
  induction m as [|m IH]; intros H; simpl; [reflexivity|].
  rewrite testbit_pow2_add_low by lia. rewrite IH by lia. reflexivity.
Qed.

Lemma val_bits (m k : nat) : (k < 2 ^ m)%nat -> val (bits m k) = k.
Proof.
  revert k. induction m as [|m IH]; intros k H; simpl in *; [lia|].
  rewrite length_bits.
  destruct (Nat.lt_ge_cases k (2 ^ m)) as [Hlt | Hge].
  - rewrite testbit_small by exact Hlt. rewrite IH by exact Hlt. reflexivity.
  - replace k with (2 ^ m + (k - 2 ^ m))%nat at 1 2 by lia.
    rewrite testbit_pow2_add_high by lia.
    rewrite bits_pow2_add by lia. rewrite IH by lia. lia.
Qed.

Lemma bits_val (x : list bool) : bits (length x) (val x) = x.
Proof.
  induction x as [|h t IH]; simpl; [reflexivity|].
  pose proof (val_lt t) as Hlt.
  destruct h.
  - rewrite testbit_pow2_add_high by exact Hlt.
    rewrite bits_pow2_add by lia. now rewrite IH.
  - simpl. rewrite testbit_small by exact Hlt. now rewrite IH.
Qed.

End BitStrings.

(** ** Complex arithmetic *)

Lemma C_ring_theory : ring_theory C0 C1 Cadd Cmul Csub Cneg eq.
Proof.
  constructor; intros; repeat match goal with z : C |- _ => destruct z end; cring.
Qed.

Add Ring C_ring : C_ring_theory.

Section ComplexAlgebra.
Import Simulator.

Lemma Cnorm2_mul (z w : C) : Cnorm2 (z * w) = Cnorm2 z * Cnorm2 w.
Proof. destruct z, w. calg. ring. Qed.

Lemma Cnorm2_zero (z : C) : Cnorm2 z = 0 -> z = C0.
Proof.
  destruct z as [x y]. calg. intros H.
  assert (x = 0) by nra. assert (y = 0) by nra. subst. reflexivity.
Qed.

Lemma Cnorm2_C0 : Cnorm2 C0 = 0.
Proof. calg. ring. Qed.

Lemma Cmul_integral (z w : C) : (z * w)%C = C0 -> z = C0 \/ w = C0.
Proof.
  intros H. assert (E : Cnorm2 z * Cnorm2 w = 0).
  { rewrite <- Cnorm2_mul, H. apply Cnorm2_C0. }
  apply Rmult_integral in E. destruct E as [E | E];
    [left | right]; apply Cnorm2_zero, E.
Qed.

Lemma Cexpi_cis (t : R) : Cexpi t = (cos t, sin t).
Proof.
  unfold Cexpi, Cexp. cbn [fst snd]. rewrite exp_0, !Rmult_1_l. reflexivity.
Qed.

Lemma Cexpi_0 : Cexpi 0 = C1.
Proof. rewrite Cexpi_cis, cos_0, sin_0. reflexivity. Qed.

Lemma Cexpi_add (a b : R) : Cexpi (a + b) = (Cexpi a * Cexpi b)%C.
Proof. rewrite !Cexpi_cis, cos_plus, sin_plus. cring. Qed.

Lemma Cexpi_conj (t : R) : Cconj (Cexpi t) = Cexpi (- t).
Proof. rewrite !Cexpi_cis, cos_neg, sin_neg. reflexivity. Qed.

Lemma Cexpi_norm (t : R) : Cnorm2 (Cexpi t) = 1.
Proof.
  rewrite Cexpi_cis. calg. pose proof (sin2_cos2 t) as H. unfold Rsqr in H. lra.
Qed.

Lemma Cexpi_pow (t : R) (k : nat) : Cpow (Cexpi t) k = Cexpi (INR k * t).
Proof.
  induction k as [|k IH].
  - simpl. rewrite Rmult_0_l. symmetry. apply Cexpi_0.
  - cbn [Cpow]. rewrite IH, <- Cexpi_add. f_equal. rewrite S_INR. ring.
Qed.

Lemma Cexpi_2pi_nat (k : nat) : Cexpi (2 * PI * INR k) = C1.
Proof.
  rewrite Cexpi_cis.
  replace (2 * PI * INR k) with (0 + 2 * INR k * PI) by ring.
  rewrite cos_period, sin_period, cos_0, sin_0. reflexivity.
Qed.

Lemma Cexpi_eq_1_pos (t : R) : 0 < t < 2 * PI -> Cexpi t <> C1.
Proof.
  intros Ht E. rewrite Cexpi_cis in E. injection E as Ec Es.
  destruct (sin_eq_O_2PI_0 t) as [H | [H | H]]; try lra.
  rewrite H, cos_PI in Ec. lra.
Qed.

Lemma Cexpi_eq_1 (t : R) : - (2 * PI) < t < 2 * PI -> Cexpi t = C1 -> t = 0.
Proof.
  intros Ht E.
  destruct (Rtotal_order t 0) as [Hneg | [Hz | Hpos]]; [|exact Hz|].
  - exfalso. apply (Cexpi_eq_1_pos (- t)); [lra|].
    rewrite <- Cexpi_conj, E. cring.
  - exfalso. apply (Cexpi_eq_1_pos t); [lra | exact E].
Qed.

End ComplexAlgebra.

(** ** Finite sums *)

Section Sums.
Import Simulator.

Lemma Csum_ext (n : nat) (f g : nat -> C) :
  (forall k, (k < n)%nat -> f k = g k) -> Csum n f = Csum n g.
Proof.
  induction n as [|n IH]; intros H; simpl; [reflexivity|].
  rewrite IH by (intros; apply H; lia). rewrite H by lia. reflexivity.
Qed.

Lemma Csum_zero (n : nat) : Csum n (fun _ => C0) = C0.
Proof. induction n as [|n IH]; simpl; [reflexivity|]. rewrite IH. ring. Qed.

Lemma Csum_add (n : nat) (f g : nat -> C) :
  Csum n (fun k => (f k + g k)%C) = (Csum n f + Csum n g)%C.
Proof. induction n as [|n IH]; simpl; [ring|]. rewrite IH. ring. Qed.

Lemma Csum_scale (n : nat) (c : C) (f : nat -> C) :
  Csum n (fun k => (c * f k)%C) = (c * Csum n f)%C.
Proof. induction n as [|n IH]; simpl; [ring|]. rewrite IH. ring. Qed.

Lemma Csum_scale_r (n : nat) (c : C) (f : nat -> C) :
  Csum n (fun k => (f k * c)%C) = (Csum n f * c)%C.
Proof. induction n as [|n IH]; simpl; [ring|]. rewrite IH. ring. Qed.

Lemma Csum_swap (n m : nat) (f : nat -> nat -> C) :
  Csum n (fun j => Csum m (fun k => f j k)) =
  Csum m (fun k => Csum n (fun j => f j k)).
Proof.
  induction n as [|n IH]; simpl.
  - symmetry. apply Csum_zero.
  - rewrite IH, <- Csum_add. reflexivity.
Qed.

Lemma Csum_delta (n j : nat) (g : nat -> C) :
  (j < n)%nat ->
  Csum n (fun k => if Nat.eqb k j then g k else C0) = g j.
Proof.
  induction n as [|n IH]; intros H; [lia|]. simpl.
  destruct (Nat.eqb_spec n j) as [E | E].
  - subst. rewrite (Csum_ext j _ (fun _ => C0)).
    + rewrite Csum_zero. ring.
    + intros k Hk. destruct (Nat.eqb_spec k j); [lia | reflexivity].
  - rewrite IH by lia. ring.
Qed.

Lemma Cconj_add (z w : C) : Cconj (z + w) = (Cconj z + Cconj w)%C.
Proof. destruct z, w. cring. Qed.

Lemma Cconj_mul (z w : C) : Cconj (z * w) = (Cconj z * Cconj w)%C.
Proof. destruct z, w. cring. Qed.

Lemma Cconj_RtoC (x : R) : Cconj (RtoC x) = RtoC x.
Proof. cring. Qed.

Lemma Cconj_invol (z : C) : Cconj (Cconj z) = z.
Proof. destruct z. cring. Qed.

Lemma Csum_conj (n : nat) (f : nat -> C) :
  Cconj (Csum n f) = Csum n (fun k => Cconj (f k)).
Proof.
  induction n as [|n IH]; simpl; [cring|]. rewrite Cconj_add, IH. reflexivity.
Qed.

Lemma Csum_RtoC (n : nat) (f : nat -> R) :
  Csum n (fun k => RtoC (f k)) = RtoC (Rsum n f).
Proof.
  induction n as [|n IH]; simpl; [reflexivity|]. rewrite IH. cring.
Qed.

Lemma Rsum_ext (n : nat) (f g : nat -> R) :
  (forall k, (k < n)%nat -> f k = g k) -> Rsum n f = Rsum n g.
Proof.
  induction n as [|n IH]; intros H; simpl; [reflexivity|].
  rewrite IH by (intros; apply H; lia). rewrite H by lia. reflexivity.
Qed.

Lemma Rsum_add (n : nat) (f g : nat -> R) :
  Rsum n (fun k => f k + g k) = Rsum n f + Rsum n g.
Proof. induction n as [|n IH]; simpl; [ring|]. rewrite IH. ring. Qed.

Lemma Rsum_split (n m : nat) (f : nat -> R) :
  Rsum (n + m) f = Rsum n f + Rsum m (fun k => f (n + k)%nat).
Proof.
  induction m as [|m IH]; simpl.
  - rewrite Nat.add_0_r. ring.
  - rewrite Nat.add_succ_r. simpl. rewrite IH. ring.
Qed.

Lemma Rsum_nonneg (n : nat) (f : nat -> R) :
  (forall k, (k < n)%nat -> 0 <= f k) -> 0 <= Rsum n f.
Proof.
  induction n as [|n IH]; intros H; simpl; [lra|].
  assert (0 <= Rsum n f) by (apply IH; intros; apply H; lia).
  assert (0 <= f n) by (apply H; lia). lra.
Qed.

Lemma Rsum_zero (n : nat) : Rsum n (fun _ => 0) = 0.
Proof. induction n as [|n IH]; simpl; [reflexivity|]. rewrite IH. ring. Qed.

Lemma Cpow_C1 (n : nat) : Cpow C1 n = C1.
Proof. induction n as [|n IH]; simpl; [reflexivity|]. rewrite IH. ring. Qed.

Lemma Csum_const_one (n : nat) : Csum n (fun _ => C1) = RtoC (INR n).
Proof.
  induction n as [|n IH]; [reflexivity|].
  cbn [Csum]. rewrite IH, S_INR. cring.
Qed.

Lemma Rsum_delta (n j : nat) (g : nat -> R) :
  (j < n)%nat ->
  Rsum n (fun k => if Nat.eqb k j then g k else 0) = g j.
Proof.
  induction n as [|n IH]; intros H; [lia|]. simpl.
  destruct (Nat.eqb_spec n j) as [E | E].
  - subst. rewrite (Rsum_ext j _ (fun _ => 0)).
    + rewrite Rsum_zero. ring.
    + intros k Hk. destruct (Nat.eqb_spec k j); [lia | reflexivity].
  - rewrite IH by lia. ring.
Qed.

(** The geometric sum. *)
Lemma Csum_geometric (z : C) (n : nat) :
  (Csum n (Cpow z) * (z - C1))%C = (Cpow z n - C1)%C.
Proof.
  induction n as [|n IH]; simpl; [ring|].
  transitivity (Csum n (Cpow z) * (z - C1) + Cpow z n * (z - C1))%C; [ring|].
  rewrite IH. ring.
Qed.

(** The roots of unity other than 1 sum to zero. *)
Lemma Csum_roots (n i j : nat) :
  (i < n)%nat -> (j < n)%nat ->
  Csum n (fun k => Cexpi (2 * PI * (INR i - INR j) / INR n * INR k)) =
  if Nat.eqb i j then RtoC (INR n) else C0.
Proof.
  intros Hi Hj.
  assert (Hn : 0 < INR n) by (apply lt_0_INR; lia).
  set (t := 2 * PI * (INR i - INR j) / INR n).
  rewrite (Csum_ext n _ (Cpow (Cexpi t))).
  2:{ intros k _. rewrite Cexpi_pow. f_equal. ring. }
  destruct (Nat.eqb_spec i j) as [E | E].
  - subst j. assert (Et : t = 0) by (unfold t; field; lra).
    rewrite Et, Cexpi_0.
    rewrite (Csum_ext n _ (fun _ => C1)) by (intros; apply Cpow_C1).
    apply Csum_const_one.
  - pose proof (Csum_geometric (Cexpi t) n) as G.
    assert (Ep : Cpow (Cexpi t) n = C1).
    { rewrite Cexpi_pow.
      replace (INR n * t) with (2 * PI * INR i + - (2 * PI * INR j))
        by (unfold t; field; lra).
      rewrite Cexpi_add, <- Cexpi_conj, !Cexpi_2pi_nat. cring. }
    rewrite Ep in G. replace (C1 - C1)%C with C0 in G by ring.
    apply Cmul_integral in G. destruct G as [G | G]; [exact G|].
    exfalso. assert (E1 : Cexpi t = C1).
    { transitivity (Cexpi t - C1 + C1)%C; [ring|]. rewrite G. ring. }
    apply Cexpi_eq_1 in E1.
    + assert (INR i - INR j = 0).
      { unfold t in E1. pose proof two_pi_pos.
        apply Rmult_eq_reg_l with (2 * PI / INR n).
        - rewrite Rmult_0_r, <- E1. field. lra.
        - apply Rgt_not_eq. apply Rdiv_lt_0_compat; lra. }
      apply E. apply INR_eq. lra.
    + pose proof two_pi_pos.
      assert (- INR n < INR i - INR j < INR n).
      { pose proof (pos_INR i). pose proof (pos_INR j).
        apply lt_INR in Hi. apply lt_INR in Hj. lra. }
      unfold t. split.
      * apply Rmult_lt_reg_r with (INR n); [exact Hn|].
        unfold Rdiv. rewrite Rmult_assoc, Rinv_l by lra. nra.
      * apply Rmult_lt_reg_r with (INR n); [exact Hn|].
        unfold Rdiv. rewrite Rmult_assoc, Rinv_l by lra. nra.
Qed.

End Sums.

(** ** Basis states, axes and amplitude tensors *)

Section Tensors.
Import Simulator.

Lemma length_upd (a : nat) (v : bool) (b : basis) : length (upd a v b) = length b.
Proof.
  revert a. induction b as [|h t IH]; intros [|a]; simpl; try reflexivity.
  now rewrite IH.
Qed.

Lemma bit_upd_same (a : nat) (v : bool) (b : basis) :
  (a < length b)%nat -> bit (upd a v b) a = v.
Proof.
  revert a. induction b as [|h t IH]; intros [|a] H; simpl in *; try lia.
  - reflexivity.
  - apply IH. lia.
Qed.

Lemma bit_upd_other (a c : nat) (v : bool) (b : basis) :
  a <> c -> bit (upd a v b) c = bit b c.
Proof.
  revert a c. induction b as [|h t IH]; intros [|a] [|c] H; simpl; try reflexivity.
  - lia.
  - apply IH. lia.
Qed.

Lemma upd_upd_same (a : nat) (v w : bool) (b : basis) :
  upd a w (upd a v b) = upd a w b.
Proof.
  revert a. induction b as [|h t IH]; intros [|a]; simpl; try reflexivity.
  now rewrite IH.
Qed.

Lemma read_shift (l : list nat) (s : bool) (x : basis) :
  read (map S l) (s :: x) = read l x.
Proof. unfold read. rewrite map_map. reflexivity. Qed.

Lemma read_all (x : basis) : read (seq 0 (length x)) x = x.
Proof.
  induction x as [|h t IH]; [reflexivity|].
  cbn [length seq]. rewrite <- seq_shift.
  change (read (0%nat :: map S (seq 0 (length t))) (h :: t))
    with (h :: read (map S (seq 0 (length t))) (h :: t)).
  now rewrite read_shift, IH.
Qed.

(** Reading the axes [1..m] of [s :: x] gives [x]. *)
Lemma read_tail (s : bool) (x : basis) : read (seq 1 (length x)) (s :: x) = x.
Proof. rewrite <- seq_shift, read_shift. apply read_all. Qed.

Lemma write_shift (l : list nat) (y : list bool) (s : bool) (x : basis) :
  write (map S l) y (s :: x) = s :: write l y x.
Proof.
  unfold write. revert y x.
  induction l as [|a l IH]; intros [|v y] x; simpl; try reflexivity.
  apply IH.
Qed.

Lemma write_all (x y : basis) :
  length y = length x -> write (seq 0 (length x)) y x = y.
Proof.
  revert y. induction x as [|h t IH]; intros [|v y] H; simpl in H; try lia.
  - reflexivity.
  - cbn [length seq]. rewrite <- seq_shift.
    change (write (0%nat :: map S (seq 0 (length t))) (v :: y) (h :: t))
      with (write (map S (seq 0 (length t))) y (v :: t)).
    rewrite write_shift, IH by lia. reflexivity.
Qed.

(** Writing [y] on the axes [1..m] of [s :: x] gives [s :: y]. *)
Lemma write_tail (s : bool) (x y : basis) :
  length y = length x -> write (seq 1 (length x)) y (s :: x) = s :: y.
Proof. intros H. rewrite <- seq_shift, write_shift, write_all by exact H. reflexivity. Qed.

Lemma length_write (axes : list nat) (y : list bool) (b : basis) :
  length (write axes y b) = length b.
Proof.
  unfold write. generalize (combine axes y). intros l. revert b.
  induction l as [|p l IH]; intros b; simpl; [reflexivity|].
  rewrite IH. apply length_upd.
Qed.

(** *** Agreement on [n] axes is preserved by every operation *)

Lemma eqn_refl (n : nat) (psi : state) : eqn n psi psi.
Proof. intros b _. reflexivity. Qed.

Lemma eqn_sym (n : nat) (psi phi : state) : eqn n psi phi -> eqn n phi psi.
Proof. intros H b Hb. symmetry. apply H, Hb. Qed.

Lemma eqn_trans (n : nat) (psi phi chi : state) :
  eqn n psi phi -> eqn n phi chi -> eqn n psi chi.
Proof. intros H1 H2 b Hb. rewrite H1, H2 by exact Hb. reflexivity. Qed.

Lemma apply1_eqn (n : nat) (G : M2) (a : nat) (psi phi : state) :
  eqn n psi phi -> eqn n (apply1 G a psi) (apply1 G a phi).
Proof.
  intros H b Hb. unfold apply1.
  rewrite !H by (rewrite length_upd; exact Hb). reflexivity.
Qed.

Lemma ctrl1_eqn (n : nat) (G : M2) (c t : nat) (psi phi : state) :
  eqn n psi phi -> eqn n (ctrl1 G c t psi) (ctrl1 G c t phi).
Proof.
  intros H b Hb. unfold ctrl1. destruct (bit b c).
  - apply (apply1_eqn n G t psi phi H b Hb).
  - apply H, Hb.
Qed.

Lemma iter_eqn (n : nat) (f : state -> state) (z : nat) (psi phi : state) :
  (forall p q, eqn n p q -> eqn n (f p) (f q)) ->
  eqn n psi phi -> eqn n (Nat.iter z f psi) (Nat.iter z f phi).
Proof.
  intros Hf H. induction z as [|z IH]; simpl; [exact H|]. apply Hf, IH.
Qed.

Lemma ctrl_pow_eqn (n : nat) order U t c z (psi phi : state) :
  eqn n psi phi -> eqn n (ctrl_pow order U t c z psi) (ctrl_pow order U t c z phi).
Proof.
  intros H. unfold ctrl_pow. apply iter_eqn; [|exact H].
  intros p q Hpq. apply ctrl1_eqn, Hpq.
Qed.

Lemma apply_matrix_eqn (n : nat) M axes (psi phi : state) :
  eqn n psi phi -> eqn n (apply_matrix M axes psi) (apply_matrix M axes phi).
Proof.
  intros H b Hb. unfold apply_matrix. apply Csum_ext. intros k _.
  rewrite H by (rewrite length_write; exact Hb). reflexivity.
Qed.

Lemma fold_eqn {A} (n : nat) (f : state -> A -> state) (l : list A) (psi phi : state) :
  (forall a p q, eqn n p q -> eqn n (f p a) (f q a)) ->
  eqn n psi phi -> eqn n (fold_left f l psi) (fold_left f l phi).
Proof.
  intros Hf. revert psi phi. induction l as [|a l IH]; intros psi phi H; simpl.
  - exact H.
  - apply IH, Hf, H.
Qed.

Lemma apply_op_eqn (n : nat) order o (psi phi : state) :
  eqn n psi phi -> eqn n (apply_op order o psi) (apply_op order o phi).
Proof.
  intros H. destruct o; simpl.
  - apply apply1_eqn, H.
  - apply apply1_eqn, H.
  - apply apply1_eqn, H.
  - apply ctrl_pow_eqn, H.
  - apply fold_eqn; [|exact H]. intros a p q Hpq. apply ctrl_pow_eqn, Hpq.
  - apply apply_matrix_eqn, H.
Qed.

Lemma run_eqn (n : nat) order tape (psi phi : state) :
  eqn n psi phi -> eqn n (run order tape psi) (run order tape phi).
Proof.
  intros H. unfold run. apply fold_eqn; [|exact H].
  intros a p q Hpq. apply apply_op_eqn, Hpq.
Qed.

(** *** Product states *)

Lemma zero_state_pstate (n : nat) :
  eqn n zero_state (pstate (repeat (C1, C0) n)).
Proof.
  induction n as [|n IH]; intros [|h t] Hb; simpl in Hb; try lia.
  - reflexivity.
  - specialize (IH t ltac:(lia)). unfold zero_state in *.
    cbn [repeat pstate forallb]. rewrite <- IH.
    destruct h; cbn [negb andb vent fst snd]; destruct (forallb negb t); ring.
Qed.

Lemma apply1_pstate (G : M2) (l1 l2 : list V2) (v : V2) :
  eqn (length (l1 ++ v :: l2))
      (apply1 G (length l1) (pstate (l1 ++ v :: l2)))
      (pstate (l1 ++ Mvec G v :: l2)).
Proof.
  induction l1 as [|u l1 IH]; intros [|h t] Hb; simpl in Hb; try lia.
  - unfold apply1. cbn [length app bit nth upd pstate].
    destruct G as [g00 g01 g10 g11], v as [v0 v1].
    destruct h; cbn [ent vent Mvec fst snd m00 m01 m10 m11]; ring.
  - specialize (IH t ltac:(lia)). unfold apply1 in *.
    cbn [length app bit nth upd pstate]. fold (bit t (length l1)).
    rewrite <- IH. ring.
Qed.

End Tensors.

(** ** The controlled power ladder *)

Section Ladder.
Import Simulator.

Lemma Mmul_assoc (A B D : M2) : Mmul (Mmul A B) D = Mmul A (Mmul B D).
Proof.
  destruct A as [a0 a1 a2 a3], B as [b0 b1 b2 b3], D as [d0 d1 d2 d3].
  unfold Mmul. cbn [m00 m01 m10 m11]. apply (f_equal4 mkM2); ring.
Qed.

Lemma Mmul_eye_l (A : M2) : Mmul eye2 A = A.
Proof.
  destruct A as [a0 a1 a2 a3]. unfold Mmul, eye2. cbn [m00 m01 m10 m11].
  apply (f_equal4 mkM2); ring.
Qed.

Lemma Mmul_eye_r (A : M2) : Mmul A eye2 = A.
Proof.
  destruct A as [a0 a1 a2 a3]. unfold Mmul, eye2. cbn [m00 m01 m10 m11].
  apply (f_equal4 mkM2); ring.
Qed.

Lemma Mpow_add (U : M2) (a b : nat) : Mmul (Mpow U a) (Mpow U b) = Mpow U (a + b).
Proof.
  induction a as [|a IH]; simpl.
  - apply Mmul_eye_l.
  - rewrite Mmul_assoc, IH. reflexivity.
Qed.

Lemma Mpow_succ_r (U : M2) (a : nat) : Mpow U (S a) = Mmul (Mpow U a) U.
Proof.
  replace (S a) with (a + 1)%nat by lia. rewrite <- Mpow_add.
  simpl. now rewrite Mmul_eye_r.
Qed.

Lemma apply1_eye (psi : state) (b : basis) :
  b <> [] -> apply1 eye2 0 psi b = psi b.
Proof.
  destruct b as [|h t]; [congruence|]. intros _. unfold apply1.
  cbn [bit nth upd]. destruct h; cbn [ent eye2 m00 m01 m10 m11]; ring.
Qed.

Lemma apply1_apply1 (A B : M2) (psi : state) (b : basis) :
  b <> [] -> apply1 A 0 (apply1 B 0 psi) b = apply1 (Mmul A B) 0 psi b.
Proof.
  destruct b as [|h t]; [congruence|]. intros _. unfold apply1.
  cbn [bit nth upd]. destruct A as [a0 a1 a2 a3], B as [b0 b1 b2 b3].
  destruct h; cbn [ent Mmul m00 m01 m10 m11]; ring.
Qed.

Lemma apply1_ctrl1 (A B : M2) (c : nat) (psi : state) (b : basis) :
  c <> 0%nat ->
  apply1 A 0 (ctrl1 B c 0 psi) b =
  if bit b c then apply1 A 0 (apply1 B 0 psi) b else apply1 A 0 psi b.
Proof.
  intros Hc. unfold apply1 at 1. unfold ctrl1.
  rewrite !bit_upd_other by lia. destruct (bit b c); reflexivity.
Qed.

(** [z] applications of controlled-[U] are one application of
    controlled-[U^z]. *)
Lemma ctrl1_iter (n : nat) (U : M2) (c z : nat) (psi : state) :
  c <> 0%nat ->
  eqn (S n) (Nat.iter z (ctrl1 U c 0) psi) (ctrl1 (Mpow U z) c 0 psi).
Proof.
  intros Hc. induction z as [|z IH].
  - intros b Hb. simpl. unfold ctrl1. destruct (bit b c); [|reflexivity].
    rewrite apply1_eye; [reflexivity|]. destruct b; simpl in Hb; congruence.
  - intros b Hb. rewrite Nat.iter_succ.
    rewrite (ctrl1_eqn (S n) U c 0 _ _ IH b Hb).
    assert (Hne : b <> []) by (destruct b; simpl in Hb; congruence).
    change ((if bit b c then apply1 U 0 (ctrl1 (Mpow U z) c 0 psi) b
             else ctrl1 (Mpow U z) c 0 psi b) =
            (if bit b c then apply1 (Mpow U (S z)) 0 psi b else psi b)).
    rewrite apply1_ctrl1 by exact Hc. unfold ctrl1.
    destruct (bit b c); [|reflexivity].
    rewrite apply1_apply1 by exact Hne. reflexivity.
Qed.

(** A ladder of controlled powers applies, on each basis state of the
    control axes, the power [expo] adds up. *)
Lemma ladder_fold (n : nat) (U : M2) (l : list (nat * nat)) (psi : state) :
  Forall (fun zc => snd zc <> 0%nat) l ->
  eqn (S n)
      (fold_left (fun st zc => Nat.iter (fst zc) (ctrl1 U (snd zc) 0) st) l psi)
      (fun b => apply1 (Mpow U (expo l b)) 0 psi b).
Proof.
  revert psi. induction l as [|[z c] l IH]; intros psi Hl.
  - intros b Hb. simpl. rewrite apply1_eye; [reflexivity|].
    destruct b; simpl in Hb; congruence.
  - inversion Hl as [|? ? Hc Hl']; subst. cbn [snd] in Hc.
    cbn [fold_left fst snd]. intros b Hb.
    assert (Hne : b <> []) by (destruct b; simpl in Hb; congruence).
    rewrite (IH _ Hl' b Hb). cbn beta.
    rewrite (apply1_eqn (S n) _ 0 _ _ (ctrl1_iter n U c z psi Hc) b Hb).
    rewrite apply1_ctrl1 by exact Hc. cbn [expo fst snd].
    destruct (bit b c).
    + rewrite apply1_apply1 by exact Hne. rewrite Mpow_add.
      rewrite (Nat.add_comm z). reflexivity.
    + reflexivity.
Qed.

Lemma expo_shift (zs : list nat) (l : list nat) (s : bool) (b : basis) :
  expo (combine zs (map S l)) (s :: b) = expo (combine zs l) b.
Proof.
  revert l. induction zs as [|z zs IH]; intros [|a l]; simpl; try reflexivity.
  rewrite IH. reflexivity.
Qed.

Lemma expo_val (x : basis) :
  expo (combine (rev (map (Nat.pow 2) (seq 0 (length x)))) (seq 0 (length x))) x
  = val x.
Proof.
  induction x as [|h t IH]; [reflexivity|].
  cbn [length]. rewrite seq_S at 1. rewrite map_app, rev_app_distr.
  cbn [map rev app seq Nat.add]. rewrite <- seq_shift.
  cbn [combine expo fst snd bit nth val]. rewrite expo_shift, IH. reflexivity.
Qed.

(** On the axes [1..m], in wire order, the ladder's exponent is the
    integer the control bits spell, first wire most significant. *)
Lemma expo_ladder (s : bool) (x : basis) :
  expo (combine (rev (map (Nat.pow 2) (seq 0 (length x)))) (seq 1 (length x)))
       (s :: x) = val x.
Proof. rewrite <- seq_shift, expo_shift. apply expo_val. Qed.

End Ladder.

(** ** Wires and device axes *)

Section DeviceAxes.
Import Simulator.

Lemma existsb_eqb_In (w : wire) (l : list wire) :
  existsb (Nat.eqb w) l = true <-> In w l.
Proof.
  rewrite existsb_exists. split.
  - intros [x [Hx E]]. apply Nat.eqb_eq in E. now subst.
  - intros H. exists w. split; [exact H | apply Nat.eqb_refl].
Qed.

Lemma wires_seen (acc l : list nat) :
  (forall w, In w l -> In w acc) ->
  fold_left (fun a w => if existsb (Nat.eqb w) a then a else a ++ [w]) l acc = acc.
Proof.
  induction l as [|x l IH]; intros H; simpl; [reflexivity|].
  assert (E : existsb (Nat.eqb x) acc = true)
    by (apply existsb_eqb_In, H; now left).
  rewrite E. apply IH. intros w Hw. apply H. now right.
Qed.

Lemma wires_fresh (acc l : list nat) :
  NoDup (acc ++ l) ->
  fold_left (fun a w => if existsb (Nat.eqb w) a then a else a ++ [w]) l acc
  = acc ++ l.
Proof.
  revert acc. induction l as [|x l IH]; intros acc H; simpl.
  - now rewrite app_nil_r.
  - assert (E : existsb (Nat.eqb x) acc = false).
    { destruct (existsb (Nat.eqb x) acc) eqn:Ex; [|reflexivity].
      apply existsb_eqb_In in Ex. apply NoDup_remove_2 in H.
      exfalso. apply H. apply in_or_app. now left. }
    rewrite E. rewrite IH.
    + rewrite <- app_assoc. reflexivity.
    + rewrite <- app_assoc. exact H.
Qed.

Lemma flat_map_Hadamard (ws : list wire) :
  flat_map op_wires (map Hadamard ws) = ws.
Proof. induction ws as [|w ws IH]; simpl; [reflexivity | now rewrite IH]. Qed.

(** The tape of [circuit] lays the device out as wire 0 followed by the
    estimation wires, in the order they are listed. *)
Lemma circuit_wire_order (U : M2) (ws : list wire) (t1 t2 : R) :
  NoDup (0%nat :: ws) ->
  wires_in_order
    (flat_map op_wires
       ([RY t1 0%nat; RZ t2 0%nat] ++ map Hadamard ws ++
        [ControlledSequence U 0%nat ws; AdjointQFT ws]) ++ ws)
  = 0%nat :: ws.
Proof.
  intros Hnd. unfold wires_in_order.
  rewrite !flat_map_app, flat_map_Hadamard. cbn [flat_map op_wires].
  rewrite !fold_left_app. cbn [fold_left existsb app Nat.eqb orb].
  rewrite (wires_fresh [0%nat] ws) by exact Hnd. cbn [app].
  rewrite !(wires_seen (0%nat :: ws) ws) by (intros w Hw; now right).
  cbn [existsb Nat.eqb orb].
  rewrite !(wires_seen (0%nat :: ws) ws) by (intros w Hw; now right).
  reflexivity.
Qed.

Lemma index_of_all (l : list wire) :
  NoDup l -> map (fun w => index_of w l) l = seq 0 (length l).
Proof.
  induction l as [|x t IH]; intros H; [reflexivity|].
  inversion H as [|? ? Hx Ht]; subst.
  cbn [map index_of length seq]. rewrite Nat.eqb_refl. f_equal.
  rewrite <- seq_shift, <- (IH Ht), map_map.
  apply map_ext_in. intros w Hw.
  destruct (Nat.eqb_spec x w) as [E | E]; [subst; contradiction | reflexivity].
Qed.

Lemma index_of_tail (x : wire) (t : list wire) :
  NoDup (x :: t) -> map (fun w => index_of w (x :: t)) t = seq 1 (length t).
Proof.
  intros H. pose proof (index_of_all (x :: t) H) as E.
  cbn [map length seq] in E. injection E as _ E. exact E.
Qed.

End DeviceAxes.

(** ** What [qpe_circuit] and [circuit] record *)

Section Recording.
Import Simulator QPE.

Lemma for_each_Hadamard (ws : list wire) (s : world) :
  for_each ws (fun w => enqueue (Hadamard w)) s =
  Ok (tt, mkWorld (gen s) (queue s ++ map Hadamard ws)).
Proof.
  revert s. induction ws as [|w ws IH]; intros s.
  - cbn [for_each map]. rewrite app_nil_r. destruct s; reflexivity.
  - cbn [for_each map]. unfold bind, enqueue at 1. rewrite IH.
    cbn [gen queue]. rewrite <- app_assoc. reflexivity.
Qed.

Lemma distinct_NoDup (ws : list wire) : distinct ws = true <-> NoDup ws.
Proof.
  induction ws as [|w ws IH]; cbn [distinct].
  - split; [constructor | reflexivity].
  - rewrite andb_true_iff, negb_true_iff, IH. split.
    + intros [Hw Hd]. constructor; [|exact Hd].
      intros Hin. apply existsb_eqb_In in Hin. congruence.
    + intros Hnd. inversion Hnd as [|x l Hn Hd]; subst. split; [|exact Hd].
      destruct (existsb (Nat.eqb w) ws) eqn:E; [|reflexivity].
      apply existsb_eqb_In in E. contradiction.
Qed.

(** The wires [qml.ControlledSequence] accepts: distinct control wires,
    none of them the target. *)
Lemma valid_wires (t : wire) (ws : list wire) :
  NoDup (t :: ws) <-> distinct ws = true /\ existsb (Nat.eqb t) ws = false.
Proof.
  rewrite distinct_NoDup. split.
  - intros Hnd. inversion Hnd as [|x l Hn Hd]; subst. split; [exact Hd|].
    destruct (existsb (Nat.eqb t) ws) eqn:E; [|reflexivity].
    apply existsb_eqb_In in E. contradiction.
  - intros [Hd Ht]. constructor; [|exact Hd].
    intros Hin. apply existsb_eqb_In in Hin. congruence.
Qed.

Lemma qml_ControlledSequence_run (U : M2) (ws : list wire) (s : world) :
  NoDup (0%nat :: ws) ->
  qml_ControlledSequence U 0%nat ws s =
  Ok (tt, mkWorld (gen s) (queue s ++ [ControlledSequence U 0%nat ws])).
Proof.
  intros Hnd. apply valid_wires in Hnd. destruct Hnd as [Hd Ht].
  unfold qml_ControlledSequence. rewrite Hd, Ht. reflexivity.
Qed.

Lemma qml_ControlledSequence_refuses (U : M2) (ws : list wire) (s : world) :
  ~ NoDup (0%nat :: ws) ->
  qml_ControlledSequence U 0%nat ws s = Raise WireError \/
  qml_ControlledSequence U 0%nat ws s = Raise ValueError.
Proof.
  intros Hn. unfold qml_ControlledSequence.
  destruct (distinct ws) eqn:Hd; [|left; reflexivity].
  destruct (existsb (Nat.eqb 0%nat) ws) eqn:Ht; [right; reflexivity|].
  exfalso. apply Hn. apply valid_wires. split; assumption.
Qed.

Lemma qpe_circuit_run (U : M2) (ws : list wire) (s : world) :
  NoDup (0%nat :: ws) ->
  qpe_circuit U ws s =
  Ok (tt, mkWorld (gen s)
            (queue s ++ map Hadamard ws ++
             [ControlledSequence U 0%nat ws] ++ [AdjointQFT ws])).
Proof.
  intros Hnd. unfold qpe_circuit, bind. rewrite for_each_Hadamard.
  rewrite (qml_ControlledSequence_run U ws _ Hnd).
  unfold enqueue. cbn [gen queue]. rewrite <- !app_assoc. reflexivity.
Qed.

Lemma qml_probs_run (ws : list wire) (s : world) :
  (1 <= length ws)%nat -> qml_probs ws s = Ok (ws, s).
Proof. intros Hm. destruct ws; [simpl in Hm; lia | reflexivity]. Qed.

Lemma circuit_body_run (U : M2) (ws : list wire) (s : world) :
  NoDup (0%nat :: ws) -> (1 <= length ws)%nat ->
  circuit_body U ws s =
  Ok (ws, mkWorld (advance 2 (gen s))
            (queue s ++
             [RY (2 * PI * gen s 0%nat) 0%nat; RZ (2 * PI * gen s 1%nat) 0%nat] ++
             map Hadamard ws ++
             [ControlledSequence U 0%nat ws; AdjointQFT ws])).
Proof.
  intros Hnd Hm.
  unfold circuit_body, bind at 1. unfold create_random_state.
  unfold bind at 1, np_random_rand0 at 1. unfold bind at 1, enqueue at 1.
  unfold bind at 1, np_random_rand0 at 1. unfold enqueue at 1.
  cbn [gen queue]. unfold bind at 1. rewrite (qpe_circuit_run U ws _ Hnd).
  rewrite (qml_probs_run ws _ Hm).
  cbn [gen queue]. rewrite <- !app_assoc. reflexivity.
Qed.

Lemma circuit_run (U : M2) (ws : list wire) (s : world) :
  NoDup (0%nat :: ws) -> (1 <= length ws)%nat ->
  circuit U ws s =
  Ok (execute ([RY (2 * PI * gen s 0%nat) 0%nat; RZ (2 * PI * gen s 1%nat) 0%nat] ++
               map Hadamard ws ++
               [ControlledSequence U 0%nat ws; AdjointQFT ws]) ws,
      mkWorld (advance 2 (gen s)) (queue s)).
Proof.
  intros Hnd Hm. unfold circuit, qnode.
  rewrite (circuit_body_run U ws _ Hnd Hm). reflexivity.
Qed.

End Recording.

(** ** Sums over basis states *)

Section BasisSums.
Import Simulator.

Lemma bsum_ext (n : nat) (f g : basis -> R) :
  (forall b, length b = n -> f b = g b) -> bsum n f = bsum n g.
Proof.
  revert f g. induction n as [|n IH]; intros f g H; simpl.
  - apply H. reflexivity.
  - rewrite (IH (fun x => f (false :: x)) (fun x => g (false :: x))),
            (IH (fun x => f (true :: x)) (fun x => g (true :: x))).
    + reflexivity.
    + intros b Hb. apply H. simpl. lia.
    + intros b Hb. apply H. simpl. lia.
Qed.

Lemma bsum_add (n : nat) (f g : basis -> R) :
  bsum n (fun b => f b + g b) = bsum n f + bsum n g.
Proof.
  revert f g. induction n as [|n IH]; intros f g; simpl; [reflexivity|].
  rewrite !IH. ring.
Qed.

Lemma bsum_nonneg (n : nat) (f : basis -> R) :
  (forall b, 0 <= f b) -> 0 <= bsum n f.
Proof.
  revert f. induction n as [|n IH]; intros f H; simpl; [apply H|].
  pose proof (IH (fun x => f (false :: x)) ltac:(intros; apply H)).
  pose proof (IH (fun x => f (true :: x)) ltac:(intros; apply H)). lra.
Qed.

(** A sum over the basis states of [m] axes is a sum over the integers
    below [2^m] they spell. *)
Lemma bsum_reindex (m : nat) (f : basis -> R) :
  bsum m f = Rsum (2 ^ m) (fun k => f (bits m k)).
Proof.
  revert f. induction m as [|m IH]; intros f.
  - simpl. ring.
  - cbn [bsum]. rewrite !IH.
    replace (2 ^ S m)%nat with (2 ^ m + 2 ^ m)%nat by (simpl; lia).
    rewrite Rsum_split. f_equal.
    + apply Rsum_ext. intros k Hk. cbn [bits].
      rewrite testbit_small by exact Hk. reflexivity.
    + apply Rsum_ext. intros k Hk. cbn [bits].
      rewrite testbit_pow2_add_high by exact Hk.
      rewrite bits_pow2_add by lia. reflexivity.
Qed.

End BasisSums.

(** ** Running the recorded tape, stage by stage *)

Section Stages.
Import Simulator QPE.

Lemma run_app (order : list wire) (t1 t2 : list op) (psi : state) :
  run order (t1 ++ t2) psi = run order t2 (run order t1 psi).
Proof. unfold run. apply fold_left_app. Qed.

Lemma run_Hadamards (order : list wire) (ws : list wire) (psi : state) :
  run order (map Hadamard ws) psi =
  fold_left (fun st a => apply1 H_matrix a st)
            (map (fun w => index_of w order) ws) psi.
Proof.
  unfold run. revert psi. induction ws as [|w ws IH]; intros psi; simpl.
  - reflexivity.
  - apply IH.
Qed.

(** One matrix applied to a run of consecutive axes of a product state. *)
Lemma fold_apply1_pstate (G : M2) (v : V2) (k : nat) (l1 l2 : list V2) :
  eqn (length (l1 ++ repeat v k ++ l2))
      (fold_left (fun st a => apply1 G a st) (seq (length l1) k)
                 (pstate (l1 ++ repeat v k ++ l2)))
      (pstate (l1 ++ repeat (Mvec G v) k ++ l2)).
Proof.
  revert l1. induction k as [|k IH]; intros l1.
  - apply eqn_refl.
  - cbn [seq fold_left repeat app].
    assert (Hlen : length (l1 ++ v :: repeat v k ++ l2) =
                   length ((l1 ++ [Mvec G v]) ++ repeat v k ++ l2)).
    { rewrite !length_app. simpl. rewrite !length_app. simpl. lia. }
    eapply eqn_trans.
    + apply fold_eqn.
      * intros a p q Hpq. apply apply1_eqn, Hpq.
      * apply (apply1_pstate G l1 (repeat v k ++ l2) v).
    + replace (l1 ++ Mvec G v :: repeat v k ++ l2)
        with ((l1 ++ [Mvec G v]) ++ repeat v k ++ l2)
        by (rewrite <- app_assoc; reflexivity).
      replace (l1 ++ Mvec G v :: repeat (Mvec G v) k ++ l2)
        with ((l1 ++ [Mvec G v]) ++ repeat (Mvec G v) k ++ l2)
        by (rewrite <- app_assoc; reflexivity).
      replace (S (length l1)) with (length (l1 ++ [Mvec G v]))
        by (rewrite length_app; simpl; lia).
      rewrite Hlen. apply IH.
Qed.

Lemma pstate_uniform (c : C) (x : basis) :
  pstate (repeat (c, c) (length x)) x = Cpow c (length x).
Proof.
  induction x as [|h t IH]; [reflexivity|].
  cbn [length repeat pstate Cpow]. rewrite IH. destruct h; reflexivity.
Qed.

Lemma ladder_axes (order : list wire) (U : M2) (zs : list nat) (ws : list wire)
    (psi : state) :
  index_of 0%nat order = 0%nat ->
  fold_left (fun st zc => ctrl_pow order U 0%nat (snd zc) (fst zc) st)
            (combine zs ws) psi =
  fold_left (fun st zc => Nat.iter (fst zc) (ctrl1 U (snd zc) 0) st)
            (combine zs (map (fun w => index_of w order) ws)) psi.
Proof.
  intros H0. revert ws psi.
  induction zs as [|z zs IH]; intros [|w ws] psi; simpl; try reflexivity.
  rewrite <- IH. unfold ctrl_pow at 2. rewrite H0. reflexivity.
Qed.

Lemma seq_nonzero (zs : list nat) (m : nat) :
  Forall (fun zc : nat * nat => snd zc <> 0%nat) (combine zs (seq 1 m)).
Proof.
  apply Forall_forall. intros [z c] Hin. apply in_combine_r in Hin.
  apply in_seq in Hin. simpl. lia.
Qed.

(** The [ControlledSequence] of the circuit applies, on the basis state
    [x] of the estimation wires, the power [val x] of the unitary to
    wire 0. *)
Lemma controlled_sequence_sem (U : M2) (ws : list wire) (psi : state) :
  NoDup (0%nat :: ws) ->
  eqn (S (length ws))
      (apply_op (0%nat :: ws) (ControlledSequence U 0%nat ws) psi)
      (fun b => apply1 (Mpow U (val (tl b))) 0 psi b).
Proof.
  intros Hnd. cbn [apply_op]. unfold ladder.
  rewrite ladder_axes by reflexivity.
  rewrite (index_of_tail 0%nat ws Hnd).
  eapply eqn_trans; [apply ladder_fold, seq_nonzero|].
  intros [|s x] Hb; simpl in Hb; [lia|].
  injection Hb as Hb. cbn [tl]. rewrite <- Hb, expo_ladder. reflexivity.
Qed.

(** The adjoint QFT of the circuit, on the amplitudes. *)
Lemma adjoint_qft_sem (ws : list wire) (psi : state) (s : bool) (x : basis) :
  NoDup (0%nat :: ws) -> length x = length ws ->
  apply_op (0%nat :: ws) (AdjointQFT ws) psi (s :: x) =
  Csum (2 ^ length ws)
       (fun k => (adjoint_matrix (QFT_matrix (length ws)) (val x) k *
                  psi (s :: bits (length ws) k))%C).
Proof.
  intros Hnd Hx. cbn [apply_op]. unfold apply_matrix.
  rewrite (index_of_tail 0%nat ws Hnd), length_seq, <- Hx.
  rewrite read_tail. apply Csum_ext. intros k _.
  rewrite write_tail by apply length_bits. reflexivity.
Qed.

Lemma apply1_pstate_head (G : M2) (v : V2) (l2 : list V2) (n : nat) :
  length l2 = n ->
  eqn (S n) (apply1 G 0 (pstate (v :: l2))) (pstate (Mvec G v :: l2)).
Proof. intros <-. apply (apply1_pstate G [] l2 v). Qed.

Lemma prepared_stage (m : nat) (order : list wire) (t1 t2 : R) :
  index_of 0%nat order = 0%nat ->
  eqn (S m) (run order [RY t1 0%nat; RZ t2 0%nat] zero_state)
      (pstate (Mvec (RZ_matrix t2) (Mvec (RY_matrix t1) (C1, C0))
               :: repeat (C1, C0) m)).
Proof.
  intros H0. unfold run. cbn [fold_left apply_op]. rewrite H0.
  eapply eqn_trans.
  - apply apply1_eqn. eapply eqn_trans.
    + apply apply1_eqn. apply (zero_state_pstate (S m)).
    + apply apply1_pstate_head, repeat_length.
  - apply apply1_pstate_head, repeat_length.
Qed.

Lemma Hadamard_stage (ws : list wire) (v : V2) :
  NoDup (0%nat :: ws) ->
  eqn (S (length ws))
      (run (0%nat :: ws) (map Hadamard ws) (pstate (v :: repeat (C1, C0) (length ws))))
      (pstate (v :: repeat (Mvec H_matrix (C1, C0)) (length ws))).
Proof.
  intros Hnd. rewrite run_Hadamards, (index_of_tail 0%nat ws Hnd).
  pose proof (fold_apply1_pstate H_matrix (C1, C0) (length ws) [v] []) as H.
  rewrite !app_nil_r in H. cbn [app length] in H.
  rewrite repeat_length in H. exact H.
Qed.

End Stages.

(** ** Exact phases *)

Section ExactPhase.
Import Simulator QPE RandomUnitary.

Lemma Mvec_Mmul (A B : M2) (v : V2) : Mvec (Mmul A B) v = Mvec A (Mvec B v).
Proof.
  destruct A as [a0 a1 a2 a3], B as [b0 b1 b2 b3], v as [v0 v1].
  unfold Mvec, Mmul. cbn [m00 m01 m10 m11 fst snd]. f_equal; ring.
Qed.

Lemma Mvec_eye (v : V2) : Mvec eye2 v = v.
Proof.
  destruct v as [v0 v1]. unfold Mvec, eye2. cbn [m00 m01 m10 m11 fst snd].
  f_equal; ring.
Qed.

Lemma Mvec_Vscale (A : M2) (c : C) (v : V2) :
  Mvec A (Vscale c v) = Vscale c (Mvec A v).
Proof.
  destruct A as [a0 a1 a2 a3], v as [v0 v1].
  unfold Mvec, Vscale. cbn [m00 m01 m10 m11 fst snd]. f_equal; ring.
Qed.

Lemma Vscale_Vscale (c d : C) (v : V2) : Vscale c (Vscale d v) = Vscale (c * d) v.
Proof. destruct v as [v0 v1]. unfold Vscale. cbn [fst snd]. f_equal; ring. Qed.

Lemma Vscale_one (v : V2) : Vscale C1 v = v.
Proof. destruct v as [v0 v1]. unfold Vscale. cbn [fst snd]. f_equal; ring. Qed.

(** An eigen-column of [U] is an eigen-column of its powers. *)
Lemma Mvec_Mpow_eigen (U : M2) (lam : C) (v : V2) (k : nat) :
  Mvec U v = Vscale lam v -> Mvec (Mpow U k) v = Vscale (Cpow lam k) v.
Proof.
  intros H. induction k as [|k IH]; cbn [Mpow Cpow].
  - rewrite Mvec_eye, Vscale_one. reflexivity.
  - rewrite Mvec_Mmul, IH, Mvec_Vscale, H, Vscale_Vscale.
    f_equal. ring.
Qed.

Lemma apply1_head (G : M2) (psi : state) (s : bool) (y : basis) :
  apply1 G 0 psi (s :: y) = vent (Mvec G (psi (false :: y), psi (true :: y))) s.
Proof.
  unfold apply1. cbn [bit nth upd]. destruct G as [g0 g1 g2 g3].
  destruct s; cbn [ent vent Mvec fst snd m00 m01 m10 m11]; reflexivity.
Qed.

Lemma plus_state :
  Mvec H_matrix (C1, C0) = (RtoC (/ sqrt 2), RtoC (/ sqrt 2)).
Proof. unfold Mvec, H_matrix. cbn [m00 m01 m10 m11 fst snd]. f_equal; ring. Qed.

Lemma Cpow_RtoC (r : R) (k : nat) : Cpow (RtoC r) k = RtoC (r ^ k).
Proof.
  induction k as [|k IH]; cbn [Cpow pow]; [reflexivity|]. rewrite IH. cring.
Qed.

Lemma sqrt_pow_2 (m : nat) : sqrt (2 ^ m) = sqrt 2 ^ m.
Proof.
  induction m as [|m IH]; cbn [pow].
  - apply sqrt_1.
  - rewrite sqrt_mult_alt by lra. now rewrite IH.
Qed.

Lemma sqrt_pow_2_sqr (m : nat) : sqrt (2 ^ m) * sqrt (2 ^ m) = 2 ^ m.
Proof. apply sqrt_sqrt. apply pow_le. lra. Qed.

Lemma pow2_R_pos (m : nat) : 0 < 2 ^ m.
Proof. apply pow_lt. lra. Qed.

Lemma sqrt_pow_2_pos (m : nat) : 0 < sqrt (2 ^ m).
Proof. apply sqrt_lt_R0, pow2_R_pos. Qed.

Lemma INR_pow2 (m : nat) : INR (2 ^ m) = 2 ^ m.
Proof. rewrite pow_INR. reflexivity. Qed.

(** The amplitudes of the register after the Hadamard layer and the
    ladder, when wire 0 holds the column [v]. *)
Lemma after_ladder (U : M2) (ws : list wire) (t1 t2 : R) (s : bool) (y : basis) :
  NoDup (0%nat :: ws) -> length y = length ws ->
  apply_op (0%nat :: ws) (ControlledSequence U 0%nat ws)
    (run (0%nat :: ws) (map Hadamard ws)
       (run (0%nat :: ws) [RY t1 0%nat; RZ t2 0%nat] zero_state)) (s :: y) =
  (vent (Mvec (Mpow U (val y))
           (Mvec (RZ_matrix t2) (Mvec (RY_matrix t1) (C1, C0)))) s *
   Cpow (RtoC (/ sqrt 2)) (length ws))%C.
Proof.
  intros Hnd Hy.
  set (v := Mvec (RZ_matrix t2) (Mvec (RY_matrix t1) (C1, C0))).
  assert (E2 : eqn (S (length ws))
                 (run (0%nat :: ws) (map Hadamard ws)
                    (run (0%nat :: ws) [RY t1 0%nat; RZ t2 0%nat] zero_state))
                 (pstate (v :: repeat (RtoC (/ sqrt 2), RtoC (/ sqrt 2)) (length ws)))).
  { eapply eqn_trans.
    - apply run_eqn. apply prepared_stage. reflexivity.
    - rewrite <- plus_state. apply Hadamard_stage, Hnd. }
  assert (Hlen : length (s :: y) = S (length ws)) by (simpl; lia).
  rewrite (apply_op_eqn _ _ _ _ _ E2 (s :: y) Hlen).
  rewrite (controlled_sequence_sem U ws _ Hnd (s :: y) Hlen).
  cbn [tl]. rewrite apply1_head. cbn [pstate].
  rewrite <- Hy, pstate_uniform.
  generalize (Mpow U (val y)). intros [a0 a1 a2 a3]. destruct v as [v0 v1].
  destruct s; cbn [vent Mvec fst snd m00 m01 m10 m11]; ring.
Qed.

Lemma phase_factor_Cexpi (p : R) : phase_factor p = Cexpi (2 * PI * p).
Proof. rewrite phase_factor_cis, Cexpi_cis. reflexivity. Qed.

Lemma Cpow_inv_sqrt2 (m : nat) :
  Cpow (RtoC (/ sqrt 2)) m = RtoC (/ sqrt (2 ^ m)).
Proof. rewrite Cpow_RtoC, pow_inv, sqrt_pow_2. reflexivity. Qed.

(** One term of the inverse transform applied to the phase ramp. *)
Lemma qft_term (m i j k : nat) (a : C) :
  (adjoint_matrix (QFT_matrix m) j k *
   (Cpow (phase_factor (INR i / 2 ^ m)) k * a * Cpow (RtoC (/ sqrt 2)) m))%C =
  (RtoC (/ 2 ^ m) * a *
   Cexpi (2 * PI * (INR i - INR j) / INR (2 ^ m) * INR k))%C.
Proof.
  pose proof (pow2_R_pos m) as Hp. pose proof (sqrt_pow_2_pos m) as Hs.
  unfold adjoint_matrix, QFT_matrix.
  rewrite Cconj_mul, Cconj_RtoC, Cexpi_conj.
  rewrite phase_factor_Cexpi, Cexpi_pow, Cpow_inv_sqrt2.
  replace (2 * PI * (INR i - INR j) / INR (2 ^ m) * INR k)
    with (- (2 * PI * INR (k * j) / 2 ^ m) + INR k * (2 * PI * (INR i / 2 ^ m)))
    by (rewrite mult_INR, INR_pow2; field; lra).
  rewrite Cexpi_add.
  replace (RtoC (/ 2 ^ m)) with (RtoC (/ sqrt (2 ^ m)) * RtoC (/ sqrt (2 ^ m)))%C.
  - ring.
  - rewrite <- (sqrt_pow_2_sqr m) at 3. calg. csplit; field; lra.
Qed.

(** The amplitudes after the whole circuit, when the prepared column is
    an eigen-column of [U] with eigenphase [i / 2^m]. *)
Lemma qpe_amplitude (U : M2) (ws : list wire) (t1 t2 : R) (i : nat)
    (s : bool) (x : basis) :
  NoDup (0%nat :: ws) -> (i < 2 ^ length ws)%nat -> length x = length ws ->
  Mvec U (Mvec (RZ_matrix t2) (Mvec (RY_matrix t1) (C1, C0))) =
    Vscale (phase_factor (INR i / 2 ^ length ws))
           (Mvec (RZ_matrix t2) (Mvec (RY_matrix t1) (C1, C0))) ->
  run (0%nat :: ws)
      ([RY t1 0%nat; RZ t2 0%nat] ++ map Hadamard ws ++
       [ControlledSequence U 0%nat ws; AdjointQFT ws]) zero_state (s :: x) =
  (vent (Mvec (RZ_matrix t2) (Mvec (RY_matrix t1) (C1, C0))) s *
   (if Nat.eqb i (val x) then C1 else C0))%C.
Proof.
  intros Hnd Hi Hx Heig.
  set (v := Mvec (RZ_matrix t2) (Mvec (RY_matrix t1) (C1, C0))) in *.
  rewrite !run_app. unfold run at 1. cbn [fold_left].
  rewrite adjoint_qft_sem by assumption.
  assert (Hj : (val x < 2 ^ length ws)%nat) by (rewrite <- Hx; apply val_lt).
  pose proof (pow2_R_pos (length ws)) as Hp.
  rewrite (Csum_ext _ _
    (fun k => (RtoC (/ 2 ^ length ws) * vent v s *
               Cexpi (2 * PI * (INR i - INR (val x)) / INR (2 ^ length ws) * INR k))%C)).
  - rewrite Csum_scale, Csum_roots by assumption.
    destruct (Nat.eqb i (val x)).
    + rewrite INR_pow2. calg. csplit; field; lra.
    + ring.
  - intros k Hk.
    rewrite after_ladder by (try assumption; apply length_bits).
    rewrite val_bits by exact Hk. fold v.
    rewrite (Mvec_Mpow_eigen _ _ _ k Heig).
    rewrite <- qft_term. destruct v as [v0 v1].
    destruct s; cbn [vent Vscale fst snd]; ring.
Qed.

End ExactPhase.

(** ** Unitary 2x2 matrices *)

Section Unitary2.
Import Simulator QPE RandomUnitary.

Lemma Vnorm2_as_dot (G : M2) (v : V2) :
  RtoC (Vnorm2 (Mvec G v)) = Vdot v (Mvec (Mmul (Mdag G) G) v).
Proof.
  destruct G as [[a0 a1] [b0 b1] [c0 c1] [d0 d1]], v as [[x0 x1] [y0 y1]].
  calg. csplit; ring.
Qed.

Lemma Vdot_self (v : V2) : Vdot v v = RtoC (Vnorm2 v).
Proof. destruct v as [[x0 x1] [y0 y1]]. calg. csplit; ring. Qed.

(** A unitary matrix preserves the norm of a column. *)
Lemma unitary2_norm (G : M2) (v : V2) :
  unitary2 G -> Vnorm2 (Mvec G v) = Vnorm2 v.
Proof.
  intros HG. pose proof (Vnorm2_as_dot G v) as E.
  rewrite HG, Mvec_eye, Vdot_self in E. injection E as E. exact E.
Qed.

Lemma Mdag_Mmul (A B : M2) : Mdag (Mmul A B) = Mmul (Mdag B) (Mdag A).
Proof.
  destruct A as [[a0 a1] [b0 b1] [c0 c1] [d0 d1]],
           B as [[e0 e1] [f0 f1] [g0 g1] [h0 h1]]. mring.
Qed.

Lemma unitary2_Mmul (A B : M2) : unitary2 A -> unitary2 B -> unitary2 (Mmul A B).
Proof.
  unfold unitary2. intros HA HB.
  rewrite Mdag_Mmul, Mmul_assoc, <- (Mmul_assoc (Mdag A)), HA, Mmul_eye_l.
  exact HB.
Qed.

Lemma unitary2_eye : unitary2 eye2.
Proof. unfold unitary2. mring. Qed.

Lemma unitary2_Mpow (U : M2) (k : nat) : unitary2 U -> unitary2 (Mpow U k).
Proof.
  intros HU. induction k as [|k IH]; cbn [Mpow].
  - apply unitary2_eye.
  - apply unitary2_Mmul; assumption.
Qed.

Lemma unitary2_RY (theta : R) : unitary2 (RY_matrix theta).
Proof.
  unfold unitary2, RY_matrix. pose proof (sin2_cos2 (theta / 2)) as H.
  unfold Rsqr in H. calg. msplit; nsatz.
Qed.

Lemma unitary2_diag (a d : C) :
  Cnorm2 a = 1 -> Cnorm2 d = 1 -> unitary2 (mkM2 a C0 C0 d).
Proof.
  destruct a as [a0 a1], d as [d0 d1]. unfold unitary2. calg.
  intros Ha Hd. msplit; nsatz.
Qed.

Lemma unitary2_RZ (phi : R) : unitary2 (RZ_matrix phi).
Proof. apply unitary2_diag; apply Cexpi_norm. Qed.

Lemma unitary2_H : unitary2 H_matrix.
Proof.
  unfold unitary2, H_matrix.
  assert (H : 2 * (/ sqrt 2 * / sqrt 2) = 1).
  { rewrite <- Rinv_mult, sqrt_sqrt by lra. field. }
  revert H. generalize (/ sqrt 2). intros h H.
  calg. msplit; nsatz.
Qed.

Lemma Vnorm2_ket0 : Vnorm2 (C1, C0) = 1.
Proof. calg. ring. Qed.

(** [create_random_state] prepares a unit column. *)
Lemma prepared_unit (g : rng) : Vnorm2 (prepared g) = 1.
Proof.
  unfold prepared.
  rewrite (unitary2_norm _ _ (unitary2_RZ _)), (unitary2_norm _ _ (unitary2_RY _)).
  apply Vnorm2_ket0.
Qed.

End Unitary2.

(** ** Measurement of the estimation wires *)

Section Measurement.
Import Simulator QPE RandomUnitary.

(** The marginal on the axes [1..m] of an [(1+m)]-axis state adds the two
    values of the first axis. *)
Lemma marginal_tail (m : nat) (psi : state) (j : nat) :
  (j < 2 ^ m)%nat ->
  marginal (S m) (seq 1 m) psi j =
  Cnorm2 (psi (false :: bits m j)) + Cnorm2 (psi (true :: bits m j)).
Proof.
  intros Hj. unfold marginal. cbn [bsum].
  assert (E : forall s : bool,
             bsum m (fun x => if Nat.eqb (val (read (seq 1 m) (s :: x))) j
                              then Cnorm2 (psi (s :: x)) else 0) =
             Cnorm2 (psi (s :: bits m j))).
  { intros s.
    rewrite (bsum_ext m _ (fun x => if Nat.eqb (val x) j
                                    then Cnorm2 (psi (s :: x)) else 0)).
    2:{ intros b Hb. rewrite <- Hb, read_tail. reflexivity. }
    rewrite bsum_reindex.
    rewrite (Rsum_ext _ _ (fun k => if Nat.eqb k j
                                    then Cnorm2 (psi (s :: bits m k)) else 0)).
    2:{ intros k Hk. rewrite val_bits by exact Hk. reflexivity. }
    apply Rsum_delta, Hj. }
  rewrite !E. reflexivity.
Qed.

Lemma nth_probs (n : nat) (axes : list nat) (psi : state) (j : nat) :
  (j < 2 ^ length axes)%nat ->
  nth j (probs n axes psi) 0 = marginal n axes psi j.
Proof.
  intros Hj. unfold probs.
  rewrite (nth_indep _ 0 (marginal n axes psi 0%nat))
    by (rewrite length_map, length_seq; exact Hj).
  rewrite map_nth, seq_nth by exact Hj. reflexivity.
Qed.

Lemma length_probs (n : nat) (axes : list nat) (psi : state) :
  length (probs n axes psi) = (2 ^ length axes)%nat.
Proof. unfold probs. rewrite length_map, length_seq. reflexivity. Qed.

(** What [circuit] returns, in terms of the final amplitudes. *)
Lemma circuit_probs (U : M2) (ws : list wire) (s : world) :
  NoDup (0%nat :: ws) -> (1 <= length ws)%nat ->
  exists p,
    circuit U ws s = Ok (p, mkWorld (advance 2 (gen s)) (queue s)) /\
    length p = (2 ^ length ws)%nat /\
    forall j, (j < 2 ^ length ws)%nat ->
      nth j p 0 =
      Cnorm2 (run (0%nat :: ws)
                ([RY (2 * PI * gen s 0%nat) 0%nat; RZ (2 * PI * gen s 1%nat) 0%nat] ++
                 map Hadamard ws ++ [ControlledSequence U 0%nat ws; AdjointQFT ws])
                zero_state (false :: bits (length ws) j)) +
      Cnorm2 (run (0%nat :: ws)
                ([RY (2 * PI * gen s 0%nat) 0%nat; RZ (2 * PI * gen s 1%nat) 0%nat] ++
                 map Hadamard ws ++ [ControlledSequence U 0%nat ws; AdjointQFT ws])
                zero_state (true :: bits (length ws) j)).
Proof.
  intros Hnd Hm. eexists. split; [apply circuit_run; assumption|].
  unfold execute. rewrite circuit_wire_order by exact Hnd.
  rewrite (index_of_tail 0%nat ws Hnd). cbn [length].
  split.
  - rewrite length_probs, length_seq. reflexivity.
  - intros j Hj. rewrite nth_probs by (rewrite length_seq; exact Hj).
    apply marginal_tail, Hj.
Qed.

(** C3: for [m >= 1] estimation wires and [i < 2^m], if the column
    [create_random_state] prepares is an eigen-column of the unitary with
    eigenphase [i / 2^m], then [circuit] returns the distribution with
    probability 1 on bitstring [i] and 0 on every other bitstring. *)
Theorem C3_qpe_exact_phase (U : M2) (ws : list wire) (i : nat) (s : world) :
  (1 <= length ws)%nat -> NoDup (0%nat :: ws) -> (i < 2 ^ length ws)%nat ->
  Mvec U (prepared (gen s)) =
    Vscale (phase_factor (INR i / 2 ^ length ws)) (prepared (gen s)) ->
  exists p s',
    circuit U ws s = Ok (p, s') /\
    length p = (2 ^ length ws)%nat /\
    forall j, (j < 2 ^ length ws)%nat ->
      nth j p 0 = if Nat.eqb j i then 1 else 0.
Proof.
  intros Hm Hnd Hi Heig.
  destruct (circuit_probs U ws s Hnd Hm) as [p [Hrun [Hlen Hp]]].
  exists p. eexists. split; [exact Hrun|]. split; [exact Hlen|].
  intros j Hj. rewrite (Hp j Hj).
  unfold prepared in Heig.
  rewrite !(qpe_amplitude U ws _ _ i _ _ Hnd Hi (length_bits _ _) Heig).
  rewrite val_bits by exact Hj. fold (prepared (gen s)).
  pose proof (prepared_unit (gen s)) as Hu. unfold Vnorm2 in Hu.
  rewrite (Nat.eqb_sym j i). destruct (Nat.eqb i j).
  - rewrite !Cnorm2_mul. cbn [vent]. replace (Cnorm2 C1) with 1 by (calg; ring). lra.
  - rewrite !Cnorm2_mul, Cnorm2_C0. ring.
Qed.

Lemma demo_prepared : prepared demo_gen = (C0, C1).
Proof.
  unfold prepared, demo_gen, RY_matrix, RZ_matrix.
  replace (2 * PI * (1 / 2) / 2) with (PI / 2) by field.
  replace (- (2 * PI * 0) / 2) with 0 by field.
  replace (2 * PI * 0 / 2) with 0 by field.
  rewrite cos_PI2, sin_PI2, Cexpi_0. calg. csplit; csplit; ring.
Qed.

Lemma C3_qpe_exact_phase_witness :
  exists p s',
    circuit (mkM2 C1 C0 C0 Ci) [1%nat; 2%nat] demo_world = Ok (p, s') /\
    length p = (2 ^ length [1%nat; 2%nat])%nat /\
    forall j, (j < 2 ^ length [1%nat; 2%nat])%nat ->
      nth j p 0 = if Nat.eqb j 1 then 1 else 0.
Proof.
  apply (C3_qpe_exact_phase (mkM2 C1 C0 C0 Ci) [1%nat; 2%nat] 1 demo_world).
  - simpl. lia.
  - repeat constructor; simpl; intuition lia.
  - simpl. lia.
  - cbn [gen demo_world]. rewrite demo_prepared, phase_factor_cis.
    cbn [length pow INR].
    replace (2 * PI * (1 / (2 * (2 * 1)))) with (PI / 2) by field.
    rewrite cos_PI2, sin_PI2. calg. csplit; csplit; ring.
Defined.

End Measurement.

(** ** Every gate of the circuit preserves the norm *)

Section NormPreservation.
Import Simulator QPE.

Lemma norm2_cons (n : nat) (psi : state) :
  norm2 (S n) psi =
  norm2 n (fun x => psi (false :: x)) + norm2 n (fun x => psi (true :: x)).
Proof. reflexivity. Qed.

Lemma norm2_pairs (n : nat) (psi : state) :
  norm2 (S n) psi =
  bsum n (fun x => Vnorm2 (psi (false :: x), psi (true :: x))).
Proof. rewrite norm2_cons. unfold norm2. rewrite <- bsum_add. reflexivity. Qed.

Lemma norm2_eqn (n : nat) (psi phi : state) :
  eqn n psi phi -> norm2 n psi = norm2 n phi.
Proof. intros H. apply bsum_ext. intros b Hb. now rewrite H. Qed.

Lemma apply1_norm (G : M2) (n a : nat) (psi : state) :
  unitary2 G -> (a < n)%nat -> norm2 n (apply1 G a psi) = norm2 n psi.
Proof.
  intros HG. revert a psi. induction n as [|n IH]; intros a psi Ha; [lia|].
  destruct a as [|a].
  - rewrite !norm2_pairs. apply bsum_ext. intros x _.
    rewrite !apply1_head. cbn [vent].
    rewrite <- surjective_pairing. apply unitary2_norm, HG.
  - rewrite !norm2_cons.
    change (fun x => apply1 G (S a) psi (false :: x))
      with (apply1 G a (fun x => psi (false :: x))).
    change (fun x => apply1 G (S a) psi (true :: x))
      with (apply1 G a (fun x => psi (true :: x))).
    rewrite !IH by lia. reflexivity.
Qed.

Lemma ctrl1_norm (G : M2) (n c t : nat) (psi : state) :
  unitary2 G -> c <> t -> (c < n)%nat -> (t < n)%nat ->
  norm2 n (ctrl1 G c t psi) = norm2 n psi.
Proof.
  intros HG. revert c t psi.
  induction n as [|n IH]; intros c t psi Hct Hc Ht; [lia|].
  destruct c as [|c], t as [|t]; try lia.
  - rewrite !norm2_cons. f_equal.
    change (fun x => ctrl1 G 0 (S t) psi (true :: x))
      with (apply1 G t (fun x => psi (true :: x))).
    apply apply1_norm; [exact HG | lia].
  - rewrite !norm2_pairs. apply bsum_ext. intros x _.
    unfold ctrl1. cbn [bit nth]. destruct (nth c x false); [|reflexivity].
    rewrite !apply1_head. cbn [vent].
    rewrite <- surjective_pairing. apply unitary2_norm, HG.
  - rewrite !norm2_cons.
    change (fun x => ctrl1 G (S c) (S t) psi (false :: x))
      with (ctrl1 G c t (fun x => psi (false :: x))).
    change (fun x => ctrl1 G (S c) (S t) psi (true :: x))
      with (ctrl1 G c t (fun x => psi (true :: x))).
    rewrite !IH by lia. reflexivity.
Qed.

Lemma iter_norm (n : nat) (f : state -> state) (z : nat) (psi : state) :
  (forall p, norm2 n (f p) = norm2 n p) ->
  norm2 n (Nat.iter z f psi) = norm2 n psi.
Proof.
  intros Hf. induction z as [|z IH]; [reflexivity|].
  rewrite Nat.iter_succ, Hf. exact IH.
Qed.

Lemma Csum_product (n m : nat) (f g : nat -> C) :
  (Csum n f * Csum m g)%C = Csum n (fun j => Csum m (fun k => (f j * g k)%C)).
Proof.
  rewrite <- Csum_scale_r. apply Csum_ext. intros j _.
  rewrite Csum_scale. reflexivity.
Qed.

Lemma RtoC_inj (x y : R) : RtoC x = RtoC y -> x = y.
Proof. intros H. injection H as H. exact H. Qed.

(** A square matrix with orthonormal columns preserves the sum of the
    squared moduli. *)
Lemma isometry_norm (N : nat) (A : nat -> nat -> C) (v : nat -> C) :
  (forall k k', (k < N)%nat -> (k' < N)%nat ->
     Csum N (fun j => (Cconj (A j k) * A j k')%C) =
     if Nat.eqb k' k then C1 else C0) ->
  Rsum N (fun j => Cnorm2 (Csum N (fun k => (A j k * v k)%C))) =
  Rsum N (fun k => Cnorm2 (v k)).
Proof.
  intros HA. apply RtoC_inj. rewrite <- !Csum_RtoC.
  rewrite (Csum_ext N _
    (fun j => Csum N (fun k => Csum N (fun k' =>
       (Cconj (v k) * v k' * (Cconj (A j k) * A j k'))%C)))).
  2:{ intros j _. rewrite <- Cconj_mul_self, Csum_conj, Csum_product.
      apply Csum_ext. intros k _. apply Csum_ext. intros k' _.
      rewrite Cconj_mul. ring. }
  rewrite Csum_swap. apply Csum_ext. intros k Hk.
  rewrite Csum_swap.
  rewrite (Csum_ext N _ (fun k' => if Nat.eqb k' k then (Cconj (v k) * v k')%C else C0)).
  - rewrite Csum_delta by exact Hk. apply Cconj_mul_self.
  - intros k' Hk'. rewrite Csum_scale, HA by assumption.
    destruct (Nat.eqb k' k); ring.
Qed.

End NormPreservation.

(** ** The inverse quantum Fourier transform *)

Section InverseQFT.
Import Simulator QPE.

Lemma adjoint_qft_entry (m j k : nat) :
  adjoint_matrix (QFT_matrix m) j k =
  (RtoC (/ sqrt (2 ^ m)) * Cexpi (- (2 * PI * INR (k * j) / 2 ^ m)))%C.
Proof.
  unfold adjoint_matrix, QFT_matrix.
  rewrite Cconj_mul, Cconj_RtoC, Cexpi_conj. reflexivity.
Qed.

Lemma inverse_dft_entry (m j k : nat) :
  inverse_dft m j k =
  (RtoC (/ sqrt (2 ^ m)) * Cexpi (- (2 * PI * INR (k * j) / 2 ^ m)))%C.
Proof.
  unfold inverse_dft.
  replace (- (RtoC (2 * PI) * Ci * RtoC (INR j * INR k / 2 ^ m)))%C
    with ((0, - (2 * PI * INR (k * j) / 2 ^ m)) : C).
  - fold (Cexpi (- (2 * PI * INR (k * j) / 2 ^ m))).
    replace (1 / sqrt (2 ^ m)) with (/ sqrt (2 ^ m)) by (unfold Rdiv; ring).
    reflexivity.
  - rewrite mult_INR. pose proof (pow2_R_pos m). calg. csplit; field; lra.
Qed.

(** The columns of the adjoint QFT are orthonormal. *)
Lemma adjoint_qft_columns (m k k' : nat) :
  (k < 2 ^ m)%nat -> (k' < 2 ^ m)%nat ->
  Csum (2 ^ m)
       (fun j => (Cconj (adjoint_matrix (QFT_matrix m) j k) *
                  adjoint_matrix (QFT_matrix m) j k')%C) =
  if Nat.eqb k' k then C1 else C0.
Proof.
  intros Hk Hk'. pose proof (pow2_R_pos m) as Hp.
  pose proof (sqrt_pow_2_pos m) as Hs.
  rewrite (Csum_ext _ _
    (fun j => (RtoC (/ 2 ^ m) *
               Cexpi (2 * PI * (INR k - INR k') / INR (2 ^ m) * INR j))%C)).
  - rewrite Csum_scale, Csum_roots by assumption.
    rewrite (Nat.eqb_sym k' k). destruct (Nat.eqb k k').
    + rewrite INR_pow2. calg. csplit; field; lra.
    + ring.
  - intros j _. rewrite !adjoint_qft_entry.
    rewrite Cconj_mul, Cconj_RtoC, Cexpi_conj.
    replace (2 * PI * (INR k - INR k') / INR (2 ^ m) * INR j)
      with (- - (2 * PI * INR (k * j) / 2 ^ m) + - (2 * PI * INR (k' * j) / 2 ^ m))
      by (rewrite !mult_INR, INR_pow2; field; lra).
    rewrite Cexpi_add.
    replace (RtoC (/ 2 ^ m)) with (RtoC (/ sqrt (2 ^ m)) * RtoC (/ sqrt (2 ^ m)))%C.
    + ring.
    + rewrite <- (sqrt_pow_2_sqr m) at 3. calg. csplit; field; lra.
Qed.

(** C7: the matrix the circuit's last stage applies on its [m]
    estimation wires, the conjugate transpose of the QFT matrix, has
    entry [(j,k)] equal to [(1/sqrt(2^m)) e^(-2 pi i j k / 2^m)]; so
    applying [qml.adjoint(qml.QFT)] is applying the explicit inverse DFT
    matrix, amplitude by amplitude; and that matrix is unitary. *)
Theorem C7_adjoint_qft_is_inverse_dft (ws : list wire) :
  (forall j k,
     adjoint_matrix (QFT_matrix (length ws)) j k = inverse_dft (length ws) j k) /\
  (forall (order : list wire) (psi : state) (b : basis),
     apply_op order (AdjointQFT ws) psi b =
     apply_matrix (inverse_dft (length ws))
                  (map (fun w => index_of w order) ws) psi b) /\
  (forall k k', (k < 2 ^ length ws)%nat -> (k' < 2 ^ length ws)%nat ->
     Csum (2 ^ length ws)
          (fun j => (Cconj (inverse_dft (length ws) j k) *
                     inverse_dft (length ws) j k')%C) =
     if Nat.eqb k' k then C1 else C0).
Proof.
  assert (E : forall j k, adjoint_matrix (QFT_matrix (length ws)) j k =
                          inverse_dft (length ws) j k).
  { intros j k. rewrite adjoint_qft_entry, inverse_dft_entry. reflexivity. }
  split; [exact E|]. split.
  - intros order psi b. cbn [apply_op]. unfold apply_matrix.
    apply Csum_ext. intros k _. rewrite E. reflexivity.
  - intros k k' Hk Hk'. rewrite <- (adjoint_qft_columns _ k k' Hk Hk').
    apply Csum_ext. intros j _. rewrite !E. reflexivity.
Qed.

End InverseQFT.

(** ** The state stays normalised *)

Section Normalised.
Import Simulator QPE.

Lemma read_tail_m (m : nat) (s : bool) (x : basis) :
  length x = m -> read (seq 1 m) (s :: x) = x.
Proof. intros <-. apply read_tail. Qed.

Lemma write_tail_m (m : nat) (s : bool) (x y : basis) :
  length x = m -> length y = m -> write (seq 1 m) y (s :: x) = s :: y.
Proof. intros <- Hy. apply write_tail, Hy. Qed.

Lemma apply_matrix_norm (m : nat) (A : nat -> nat -> C) (psi : state) :
  (forall k k', (k < 2 ^ m)%nat -> (k' < 2 ^ m)%nat ->
     Csum (2 ^ m) (fun j => (Cconj (A j k) * A j k')%C) =
     if Nat.eqb k' k then C1 else C0) ->
  norm2 (S m) (apply_matrix A (seq 1 m) psi) = norm2 (S m) psi.
Proof.
  intros HA. rewrite !norm2_cons.
  assert (E : forall s : bool,
             norm2 m (fun x => apply_matrix A (seq 1 m) psi (s :: x)) =
             norm2 m (fun x => psi (s :: x))).
  { intros s. unfold norm2.
    rewrite (bsum_ext m _
      (fun x => Cnorm2 (Csum (2 ^ m)
                  (fun k => (A (val x) k * psi (s :: bits m k))%C)))).
    2:{ intros x Hx. unfold apply_matrix. rewrite length_seq.
        rewrite (read_tail_m m s x Hx). f_equal.
        apply Csum_ext. intros k _.
        rewrite (write_tail_m m s x _ Hx (length_bits m k)). reflexivity. }
    rewrite !bsum_reindex.
    rewrite (Rsum_ext _ _
      (fun j => Cnorm2 (Csum (2 ^ m)
                  (fun k => (A j k * psi (s :: bits m k))%C)))).
    2:{ intros j Hj. rewrite val_bits by exact Hj. reflexivity. }
    apply (isometry_norm (2 ^ m) A (fun k => psi (s :: bits m k)) HA). }
  rewrite !E. reflexivity.
Qed.

Lemma index_of_lt (w : wire) (l : list wire) :
  In w l -> (index_of w l < length l)%nat.
Proof.
  induction l as [|x t IH]; intros H; [contradiction|].
  cbn [index_of length]. destruct (Nat.eqb x w) eqn:E; [lia|].
  apply Nat.eqb_neq in E. destruct H as [H | H]; [congruence|].
  specialize (IH H). lia.
Qed.

Lemma index_of_estimation (c : wire) (ws : list wire) :
  NoDup (0%nat :: ws) -> In c ws ->
  exists a, index_of c (0%nat :: ws) = S a /\ (a < length ws)%nat.
Proof.
  intros Hnd Hc. inversion Hnd as [|? ? H0 _]; subst.
  exists (index_of c ws). split; [|apply index_of_lt, Hc].
  cbn [index_of]. destruct (Nat.eqb_spec 0 c) as [E | E]; [|reflexivity].
  subst. contradiction.
Qed.

Lemma ctrl_pow_norm (U : M2) (ws : list wire) (c : wire) (z : nat) (psi : state) :
  unitary2 U -> NoDup (0%nat :: ws) -> In c ws ->
  norm2 (S (length ws)) (ctrl_pow (0%nat :: ws) U 0%nat c z psi) =
  norm2 (S (length ws)) psi.
Proof.
  intros HU Hnd Hc. unfold ctrl_pow.
  destruct (index_of_estimation c ws Hnd Hc) as [a [Ea Ha]]. rewrite Ea.
  apply iter_norm. intros p. apply ctrl1_norm; [exact HU | | | ]; simpl; lia.
Qed.

Lemma fold_norm {A} (n : nat) (f : state -> A -> state) (l : list A) (psi : state) :
  (forall a p, In a l -> norm2 n (f p a) = norm2 n p) ->
  norm2 n (fold_left f l psi) = norm2 n psi.
Proof.
  revert psi. induction l as [|a l IH]; intros psi H; [reflexivity|].
  cbn [fold_left]. rewrite IH.
  - apply H. now left.
  - intros b p Hb. apply H. now right.
Qed.

(** Each operator the circuit can record preserves the norm. *)
Lemma apply_op_norm (U : M2) (ws : list wire) (o : op) (psi : state) :
  unitary2 U -> NoDup (0%nat :: ws) -> circuit_gate U ws o ->
  norm2 (S (length ws)) (apply_op (0%nat :: ws) o psi) =
  norm2 (S (length ws)) psi.
Proof.
  intros HU Hnd Ho. destruct o as [t w | t w | w | V t c z | V t cs | cs];
    cbn [circuit_gate] in Ho.
  - subst w. apply apply1_norm; [apply unitary2_RY | simpl; lia].
  - subst w. apply apply1_norm; [apply unitary2_RZ | simpl; lia].
  - destruct (index_of_estimation w ws Hnd Ho) as [a [Ea Ha]].
    cbn [apply_op]. rewrite Ea. apply apply1_norm; [apply unitary2_H | lia].
  - destruct Ho as [-> [-> Hc]]. apply ctrl_pow_norm; assumption.
  - destruct Ho as [-> [-> ->]]. cbn [apply_op]. apply fold_norm.
    intros [z c] p Hin. apply in_combine_r in Hin.
    apply ctrl_pow_norm; assumption.
  - subst cs. cbn [apply_op]. rewrite (index_of_tail 0%nat ws Hnd).
    apply apply_matrix_norm. intros k k'. apply adjoint_qft_columns.
Qed.

Lemma zero_state_norm (n : nat) : norm2 n zero_state = 1.
Proof.
  rewrite (norm2_eqn n _ _ (zero_state_pstate n)).
  induction n as [|n IH].
  - unfold norm2. simpl. calg. ring.
  - rewrite norm2_cons. cbn [repeat pstate vent fst snd].
    rewrite <- IH at 1. unfold norm2.
    rewrite <- bsum_add. apply bsum_ext. intros b _.
    rewrite !Cnorm2_mul. calg. ring.
Qed.

Lemma total_map_seq (f : nat -> R) (N : nat) :
  total (map f (seq 0 N)) = Rsum N f.
Proof.
  unfold total. induction N as [|N IH]; [reflexivity|].
  rewrite seq_S, map_app, fold_right_app. cbn [map fold_right Nat.add Rsum].
  rewrite <- IH. generalize (map f (seq 0 N)). intros l.
  induction l as [|a l IHl]; cbn [fold_right]; [ring|]. rewrite IHl. ring.
Qed.

(** The marginals over the estimation axes add up to the squared norm. *)
Lemma total_probs (m : nat) (psi : state) :
  total (probs (S m) (seq 1 m) psi) = norm2 (S m) psi.
Proof.
  unfold probs. rewrite length_seq, total_map_seq.
  rewrite (Rsum_ext _ _
    (fun j => Cnorm2 (psi (false :: bits m j)) + Cnorm2 (psi (true :: bits m j))))
    by (intros j Hj; apply marginal_tail, Hj).
  rewrite Rsum_add, norm2_cons. unfold norm2. rewrite !bsum_reindex. reflexivity.
Qed.

Lemma probs_nonneg (n : nat) (axes : list nat) (psi : state) :
  Forall (fun x => 0 <= x) (probs n axes psi).
Proof.
  unfold probs. apply Forall_forall. intros x Hx.
  apply in_map_iff in Hx. destruct Hx as [j [<- _]].
  unfold marginal. apply bsum_nonneg. intros b.
  destruct (Nat.eqb (val (read axes b)) j); [apply Cnorm2_nonneg | lra].
Qed.

Lemma run_norm (U : M2) (ws : list wire) (tape : list op) (psi : state) :
  unitary2 U -> NoDup (0%nat :: ws) -> Forall (circuit_gate U ws) tape ->
  norm2 (S (length ws)) (run (0%nat :: ws) tape psi) = norm2 (S (length ws)) psi.
Proof.
  intros HU Hnd Ht. unfold run. apply fold_norm.
  intros o p Ho. apply (apply_op_norm U); try assumption.
  rewrite Forall_forall in Ht. apply Ht, Ho.
Qed.

(** C9: from any unit-norm state of the device, any sequence of the
    circuit's operators (Hadamards on estimation wires, controlled powers
    of a unitary, the inverse QFT, the rotations of wire 0) leaves a
    unit-norm state, and the array [qml.probs] returns over the
    estimation wires has nonnegative entries that sum to 1; in particular
    so does what [circuit] returns. *)
Theorem C9_state_stays_normalised (U : M2) (ws : list wire) :
  unitary2 U -> NoDup (0%nat :: ws) -> (1 <= length ws)%nat ->
  (forall (tape : list op) (psi : state),
     Forall (circuit_gate U ws) tape ->
     norm2 (S (length ws)) psi = 1 ->
     norm2 (S (length ws)) (run (0%nat :: ws) tape psi) = 1 /\
     Forall (fun x => 0 <= x)
       (probs (S (length ws)) (map (fun w => index_of w (0%nat :: ws)) ws)
              (run (0%nat :: ws) tape psi)) /\
     total (probs (S (length ws)) (map (fun w => index_of w (0%nat :: ws)) ws)
                  (run (0%nat :: ws) tape psi)) = 1) /\
  (forall s : world,
     exists p s',
       circuit U ws s = Ok (p, s') /\ Forall (fun x => 0 <= x) p /\ total p = 1).
Proof.
  intros HU Hnd Hm.
  assert (G : forall (tape : list op) (psi : state),
     Forall (circuit_gate U ws) tape ->
     norm2 (S (length ws)) psi = 1 ->
     norm2 (S (length ws)) (run (0%nat :: ws) tape psi) = 1 /\
     Forall (fun x => 0 <= x)
       (probs (S (length ws)) (map (fun w => index_of w (0%nat :: ws)) ws)
              (run (0%nat :: ws) tape psi)) /\
     total (probs (S (length ws)) (map (fun w => index_of w (0%nat :: ws)) ws)
                  (run (0%nat :: ws) tape psi)) = 1).
  { intros tape psi Ht Hpsi.
    assert (Hn : norm2 (S (length ws)) (run (0%nat :: ws) tape psi) = 1)
      by (rewrite (run_norm U ws tape psi HU Hnd Ht); exact Hpsi).
    split; [exact Hn|]. split; [apply probs_nonneg|].
    rewrite (index_of_tail 0%nat ws Hnd), total_probs. exact Hn. }
  split; [exact G|].
  intros s. eexists. eexists. split; [apply circuit_run; assumption|].
  unfold execute. rewrite circuit_wire_order by exact Hnd. cbn [length].
  apply G; [|apply zero_state_norm].
  apply Forall_app. split; [repeat constructor|].
  apply Forall_app. split; [|repeat constructor].
  apply Forall_forall. intros o Ho. apply in_map_iff in Ho.
  destruct Ho as [w [<- Hw]]. exact Hw.
Qed.

Lemma C9_state_stays_normalised_witness :
  (forall (tape : list op) (psi : state),
     Forall (circuit_gate (mkM2 C1 C0 C0 Ci) [1%nat; 2%nat]) tape ->
     norm2 (S (length [1%nat; 2%nat])) psi = 1 ->
     norm2 (S (length [1%nat; 2%nat])) (run [0%nat; 1%nat; 2%nat] tape psi) = 1 /\
     Forall (fun x => 0 <= x)
       (probs (S (length [1%nat; 2%nat]))
              (map (fun w => index_of w [0%nat; 1%nat; 2%nat]) [1%nat; 2%nat])
              (run [0%nat; 1%nat; 2%nat] tape psi)) /\
     total (probs (S (length [1%nat; 2%nat]))
                  (map (fun w => index_of w [0%nat; 1%nat; 2%nat]) [1%nat; 2%nat])
                  (run [0%nat; 1%nat; 2%nat] tape psi)) = 1) /\
  (forall s : world,
     exists p s',
       circuit (mkM2 C1 C0 C0 Ci) [1%nat; 2%nat] s = Ok (p, s') /\
       Forall (fun x => 0 <= x) p /\ total p = 1).
Proof.
  apply (C9_state_stays_normalised (mkM2 C1 C0 C0 Ci) [1%nat; 2%nat]).
  - unfold unitary2. mring.
  - repeat constructor; simpl; intuition lia.
  - simpl. lia.
Defined.

End Normalised.

(** ** The gate sequence of [qpe_circuit] *)

Section GateSequence.
Import Simulator QPE.

Lemma run_decomposition (order : list wire) (U : M2) (t : wire) (cs : list wire)
    (psi : state) :
  apply_op order (ControlledSequence U t cs) psi =
  run order (decomposition U t cs) psi.
Proof.
  cbn [apply_op]. unfold run, decomposition.
  generalize (ladder cs). intros l. revert psi.
  induction l as [|zc l IH]; intros psi; [reflexivity|].
  cbn [map fold_left apply_op]. apply IH.
Qed.

Lemma length_ladder (cs : list wire) : length (ladder cs) = length cs.
Proof.
  unfold ladder. rewrite length_combine, length_rev, length_map, length_seq.
  apply Nat.min_id.
Qed.

Lemma nth_ladder (cs : list wire) (k : nat) :
  (k < length cs)%nat ->
  nth_error (ladder cs) k = Some ((2 ^ (length cs - 1 - k))%nat, nth k cs 0%nat).
Proof.
  intros Hk.
  rewrite (nth_error_nth' _ (0%nat, 0%nat)) by (rewrite length_ladder; exact Hk).
  unfold ladder. rewrite combine_nth
    by (rewrite length_rev, length_map, length_seq; reflexivity).
  rewrite rev_nth by (rewrite length_map, length_seq; exact Hk).
  rewrite length_map, length_seq.
  rewrite (nth_indep _ 0%nat (Nat.pow 2 0))
    by (rewrite length_map, length_seq; lia).
  rewrite map_nth, seq_nth by lia.
  do 3 f_equal. lia.
Qed.

(** C6: on estimation wires that [qml.ControlledSequence] accepts
    (at least one, distinct, none of them wire 0), [qpe_circuit] appends
    to the queue,
    in this order and with nothing else, one Hadamard per estimation
    wire, the controlled sequence of the unitary (which the device runs
    as its ladder of controlled powers), and the adjoint QFT over the
    estimation wires; it draws no random numbers. *)
Theorem C6_qpe_circuit_three_stages (U : M2) (ws : list wire) (s : world) :
  NoDup (0%nat :: ws) -> (1 <= length ws)%nat ->
  qpe_circuit U ws s =
    Ok (tt, mkWorld (gen s)
              (queue s ++ map Hadamard ws ++
               [ControlledSequence U 0%nat ws] ++ [AdjointQFT ws])) /\
  (forall order psi,
     run order (map Hadamard ws ++ [ControlledSequence U 0%nat ws] ++
                [AdjointQFT ws]) psi =
     apply_op order (AdjointQFT ws)
       (run order (decomposition U 0%nat ws)
          (fold_left (fun st w => apply_op order (Hadamard w) st) ws psi))).
Proof.
  intros Hnd _. split; [apply qpe_circuit_run, Hnd|].
  intros order psi. rewrite !run_app.
  change (run order [AdjointQFT ws]) with (apply_op order (AdjointQFT ws)).
  change (run order [ControlledSequence U 0%nat ws])
    with (apply_op order (ControlledSequence U 0%nat ws)).
  rewrite run_decomposition. do 2 f_equal. clear Hnd.
  unfold run. revert psi. induction ws as [|w ws IH]; intros psi; [reflexivity|].
  cbn [map fold_left]. apply IH.
Qed.

Lemma C6_qpe_circuit_three_stages_witness :
  qpe_circuit Z_matrix [1; 2; 3]%nat RandomUnitary.demo_world =
    Ok (tt, mkWorld (gen RandomUnitary.demo_world)
              (queue RandomUnitary.demo_world ++ map Hadamard [1; 2; 3]%nat ++
               [ControlledSequence Z_matrix 0%nat [1; 2; 3]%nat] ++
               [AdjointQFT [1; 2; 3]%nat])) /\
  (forall order psi,
     run order (map Hadamard [1; 2; 3]%nat ++
                [ControlledSequence Z_matrix 0%nat [1; 2; 3]%nat] ++
                [AdjointQFT [1; 2; 3]%nat]) psi =
     apply_op order (AdjointQFT [1; 2; 3]%nat)
       (run order (decomposition Z_matrix 0%nat [1; 2; 3]%nat)
          (fold_left (fun st w => apply_op order (Hadamard w) st) [1; 2; 3]%nat psi))).
Proof.
  apply (C6_qpe_circuit_three_stages Z_matrix [1; 2; 3]%nat RandomUnitary.demo_world).
  - repeat constructor; simpl; intuition lia.
  - simpl. lia.
Defined.

Lemma ket_ladder (U : M2) (ws : list wire) (v : V2) (x : basis) :
  NoDup (0%nat :: ws) -> length x = length ws ->
  eqn (S (length ws))
      (apply_op (0%nat :: ws) (ControlledSequence U 0%nat ws) (ket v x))
      (ket (Mvec (Mpow U (val x)) v) x).
Proof.
  intros Hnd Hx. eapply eqn_trans; [apply controlled_sequence_sem, Hnd|].
  intros [|s y] Hb; simpl in Hb; [lia|]. cbn [tl]. rewrite apply1_head.
  unfold ket. destruct (list_eq_dec Bool.bool_dec y x) as [E | E].
  - subst y. destruct v as [v0 v1]. reflexivity.
  - generalize (Mpow U (val y)). intros [a0 a1 a2 a3].
    destruct s; cbn [vent Mvec fst snd m00 m01 m10 m11]; ring.
Qed.

(** C2, as the code has it: the [k]-th listed estimation wire is the sole
    control of [U^(2^(m-1-k))] on wire 0 (the first listed wire controls
    the highest power), and jointly the ladder maps [|x>|psi>] to
    [|x> U^x |psi>], where [x] is the integer the estimation bits spell
    with the first listed wire most significant. *)
Theorem C2_power_ladder_big_endian (U : M2) (ws : list wire) :
  NoDup (0%nat :: ws) ->
  length (decomposition U 0%nat ws) = length ws /\
  (forall k, (k < length ws)%nat ->
     nth_error (decomposition U 0%nat ws) k =
     Some (CtrlPow U 0%nat (nth k ws 0%nat) (2 ^ (length ws - 1 - k)))) /\
  (forall order psi,
     apply_op order (ControlledSequence U 0%nat ws) psi =
     run order (decomposition U 0%nat ws) psi) /\
  (forall (v : V2) (x : basis), length x = length ws ->
     eqn (S (length ws))
         (run (0%nat :: ws) (decomposition U 0%nat ws) (ket v x))
         (ket (Mvec (Mpow U (val x)) v) x)).
Proof.
  intros Hnd. split; [|split; [|split]].
  - unfold decomposition. rewrite length_map. apply length_ladder.
  - intros k Hk. unfold decomposition.
    rewrite nth_error_map, nth_ladder by exact Hk. reflexivity.
  - intros order psi. apply run_decomposition.
  - intros v x Hx. rewrite <- run_decomposition. apply ket_ladder; assumption.
Qed.

Lemma NoDup_012 : NoDup [0%nat; 1%nat; 2%nat].
Proof. repeat constructor; simpl; intuition lia. Qed.

Lemma C2_power_ladder_big_endian_witness :
  length (decomposition Z_matrix 0%nat [1%nat; 2%nat]) = length [1%nat; 2%nat] /\
  (forall k, (k < length [1%nat; 2%nat])%nat ->
     nth_error (decomposition Z_matrix 0%nat [1%nat; 2%nat]) k =
     Some (CtrlPow Z_matrix 0%nat (nth k [1%nat; 2%nat] 0%nat)
             (2 ^ (length [1%nat; 2%nat] - 1 - k)))) /\
  (forall order psi,
     apply_op order (ControlledSequence Z_matrix 0%nat [1%nat; 2%nat]) psi =
     run order (decomposition Z_matrix 0%nat [1%nat; 2%nat]) psi) /\
  (forall (v : V2) (x : basis), length x = length [1%nat; 2%nat] ->
     eqn (S (length [1%nat; 2%nat]))
         (run [0%nat; 1%nat; 2%nat] (decomposition Z_matrix 0%nat [1%nat; 2%nat])
              (ket v x))
         (ket (Mvec (Mpow Z_matrix (val x)) v) x)).
Proof.
  apply (C2_power_ladder_big_endian Z_matrix [1%nat; 2%nat]).
  exact NoDup_012.
Defined.

(** Against C2 as worded: with wires listed as [1, 2], the first listed
    wire (k = 0) controls [U^2], not [U^(2^0)]; for Pauli Z the two act
    differently on [|1>|10>]. *)
Lemma C2_listed_order_counterexample :
  ~ (forall k, (k < length [1%nat; 2%nat])%nat ->
       nth_error (decomposition Z_matrix 0%nat [1%nat; 2%nat]) k =
       Some (CtrlPow Z_matrix 0%nat (nth k [1%nat; 2%nat] 0%nat) (2 ^ k))) /\
  nth_error (decomposition Z_matrix 0%nat [1%nat; 2%nat]) 0 =
    Some (CtrlPow Z_matrix 0%nat 1%nat 2) /\
  apply_op [0%nat; 1%nat; 2%nat] (CtrlPow Z_matrix 0%nat 1%nat 2)
    (ket (C0, C1) [true; false]) [true; true; false] = C1 /\
  apply_op [0%nat; 1%nat; 2%nat] (CtrlPow Z_matrix 0%nat 1%nat (2 ^ 0))
    (ket (C0, C1) [true; false]) [true; true; false] = (- C1)%C /\
  C1 <> (- C1)%C.
Proof.
  split; [|split; [|split; [|split]]].
  - intros H. specialize (H 0%nat ltac:(simpl; lia)).
    cbv [decomposition ladder length seq map Nat.pow Nat.mul Nat.add rev app
         combine nth_error nth fst snd] in H.
    injection H as H. discriminate H.
  - reflexivity.
  - cbv [apply_op Z_matrix ctrl_pow index_of Nat.eqb Nat.iter nat_rect ctrl1 apply1
         bit nth upd ket ent m00 m01 m10 m11 vent fst snd list_eq_dec list_rec
         list_rect Bool.bool_dec bool_rec bool_rect sumbool_rec sumbool_rect].
    ring.
  - cbv [apply_op Z_matrix ctrl_pow index_of Nat.eqb Nat.iter nat_rect ctrl1 apply1
         bit nth upd ket ent m00 m01 m10 m11 vent fst snd list_eq_dec list_rec
         list_rect Bool.bool_dec bool_rec bool_rect sumbool_rec sumbool_rect
         Nat.pow Nat.mul Nat.add].
    ring.
  - intros H. calg. injection H as H. lra.
Qed.

End GateSequence.

(** ** The exponential series on the imaginary axis *)

Section ExponentialSeries.
Import Simulator Hamiltonian.

Lemma Cpow_imag (t : R) (j : nat) :
  Cpow (0, t) (2 * j) = RtoC ((-1) ^ j * Rsqr t ^ j) /\
  Cpow (0, t) (S (2 * j)) = (0, (-1) ^ j * Rsqr t ^ j * t).
Proof.
  induction j as [|j [IH0 IH1]].
  - split; cbn [Nat.mul Nat.add Cpow pow]; cring.
  - assert (E0 : Cpow (0, t) (2 * S j) = RtoC ((-1) ^ S j * Rsqr t ^ S j)).
    { replace (2 * S j)%nat with (S (S (2 * j))) by lia.
      change (Cpow (0, t) (S (S (2 * j))))
        with ((0, t) * Cpow (0, t) (S (2 * j)))%C.
      rewrite IH1. cbn [pow]. unfold Rsqr. cring. }
    split; [exact E0|].
    change (Cpow (0, t) (S (2 * S j))) with ((0, t) * Cpow (0, t) (2 * S j))%C.
    rewrite E0. cbn [pow]. unfold Rsqr. cring.
Qed.

(** Odd partial sums of [e^(i t)]: the cosine and sine series. *)
Lemma cexp_partial_odd (t : R) (j : nat) :
  cexp_partial (0, t) (S (2 * j)) =
  (sum_f_R0 (fun i => cos_n i * Rsqr t ^ i) j,
   t * sum_f_R0 (fun i => sin_n i * Rsqr t ^ i) j).
Proof.
  induction j as [|j IH].
  - cbn [Nat.mul Nat.add cexp_partial Cpow sum_f_R0 pow fact].
    unfold cos_n, sin_n. cbn [Nat.mul Nat.add pow fact INR].
    calg. csplit; field.
  - destruct (Cpow_imag t (S j)) as [E0 E1].
    assert (N2 : (2 * S j = S (S (2 * j)))%nat) by lia.
    assert (N3 : (2 * S j + 1 = S (S (S (2 * j))))%nat) by lia.
    rewrite N2 in *.
    change (cexp_partial (0, t) (S (S (S (2 * j)))))
      with (cexp_partial (0, t) (S (2 * j)) +
            RtoC (/ INR (fact (S (S (2 * j))))) * Cpow (0, t) (S (S (2 * j))) +
            RtoC (/ INR (fact (S (S (S (2 * j)))))) *
              Cpow (0, t) (S (S (S (2 * j)))))%C.
    rewrite IH, E0, E1. cbn [sum_f_R0]. unfold cos_n, sin_n. rewrite N2, N3.
    pose proof (INR_fact_neq_0 (S (S (2 * j)))).
    pose proof (INR_fact_neq_0 (S (S (S (2 * j))))).
    cbn [pow]. unfold Rsqr. calg. csplit; field; auto.
Qed.

Lemma cexp_partial_even (t : R) (j : nat) :
  cexp_partial (0, t) (S (S (2 * j))) =
  (sum_f_R0 (fun i => cos_n i * Rsqr t ^ i) (S j),
   t * sum_f_R0 (fun i => sin_n i * Rsqr t ^ i) j).
Proof.
  destruct (Cpow_imag t (S j)) as [E0 _].
  assert (N2 : (2 * S j = S (S (2 * j)))%nat) by lia. rewrite N2 in E0.
  change (cexp_partial (0, t) (S (S (2 * j))))
    with (cexp_partial (0, t) (S (2 * j)) +
          RtoC (/ INR (fact (S (S (2 * j))))) * Cpow (0, t) (S (S (2 * j))))%C.
  rewrite cexp_partial_odd, E0. cbn [sum_f_R0]. unfold cos_n. rewrite N2.
  pose proof (INR_fact_neq_0 (S (S (2 * j)))).
  cbn [pow]. unfold Rsqr. calg. csplit; field; assumption.
Qed.

Lemma odd_or_even (n : nat) :
  (1 <= n)%nat -> exists j, n = S (2 * j) \/ n = S (S (2 * j)).
Proof.
  induction n as [|n IH]; intros H; [lia|].
  destruct n as [|n]; [exists 0%nat; lia|].
  destruct (IH ltac:(lia)) as [j [E | E]].
  - exists j. lia.
  - exists (S j). lia.
Qed.

Lemma cos_series (t : R) :
  Un_cv (sum_f_R0 (fun i => cos_n i * Rsqr t ^ i)) (cos t).
Proof.
  unfold cos. destruct (exist_cos (Rsqr t)) as [l Hl]. exact Hl.
Qed.

Lemma sin_series (t : R) :
  Un_cv (fun n => t * sum_f_R0 (fun i => sin_n i * Rsqr t ^ i) n) (sin t).
Proof.
  unfold sin. destruct (exist_sin (Rsqr t)) as [l Hl].
  apply CV_mult; [|exact Hl].
  intros eps Heps. exists 0%nat. intros n _.
  unfold Rdist. rewrite Rminus_diag, Rabs_R0. exact Heps.
Qed.

(** The exponential series at [i t] sums to [cos t + i sin t]. *)
Lemma cexp_partial_cv (t : R) : Ccv (cexp_partial (0, t)) (Cexpi t).
Proof.
  rewrite Cexpi_cis. split; cbn [Re Im fst snd].
  - intros eps Heps. destruct (cos_series t eps Heps) as [N HN].
    exists (2 * N + 2)%nat. intros n Hn.
    destruct (odd_or_even n ltac:(lia)) as [j [E | E]]; subst n.
    + rewrite cexp_partial_odd. cbn [Re fst]. apply HN. lia.
    + rewrite cexp_partial_even. cbn [Re fst]. apply HN. lia.
  - intros eps Heps. destruct (sin_series t eps Heps) as [N HN].
    exists (2 * N + 2)%nat. intros n Hn.
    destruct (odd_or_even n ltac:(lia)) as [j [E | E]]; subst n.
    + rewrite cexp_partial_odd. cbn [Im snd]. apply HN. lia.
    + rewrite cexp_partial_even. cbn [Im snd]. apply HN. lia.
Qed.

End ExponentialSeries.

(** ** The matrix exponential through a spectral decomposition *)

Section Spectral.
Import Simulator Hamiltonian.

Variables P Q : M2.
Hypothesis HPQ : Madd P Q = eye2.
Hypothesis HPQ0 : Mmul P Q = Mzero.
Hypothesis HQP0 : Mmul Q P = Mzero.
Hypothesis HPP : Mmul P P = P.
Hypothesis HQQ : Mmul Q Q = Q.

Lemma comb_expand (a b c d : C) (X Y : M2) :
  Mmul (Madd (Mscale a X) (Mscale b Y)) (Madd (Mscale c X) (Mscale d Y)) =
  Madd (Madd (Mscale (a * c) (Mmul X X)) (Mscale (a * d) (Mmul X Y)))
       (Madd (Mscale (b * c) (Mmul Y X)) (Mscale (b * d) (Mmul Y Y))).
Proof.
  destruct X as [[x0 x1] [x2 x3] [x4 x5] [x6 x7]],
           Y as [[y0 y1] [y2 y3] [y4 y5] [y6 y7]],
           a as [a0 a1], b as [b0 b1], c as [c0 c1], d as [d0 d1]. mring.
Qed.

Lemma comb_zero (x y u v : C) (X Y : M2) :
  Madd (Madd (Mscale x X) (Mscale u Mzero)) (Madd (Mscale v Mzero) (Mscale y Y)) =
  Madd (Mscale x X) (Mscale y Y).
Proof.
  destruct X as [[x0 x1] [x2 x3] [x4 x5] [x6 x7]],
           Y as [[y0 y1] [y2 y3] [y4 y5] [y6 y7]],
           x as [a0 a1], y as [b0 b1], u as [c0 c1], v as [d0 d1].
  unfold Mzero. mring.
Qed.

Lemma comb_mul (a b c d : C) :
  Mmul (Madd (Mscale a P) (Mscale b Q)) (Madd (Mscale c P) (Mscale d Q)) =
  Madd (Mscale (a * c) P) (Mscale (b * d) Q).
Proof. rewrite comb_expand, HPP, HPQ0, HQP0, HQQ. apply comb_zero. Qed.

Lemma comb_one : eye2 = Madd (Mscale C1 P) (Mscale C1 Q).
Proof.
  rewrite <- HPQ. destruct P as [[x0 x1] [x2 x3] [x4 x5] [x6 x7]],
                           Q as [[y0 y1] [y2 y3] [y4 y5] [y6 y7]]. mring.
Qed.

Lemma Mpow_comb (a b : C) (k : nat) :
  Mpow (Madd (Mscale a P) (Mscale b Q)) k =
  Madd (Mscale (Cpow a k) P) (Mscale (Cpow b k) Q).
Proof.
  induction k as [|k IH]; cbn [Mpow Cpow].
  - apply comb_one.
  - rewrite IH. apply comb_mul.
Qed.

Lemma comb_add_scale (x y u v f : C) (X Y : M2) :
  Madd (Madd (Mscale x X) (Mscale y Y))
       (Mscale f (Madd (Mscale u X) (Mscale v Y))) =
  Madd (Mscale (x + f * u) X) (Mscale (y + f * v) Y).
Proof.
  destruct X as [[x0 x1] [x2 x3] [x4 x5] [x6 x7]],
           Y as [[y0 y1] [y2 y3] [y4 y5] [y6 y7]],
           x as [a0 a1], y as [b0 b1], u as [c0 c1], v as [d0 d1], f as [f0 f1].
  mring.
Qed.

(** The partial sums of the matrix series are the scalar partial sums on
    the two spectral projectors. *)
Lemma expm_partial_comb (a b : C) (n : nat) :
  expm_partial (Madd (Mscale a P) (Mscale b Q)) n =
  Madd (Mscale (cexp_partial a n) P) (Mscale (cexp_partial b n) Q).
Proof.
  induction n as [|n IH].
  - apply comb_one.
  - change (expm_partial (Madd (Mscale a P) (Mscale b Q)) (S n))
      with (Madd (expm_partial (Madd (Mscale a P) (Mscale b Q)) n)
                 (Mscale (RtoC (/ INR (fact (S n))))
                         (Mpow (Madd (Mscale a P) (Mscale b Q)) (S n)))).
    rewrite IH, Mpow_comb, comb_add_scale. reflexivity.
Qed.

End Spectral.

(** ** Limits of complex sequences and of 2x2 arrays *)

Section Limits.
Import Simulator Hamiltonian.

Lemma Un_cv_const (c : R) : Un_cv (fun _ => c) c.
Proof.
  intros eps Heps. exists 0%nat. intros n _.
  unfold Rdist. rewrite Rminus_diag, Rabs_R0. exact Heps.
Qed.

Lemma Ccv_add (zn wn : nat -> C) (l k : C) :
  Ccv zn l -> Ccv wn k -> Ccv (fun n => (zn n + wn n)%C) (l + k)%C.
Proof.
  intros [Hz1 Hz2] [Hw1 Hw2]. split.
  - apply (CV_plus _ _ _ _ Hz1 Hw1).
  - apply (CV_plus _ _ _ _ Hz2 Hw2).
Qed.

Lemma Ccv_mul_r (zn : nat -> C) (l c : C) :
  Ccv zn l -> Ccv (fun n => (zn n * c)%C) (l * c)%C.
Proof.
  intros [H1 H2]. split.
  - apply (CV_minus (fun n => Re (zn n) * Re c) (fun n => Im (zn n) * Im c)).
    + apply CV_mult; [exact H1 | apply Un_cv_const].
    + apply CV_mult; [exact H2 | apply Un_cv_const].
  - apply (CV_plus (fun n => Re (zn n) * Im c) (fun n => Im (zn n) * Re c)).
    + apply CV_mult; [exact H1 | apply Un_cv_const].
    + apply CV_mult; [exact H2 | apply Un_cv_const].
Qed.

Lemma Ccv_unique (zn : nat -> C) (l k : C) : Ccv zn l -> Ccv zn k -> l = k.
Proof.
  intros [H1 H2] [K1 K2]. apply injective_projections.
  - apply (UL_sequence _ _ _ H1 K1).
  - apply (UL_sequence _ _ _ H2 K2).
Qed.

Lemma Mcv_unique (Mn : nat -> M2) (E F : M2) : Mcv Mn E -> Mcv Mn F -> E = F.
Proof.
  intros HE HF. destruct E as [e0 e1 e2 e3], F as [f0 f1 f2 f3].
  apply (f_equal4 mkM2).
  - apply (Ccv_unique _ _ _ (HE false false) (HF false false)).
  - apply (Ccv_unique _ _ _ (HE false true) (HF false true)).
  - apply (Ccv_unique _ _ _ (HE true false) (HF true false)).
  - apply (Ccv_unique _ _ _ (HE true true) (HF true true)).
Qed.

Lemma ent_comb (x y : C) (X Y : M2) (i j : bool) :
  ent (Madd (Mscale x X) (Mscale y Y)) i j = (x * ent X i j + y * ent Y i j)%C.
Proof. destruct i, j; reflexivity. Qed.

(** The exponential series of [i a P + i b Q] sums to
    [e^(i a) P + e^(i b) Q]. *)
Lemma is_expm_comb (P Q : M2) (a b : R) :
  Madd P Q = eye2 -> Mmul P Q = Mzero -> Mmul Q P = Mzero ->
  Mmul P P = P -> Mmul Q Q = Q ->
  is_expm (Madd (Mscale (0, a) P) (Mscale (0, b) Q))
          (Madd (Mscale (Cexpi a) P) (Mscale (Cexpi b) Q)).
Proof.
  intros H1 H2 H3 H4 H5 i j. rewrite ent_comb.
  assert (E : forall n,
             ent (expm_partial (Madd (Mscale (0, a) P) (Mscale (0, b) Q)) n) i j =
             (ent P i j * cexp_partial (0, a) n + ent Q i j * cexp_partial (0, b) n)%C).
  { intros n. rewrite (expm_partial_comb P Q H1 H2 H3 H4 H5), ent_comb. ring. }
  pose proof (Ccv_add _ _ _ _
                (Ccv_mul_r _ _ (ent P i j) (cexp_partial_cv a))
                (Ccv_mul_r _ _ (ent Q i j) (cexp_partial_cv b))) as H.
  destruct H as [Hr Hi]. split.
  - intros eps Heps. destruct (Hr eps Heps) as [N HN]. exists N. intros n Hn.
    specialize (HN n Hn). cbv beta in HN. rewrite E.
    replace (ent P i j * cexp_partial (0, a) n + ent Q i j * cexp_partial (0, b) n)%C
      with (cexp_partial (0, a) n * ent P i j + cexp_partial (0, b) n * ent Q i j)%C
      by ring. exact HN.
  - intros eps Heps. destruct (Hi eps Heps) as [N HN]. exists N. intros n Hn.
    specialize (HN n Hn). cbv beta in HN. rewrite E.
    replace (ent P i j * cexp_partial (0, a) n + ent Q i j * cexp_partial (0, b) n)%C
      with (cexp_partial (0, a) n * ent P i j + cexp_partial (0, b) n * ent Q i j)%C
      by ring. exact HN.
Qed.

End Limits.

(** ** The Hamiltonian cell *)

Section HamiltonianCell.
Import Simulator Hamiltonian.

Lemma hermitian_part_form (A : M2) :
  exists (p q : R) (z : C),
    hermitian_part A = mkM2 (RtoC p) z (Cconj z) (RtoC q).
Proof.
  destruct A as [[a0 a1] [b0 b1] [c0 c1] [d0 d1]].
  exists a0, d0, ((b0 + c0) / 2, (b1 - c1) / 2).
  unfold hermitian_part. calg. msplit; field.
Qed.

Lemma hermitian_form_dag (p q : R) (z : C) :
  Mdag (mkM2 (RtoC p) z (Cconj z) (RtoC q)) = mkM2 (RtoC p) z (Cconj z) (RtoC q).
Proof. destruct z as [z0 z1]. mring. Qed.

(** Eigenvalues of a Hermitian 2x2 array are real. *)
Lemma hermitian_eigenvalue_real (p q : R) (z lam : C) :
  eigenvalue (mkM2 (RtoC p) z (Cconj z) (RtoC q)) lam -> Im lam = 0.
Proof.
  intros [v [Hv E]].
  destruct v as [[x0 x1] [y0 y1]], z as [z0 z1], lam as [l0 l1].
  assert (Hn : x0 * x0 + x1 * x1 + y0 * y0 + y1 * y1 <> 0).
  { intros Hz. apply Hv.
    assert (x0 = 0) by nra. assert (x1 = 0) by nra.
    assert (y0 = 0) by nra. assert (y1 = 0) by nra. subst. reflexivity. }
  calg. injection E as E1 E2 E3 E4.
  assert (Hl : l1 * (x0 * x0 + x1 * x1 + y0 * y0 + y1 * y1) = 0) by nsatz.
  apply Rmult_integral in Hl. destruct Hl as [Hl | Hl]; [exact Hl | contradiction].
Qed.

(** A Hermitian 2x2 array is a real combination of two complementary
    Hermitian projectors. *)
Lemma hermitian_spectral (p q : R) (z : C) :
  exists (P Q : M2) (a b : R),
    Madd P Q = eye2 /\ Mmul P Q = Mzero /\ Mmul Q P = Mzero /\
    Mmul P P = P /\ Mmul Q Q = Q /\ Mdag P = P /\
    mkM2 (RtoC p) z (Cconj z) (RtoC q) =
      Madd (Mscale (RtoC a) P) (Mscale (RtoC b) Q).
Proof.
  destruct z as [z0 z1].
  set (d := (p - q) / 2). set (c := (p + q) / 2).
  set (r := sqrt (d * d + (z0 * z0 + z1 * z1))).
  assert (Hpos : 0 <= d * d + (z0 * z0 + z1 * z1)) by nra.
  assert (Hr2 : r * r = d * d + (z0 * z0 + z1 * z1)) by (apply sqrt_sqrt, Hpos).
  destruct (Req_dec r 0) as [Hr | Hr].
  - rewrite Hr in Hr2.
    assert (d = 0) by nra. assert (z0 = 0) by nra. assert (z1 = 0) by nra.
    assert (Hpq : q = p) by (unfold d in *; lra). subst z0 z1 q.
    exists eye2, Mzero, p, p. unfold Mzero.
    repeat split; mring.
  - set (u := d / r). set (w0 := z0 / r). set (w1 := z1 / r).
    assert (Hu : u * u + w0 * w0 + w1 * w1 = 1).
    { unfold u, w0, w1. field_simplify_eq; [|exact Hr]. nra. }
    assert (Hd : r * u = d) by (unfold u; field; exact Hr).
    assert (Hz0 : r * w0 = z0) by (unfold w0; field; exact Hr).
    assert (Hz1 : r * w1 = z1) by (unfold w1; field; exact Hr).
    assert (Hp : p = c + d) by (unfold c, d; field).
    assert (Hq : q = c - d) by (unfold c, d; field).
    set (h := / 2). assert (Hh : 2 * h = 1) by (unfold h; field).
    clearbody u w0 w1 c d r h. clear Hr2 Hpos Hr.
    exists (mkM2 (RtoC (h * (1 + u))) (h * w0, h * w1)
                 (h * w0, - (h * w1)) (RtoC (h * (1 - u)))),
           (mkM2 (RtoC (h * (1 - u))) (- (h * w0), - (h * w1))
                 (- (h * w0), h * w1) (RtoC (h * (1 + u)))),
           (c + r), (c - r).
    unfold Mzero. subst p q d z0 z1.
    repeat split; calg; msplit; nsatz.
Qed.

Lemma generator_comb (P Q : M2) (a b T : R) :
  generator (Madd (Mscale (RtoC a) P) (Mscale (RtoC b) Q)) T =
  Madd (Mscale (0, a * T) P) (Mscale (0, b * T) Q).
Proof.
  destruct P as [[x0 x1] [x2 x3] [x4 x5] [x6 x7]],
           Q as [[y0 y1] [y2 y3] [y4 y5] [y6 y7]].
  unfold generator, Mtimes. mring.
Qed.

Lemma complement_projector (P Q : M2) : Madd P Q = eye2 -> Q = Msub eye2 P.
Proof.
  intros H. rewrite <- H.
  destruct P as [[x0 x1] [x2 x3] [x4 x5] [x6 x7]],
           Q as [[y0 y1] [y2 y3] [y4 y5] [y6 y7]]. mring.
Qed.

(** C10: for every complex 2x2 array [A], [H = 0.5 * (A + A^dagger)] is
    Hermitian; every eigenvalue of [H] is real, so [np.real] discards
    nothing; and for every real [T] the matrix exponential of
    [H * 1j * T] exists and is unitary. *)
Theorem C10_hermitian_part_evolution (A : M2) (T : R) :
  Mdag (hermitian_part A) = hermitian_part A /\
  (forall lam, eigenvalue (hermitian_part A) lam ->
     Im lam = 0 /\ RtoC (Re lam) = lam) /\
  (exists E, is_expm (generator (hermitian_part A) T) E) /\
  (forall E, is_expm (generator (hermitian_part A) T) E -> unitary2 E).
Proof.
  destruct (hermitian_part_form A) as [p [q [z HA]]]. rewrite HA.
  destruct (hermitian_spectral p q z)
    as [P [Q [a [b [H1 [H2 [H3 [H4 [H5 [H6 H7]]]]]]]]]].
  assert (Hexp : is_expm (generator (mkM2 (RtoC p) z (Cconj z) (RtoC q)) T)
                   (Madd (Mscale (Cexpi (a * T)) P) (Mscale (Cexpi (b * T)) Q))).
  { rewrite H7, generator_comb. apply is_expm_comb; assumption. }
  split; [apply hermitian_form_dag|]. split; [|split].
  - intros lam Hl. pose proof (hermitian_eigenvalue_real p q z lam Hl) as Him.
    split; [exact Him|]. destruct lam as [l0 l1]. cbn [Im snd] in Him.
    subst l1. reflexivity.
  - eexists. exact Hexp.
  - intros E HE. rewrite (Mcv_unique _ _ _ HE Hexp).
    rewrite (complement_projector P Q H1).
    apply two_phase_unitary_gen; [exact H6 | exact H4 | apply Cexpi_norm ..].
Qed.

End HamiltonianCell.

(** * Further properties of the notebook's functions *)

(** ** When [qpe_circuit] and [circuit] return *)

Section Returned.
Import Simulator QPE.

Lemma qpe_circuit_refuses (U : M2) (ws : list wire) (s : world) :
  ~ NoDup (0%nat :: ws) ->
  qpe_circuit U ws s = Raise WireError \/ qpe_circuit U ws s = Raise ValueError.
Proof.
  intros Hn. unfold qpe_circuit, bind. rewrite for_each_Hadamard.
  destruct (qml_ControlledSequence_refuses U ws
              (mkWorld (gen s) (queue s ++ map Hadamard ws)) Hn) as [E | E];
    rewrite E; [left | right]; reflexivity.
Qed.

Lemma circuit_body_steps (U : M2) (ws : list wire) (s : world) :
  circuit_body U ws s =
  match qpe_circuit U ws
          (mkWorld (advance 2 (gen s))
             (queue s ++ [RY (2 * PI * gen s 0%nat) 0%nat;
                          RZ (2 * PI * gen s 1%nat) 0%nat])) with
  | Ok (_, s1) => qml_probs ws s1
  | Raise e => Raise e
  end.
Proof.
  unfold circuit_body, bind at 1. unfold create_random_state.
  unfold bind at 1, np_random_rand0 at 1. unfold bind at 1, enqueue at 1.
  unfold bind at 1, np_random_rand0 at 1. unfold enqueue at 1.
  cbn [gen queue]. unfold bind at 1. rewrite <- app_assoc. reflexivity.
Qed.

Lemma NoDup_wires_dec (ws : list wire) :
  {NoDup (0%nat :: ws)} + {~ NoDup (0%nat :: ws)}.
Proof.
  destruct (distinct ws) eqn:Hd; [destruct (existsb (Nat.eqb 0%nat) ws) eqn:Ht|].
  - right. intros H. apply valid_wires in H. destruct H; congruence.
  - left. apply valid_wires. split; assumption.
  - right. intros H. apply valid_wires in H. destruct H; congruence.
Qed.

(** [circuit] returns only on distinct estimation wires, none of them
    wire 0 and at least one of them. *)
Lemma circuit_returns (U : M2) (ws : list wire) (s : world) (p : list R) (s' : world) :
  circuit U ws s = Ok (p, s') ->
  NoDup (0%nat :: ws) /\ (1 <= length ws)%nat.
Proof.
  unfold circuit, qnode. rewrite circuit_body_steps. intros H.
  destruct (NoDup_wires_dec ws) as [Hnd | Hn].
  - split; [exact Hnd|]. rewrite (qpe_circuit_run U ws _ Hnd) in H.
    destruct ws as [|w ws]; [discriminate H | simpl; lia].
  - exfalso.
    destruct (qpe_circuit_refuses U ws
                (mkWorld (advance 2 (gen (mkWorld (gen s) [])))
                   (queue (mkWorld (gen s) []) ++
                    [RY (2 * PI * gen (mkWorld (gen s) []) 0%nat) 0%nat;
                     RZ (2 * PI * gen (mkWorld (gen s) []) 1%nat) 0%nat])) Hn)
      as [E | E]; rewrite E in H; discriminate H.
Qed.

(** What a returned array holds, in terms of the final amplitudes. *)
Lemma circuit_returned (U : M2) (ws : list wire) (s : world) (p : list R) (s' : world) :
  circuit U ws s = Ok (p, s') ->
  NoDup (0%nat :: ws) /\ (1 <= length ws)%nat /\
  s' = mkWorld (advance 2 (gen s)) (queue s) /\
  length p = (2 ^ length ws)%nat /\
  forall j, (j < 2 ^ length ws)%nat ->
    nth j p 0 =
    Cnorm2 (run (0%nat :: ws)
              ([RY (2 * PI * gen s 0%nat) 0%nat; RZ (2 * PI * gen s 1%nat) 0%nat] ++
               map Hadamard ws ++ [ControlledSequence U 0%nat ws; AdjointQFT ws])
              zero_state (false :: bits (length ws) j)) +
    Cnorm2 (run (0%nat :: ws)
              ([RY (2 * PI * gen s 0%nat) 0%nat; RZ (2 * PI * gen s 1%nat) 0%nat] ++
               map Hadamard ws ++ [ControlledSequence U 0%nat ws; AdjointQFT ws])
              zero_state (true :: bits (length ws) j)).
Proof.
  intros H. destruct (circuit_returns U ws s p s' H) as [Hnd Hm].
  destruct (circuit_probs U ws s Hnd Hm) as [p0 [Hrun [Hlen Hp]]].
  rewrite Hrun in H. injection H as Ep Es. subst p0 s'.
  split; [exact Hnd|]. split; [exact Hm|]. split; [reflexivity|].
  split; [exact Hlen | exact Hp].
Qed.

Lemma qpe_circuit_raises (U : M2) (ws : list wire) (e : exn) (s : world) :
  qml_ControlledSequence U 0%nat ws
    (mkWorld (gen s) (queue s ++ map Hadamard ws)) = Raise e ->
  qpe_circuit U ws s = Raise e.
Proof.
  intros H. unfold qpe_circuit, bind. rewrite for_each_Hadamard, H. reflexivity.
Qed.

Lemma circuit_raises (U : M2) (ws : list wire) (e : exn) (s : world) :
  (forall s1, qpe_circuit U ws s1 = Raise e) -> circuit U ws s = Raise e.
Proof.
  intros H. unfold circuit, qnode. rewrite circuit_body_steps, H. reflexivity.
Qed.

(** X23: Where [qpe_circuit] and [circuit] stop.  With no estimation wire
    [circuit] raises ValueError; with distinct estimation wires of which
    one is wire 0, the wire of the unitary, [qpe_circuit] raises
    ValueError and so does [circuit]; with an estimation wire listed
    twice both raise as well. *)
Theorem circuit_refuses_wires (U : M2) (s : world) :
  circuit U [] s = Raise ValueError /\
  (forall ws, NoDup ws -> In 0%nat ws ->
     qpe_circuit U ws s = Raise ValueError /\
     circuit U ws s = Raise ValueError) /\
  (forall ws, ~ NoDup ws ->
     exists e, qpe_circuit U ws s = Raise e /\ circuit U ws s = Raise e).
Proof.
  split; [|split].
  - unfold circuit, qnode. rewrite circuit_body_steps. reflexivity.
  - intros ws Hnd H0.
    assert (Hd : distinct ws = true) by (apply distinct_NoDup, Hnd).
    assert (Ht : existsb (Nat.eqb 0%nat) ws = true).
    { apply existsb_exists. exists 0%nat. split; [exact H0 | reflexivity]. }
    assert (Hq : forall s1, qpe_circuit U ws s1 = Raise ValueError).
    { intros s1. apply qpe_circuit_raises.
      unfold qml_ControlledSequence. rewrite Hd, Ht. reflexivity. }
    split; [apply Hq | apply circuit_raises, Hq].
  - intros ws Hn.
    assert (Hd : distinct ws = false).
    { destruct (distinct ws) eqn:E; [|reflexivity].
      exfalso. apply Hn, distinct_NoDup, E. }
    assert (Hq : forall s1, qpe_circuit U ws s1 = Raise WireError).
    { intros s1. apply qpe_circuit_raises.
      unfold qml_ControlledSequence. rewrite Hd. reflexivity. }
    exists WireError. split; [apply Hq | apply circuit_raises, Hq].
Qed.

Lemma bind_returned {A B} (c : Py A) (k : A -> Py B) (s : world) (b : B) (s' : world) :
  bind c k s = Ok (b, s') ->
  exists a s1, c s = Ok (a, s1) /\ k a s1 = Ok (b, s').
Proof.
  unfold bind. destruct (c s) as [[a s1] | e]; [|discriminate].
  intros H. exists a, s1. split; [reflexivity | exact H].
Qed.

End Returned.

(** ** [proj], [create_random_vec] and [create_unitary] *)

Section MoreRandomUnitary.
Import RandomUnitary.

Lemma proj_apply (v w : V2) : Mvec (proj v) w = Vscale (Vdot v w) v.
Proof.
  destruct v as [[a0 a1] [b0 b1]], w as [[c0 c1] [d0 d1]]. calg.
  csplit; csplit; ring.
Qed.

Lemma Vscale_RtoC_one (v : V2) : Vscale (RtoC 1) v = v.
Proof. destruct v as [[a0 a1] [b0 b1]]. calg. csplit; csplit; ring. Qed.

Lemma Vscale_zero (v : V2) : Vscale C0 v = (C0, C0).
Proof. destruct v as [[a0 a1] [b0 b1]]. calg. csplit; csplit; ring. Qed.

Lemma Vdot_perp (v : V2) : Vdot v (perp v) = C0.
Proof. destruct v as [[a0 a1] [b0 b1]]. calg. csplit; ring. Qed.

Lemma proj_eigvec_2 (g : rng) :
  Vnorm (drawn_vec g) <> 0 -> Vnorm (projected_of g) <> 0 ->
  proj (eigvec_2_of g) = Msub eye2 (proj (eigvec_1_of g)).
Proof.
  intros H1 H3.
  assert (Hu : Vnorm2 (eigvec_1_of g) = 1) by (apply Vnorm2_normalized, H1).
  exact (proj_of_projected (eigvec_1_of g) (random_vec (advance 4 g)) Hu H3).
Qed.

(** X1: for every column [vec], [proj(vec)] is Hermitian and acts on any
    column [w] as [<vec|w> vec]; when [vec] has norm 1 it is moreover
    idempotent, fixes [vec] and annihilates the column orthogonal to
    [vec]. *)
Theorem proj_is_orthogonal_projector (v w : V2) :
  Mdag (proj v) = proj v /\
  Mvec (proj v) w = Vscale (Vdot v w) v /\
  (Vnorm2 v = 1 ->
   Mmul (proj v) (proj v) = proj v /\
   Mvec (proj v) v = v /\
   Mvec (proj v) (perp v) = (C0, C0)).
Proof.
  split; [apply Mdag_proj|]. split; [apply proj_apply|].
  intros Hv. split; [apply proj_idem, Hv|]. split.
  - rewrite proj_apply, Vdot_self, Hv. apply Vscale_RtoC_one.
  - rewrite proj_apply, Vdot_perp. apply Vscale_zero.
Qed.

Lemma proj_is_orthogonal_projector_witness :
  Vnorm2 ((3 / 5, 0), (0, 4 / 5)) = 1 /\
  Mdag (proj ((3 / 5, 0), (0, 4 / 5))) = proj ((3 / 5, 0), (0, 4 / 5)) /\
  Mvec (proj ((3 / 5, 0), (0, 4 / 5))) (C1, C1) =
    Vscale (Vdot ((3 / 5, 0), (0, 4 / 5)) (C1, C1)) ((3 / 5, 0), (0, 4 / 5)) /\
  Mmul (proj ((3 / 5, 0), (0, 4 / 5))) (proj ((3 / 5, 0), (0, 4 / 5))) =
    proj ((3 / 5, 0), (0, 4 / 5)) /\
  Mvec (proj ((3 / 5, 0), (0, 4 / 5))) ((3 / 5, 0), (0, 4 / 5)) =
    ((3 / 5, 0), (0, 4 / 5)) /\
  Mvec (proj ((3 / 5, 0), (0, 4 / 5))) (perp ((3 / 5, 0), (0, 4 / 5))) = (C0, C0).
Proof.
  assert (Hn : Vnorm2 ((3 / 5, 0), (0, 4 / 5)) = 1) by (calg; field).
  destruct (proj_is_orthogonal_projector ((3 / 5, 0), (0, 4 / 5)) (C1, C1))
    as [H1 [H2 H3]].
  destruct (H3 Hn) as [H4 [H5 H6]].
  split; [exact Hn|]. split; [exact H1|]. split; [exact H2|].
  split; [exact H4|]. split; [exact H5 | exact H6].
Defined.

Lemma Mvec_two_phase (alpha beta : C) (P : M2) (w : V2) :
  Mvec (Madd (Mscale alpha P) (Mscale beta (Msub eye2 P))) w =
  ((alpha * fst (Mvec P w) + beta * (fst w - fst (Mvec P w)))%C,
   (alpha * snd (Mvec P w) + beta * (snd w - snd (Mvec P w)))%C).
Proof.
  destruct P as [[p0 p1] [p2 p3] [p4 p5] [p6 p7]], w as [[c0 c1] [d0 d1]],
           alpha as [a0 a1], beta as [b0 b1]. calg. csplit; csplit; ring.
Qed.

Lemma skew_drawn_1 : drawn_vec skew_gen = ((1 / 2, 0), (0, 0)).
Proof. unfold drawn_vec, skew_gen. calg. csplit; csplit; ring. Qed.

Lemma skew_norm_1 : Vnorm (drawn_vec skew_gen) = 1 / 2.
Proof.
  rewrite skew_drawn_1. unfold Vnorm. calg.
  replace (1 / 2 * (1 / 2) + 0 * 0 + (0 * 0 + 0 * 0)) with (1 / 4) by field.
  apply sqrt_quarter.
Qed.

Lemma skew_eigvec_1 : eigvec_1_of skew_gen = (C1, C0).
Proof.
  unfold eigvec_1_of, random_vec. rewrite skew_norm_1, skew_drawn_1.
  calg. csplit; csplit; field.
Qed.

Lemma skew_drawn_2 : drawn_vec (advance 4 skew_gen) = ((1 / 2, 0), (1 / 2, 0)).
Proof. unfold drawn_vec, skew_gen, advance. cbn [Nat.add]. calg. csplit; csplit; ring. Qed.

(** The second draw of [skew_gen] is not orthogonal to the first, and its
    projection is not zero. *)
Lemma skew_draws :
  Vnorm (drawn_vec (gen skew_world)) <> 0 /\
  Vnorm (projected_of (gen skew_world)) <> 0 /\
  Vdot (eigvec_1_of (gen skew_world)) (random_vec (advance 4 (gen skew_world))) <> C0.
Proof.
  change (gen skew_world) with skew_gen.
  assert (Hn : 0 < Vnorm (drawn_vec (advance 4 skew_gen))).
  { rewrite skew_drawn_2. unfold Vnorm. apply sqrt_lt_R0. calg. lra. }
  split; [rewrite skew_norm_1; lra|].
  unfold projected_of. rewrite skew_eigvec_1. unfold random_vec.
  set (n := Vnorm (drawn_vec (advance 4 skew_gen))) in *. clearbody n.
  rewrite skew_drawn_2.
  assert (Hh : 0 < / n) by (apply Rinv_0_lt_compat, Hn).
  split.
  - unfold Vnorm. apply Rgt_not_eq, sqrt_lt_R0. calg. unfold Rdiv.
    set (h := / n) in *. clearbody h. nra.
  - calg. unfold Rdiv. set (h := / n) in *. clearbody h.
    intros E. injection E as E _. nra.
Qed.




(** X3: whenever [create_unitary] returns (its assertion passed) on draws
    that do not degenerate, the array it returns has the two columns it
    was built from as eigen-columns, with eigenvalues
    [e^(2 pi i phases[0])] and [e^(2 pi i phases[1])]. *)
Theorem create_unitary_eigenpairs (a b : R) (s : world) (U : M2) (s' : world) :
  Vnorm (drawn_vec (gen s)) <> 0 ->
  Vnorm (projected_of (gen s)) <> 0 ->
  create_unitary [a; b] s = Ok (U, s') ->
  Mvec U (eigvec_1_of (gen s)) = Vscale (phase_factor a) (eigvec_1_of (gen s)) /\
  Mvec U (eigvec_2_of (gen s)) = Vscale (phase_factor b) (eigvec_2_of (gen s)).
Proof.
  intros H1 H3 Hrun.
  rewrite (create_unitary_run a b s H1 H3) in Hrun. injection Hrun as <- _.
  assert (Hu : Vnorm2 (eigvec_1_of (gen s)) = 1) by (apply Vnorm2_normalized, H1).
  assert (Ho : Vdot (eigvec_1_of (gen s)) (eigvec_2_of (gen s)) = C0)
    by (apply Vdot_projected, Hu).
  assert (Hp : proj (eigvec_2_of (gen s)) = Msub eye2 (proj (eigvec_1_of (gen s))))
    by (apply proj_eigvec_2; assumption).
  rewrite Hp, !Mvec_two_phase, !proj_apply, Ho, Vdot_self, Hu.
  rewrite Vscale_RtoC_one, Vscale_zero.
  generalize (eigvec_1_of (gen s)) (eigvec_2_of (gen s))
             (phase_factor a) (phase_factor b).
  intros [[x0 x1] [x2 x3]] [[y0 y1] [y2 y3]] [a0 a1] [b0 b1].
  split; calg; csplit; csplit; ring.
Qed.

Lemma create_unitary_eigenpairs_witness :
  Mvec (Madd (Mscale (phase_factor (1 / 4)) (proj (eigvec_1_of (gen skew_world))))
             (Mscale (phase_factor (7 / 8)) (proj (eigvec_2_of (gen skew_world)))))
       (eigvec_1_of (gen skew_world)) =
    Vscale (phase_factor (1 / 4)) (eigvec_1_of (gen skew_world)) /\
  Mvec (Madd (Mscale (phase_factor (1 / 4)) (proj (eigvec_1_of (gen skew_world))))
             (Mscale (phase_factor (7 / 8)) (proj (eigvec_2_of (gen skew_world)))))
       (eigvec_2_of (gen skew_world)) =
    Vscale (phase_factor (7 / 8)) (eigvec_2_of (gen skew_world)).
Proof.
  apply (create_unitary_eigenpairs (1 / 4) (7 / 8) skew_world _
           (mkWorld (advance 8 (gen skew_world)) (queue skew_world))).
  - apply skew_draws.
  - apply skew_draws.
  - apply create_unitary_run; apply skew_draws.
Defined.

(** Shape of any run of [create_unitary], whatever the draws. *)
Lemma create_unitary_unfold (phases : list R) (s : world) :
  create_unitary phases s =
  match nth_error phases 0, nth_error phases 1 with
  | Some p0, Some p1 =>
      if allclose eye2
           (Mmul (Mdag (Madd (Mscale (phase_factor p0) (proj (eigvec_1_of (gen s))))
                             (Mscale (phase_factor p1) (proj (eigvec_2_of (gen s))))))
                 (Madd (Mscale (phase_factor p0) (proj (eigvec_1_of (gen s))))
                       (Mscale (phase_factor p1) (proj (eigvec_2_of (gen s))))))
      then Ok (Madd (Mscale (phase_factor p0) (proj (eigvec_1_of (gen s))))
                    (Mscale (phase_factor p1) (proj (eigvec_2_of (gen s)))),
               mkWorld (advance 8 (gen s)) (queue s))
      else Raise AssertionError
  | _, _ => Raise IndexError
  end.
Proof.
  unfold create_unitary, bind at 1. rewrite create_random_vec_2.
  unfold as_col2, bind at 1, ret at 1. unfold bind at 1.
  rewrite create_random_vec_2. cbn [gen queue].
  unfold bind at 1, ret at 1. unfold item, bind, ret, raise.
  change (fst (random_vec (gen s)), snd (random_vec (gen s)))
    with (let v := random_vec (gen s) in (fst v, snd v)).
  cbv zeta. rewrite <- !surjective_pairing.
  change (random_vec (gen s)) with (eigvec_1_of (gen s)).
  fold (projected_of (gen s)). fold (eigvec_2_of (gen s)).
  destruct (nth_error phases 0) as [p0|]; [|reflexivity].
  destruct (nth_error phases 1) as [p1|]; [|reflexivity].
  destruct (allclose _ _); reflexivity.
Qed.

(** X4: With fewer than two phases [create_unitary] raises IndexError (after
    its draws, before its assertion); entries of [phases] beyond the
    first two are never read. *)
Theorem create_unitary_phases_bounds (s : world) :
  create_unitary [] s = Raise IndexError /\
  (forall a, create_unitary [a] s = Raise IndexError) /\
  (forall a b rest, create_unitary (a :: b :: rest) s = create_unitary [a; b] s).
Proof.
  split; [|split]; intros; rewrite !create_unitary_unfold; reflexivity.
Qed.

(** X5: Whenever [create_unitary] returns, it has taken exactly eight samples
    from the generator and left the operator queue as it was. *)
Theorem create_unitary_effects (phases : list R) (s : world) (U : M2) (s' : world) :
  create_unitary phases s = Ok (U, s') ->
  s' = mkWorld (advance 8 (gen s)) (queue s).
Proof.
  rewrite create_unitary_unfold.
  destruct (nth_error phases 0); [|discriminate].
  destruct (nth_error phases 1); [|discriminate].
  destruct (allclose _ _); [|discriminate].
  intros H. injection H as _ H. symmetry. exact H.
Qed.

Lemma create_unitary_effects_witness :
  exists U s',
    create_unitary [1 / 4; 7 / 8] demo_world = Ok (U, s') /\
    s' = mkWorld (advance 8 (gen demo_world)) (queue demo_world).
Proof.
  assert (H1 : Vnorm (drawn_vec (gen demo_world)) <> 0)
    by (cbn [gen demo_world]; rewrite demo_norm_1; lra).
  assert (H3 : Vnorm (projected_of (gen demo_world)) <> 0)
    by (cbn [gen demo_world]; rewrite demo_projected_norm; lra).
  eexists. eexists. split; [apply (create_unitary_run (1 / 4) (7 / 8) _ H1 H3)|].
  apply (create_unitary_effects [1 / 4; 7 / 8] demo_world _ _
           (create_unitary_run (1 / 4) (7 / 8) _ H1 H3)).
Defined.

(** X6: with two equal phases, whenever [create_unitary] returns on draws
    that do not degenerate, its result does not depend on the drawn
    vectors: it is the scalar array [e^(2 pi i a) I]. *)
Theorem create_unitary_equal_phases (a : R) (s : world) (U : M2) (s' : world) :
  Vnorm (drawn_vec (gen s)) <> 0 ->
  Vnorm (projected_of (gen s)) <> 0 ->
  create_unitary [a; a] s = Ok (U, s') ->
  U = Mscale (phase_factor a) eye2.
Proof.
  intros H1 H3 Hrun.
  rewrite (create_unitary_run a a s H1 H3) in Hrun. injection Hrun as <- _.
  assert (Hu : Vnorm2 (eigvec_1_of (gen s)) = 1) by (apply Vnorm2_normalized, H1).
  assert (Hp : proj (eigvec_2_of (gen s)) = Msub eye2 (proj (eigvec_1_of (gen s))))
    by (apply proj_eigvec_2; assumption).
  rewrite Hp. generalize (proj (eigvec_1_of (gen s))) (phase_factor a).
  intros [[p0 p1] [p2 p3] [p4 p5] [p6 p7]] [a0 a1]. mring.
Qed.

Lemma create_unitary_equal_phases_witness :
  Madd (Mscale (phase_factor (1 / 4)) (proj (eigvec_1_of (gen skew_world))))
       (Mscale (phase_factor (1 / 4)) (proj (eigvec_2_of (gen skew_world)))) =
  Mscale (phase_factor (1 / 4)) eye2.
Proof.
  apply (create_unitary_equal_phases (1 / 4) skew_world _
           (mkWorld (advance 8 (gen skew_world)) (queue skew_world))).
  - apply skew_draws.
  - apply skew_draws.
  - apply create_unitary_run; apply skew_draws.
Defined.

End MoreRandomUnitary.

Section MoreRandomVec.
Import RandomUnitary.

Lemma complex_of_map {A} (f h : A -> R) (l : list A) :
  complex_of (map f l) (map h l) =
  map (fun k => (RtoC (f k) + Ci * RtoC (h k))%C) l.
Proof. induction l as [|x l IH]; simpl; [reflexivity | now rewrite IH]. Qed.

Lemma sumsq_nonneg (l : list C) :
  0 <= fold_right (fun z acc => Cnorm2 z + acc) 0 l.
Proof.
  induction l as [|z l IH]; simpl; [lra|].
  pose proof (Cnorm2_nonneg z). lra.
Qed.

Lemma sumsq_member (z : C) (l : list C) :
  In z l -> Cnorm2 z <= fold_right (fun z acc => Cnorm2 z + acc) 0 l.
Proof.
  induction l as [|x l IH]; intros H; [contradiction|]. simpl.
  pose proof (sumsq_nonneg l). pose proof (Cnorm2_nonneg x).
  destruct H as [-> | H]; [lra|]. specialize (IH H). lra.
Qed.

Lemma sumsq_divr (l : list C) (r : R) :
  r <> 0 ->
  fold_right (fun z acc => Cnorm2 z + acc) 0 (map (fun z => Cdivr z r) l) =
  fold_right (fun z acc => Cnorm2 z + acc) 0 l / (r * r).
Proof.
  intros Hr. induction l as [|[x y] l IH]; simpl.
  - field. exact Hr.
  - rewrite IH. calg. field. exact Hr.
Qed.

Lemma Cnorm2_complex_of (x y : R) : Cnorm2 (RtoC x + Ci * RtoC y) = x * x + y * y.
Proof. calg. ring. Qed.

Lemma create_random_vec_run (dim : nat) (s : world) :
  create_random_vec dim s =
  Ok (map (fun z => Cdivr z (lnorm (complex_of (map (gen s) (seq 0 dim))
                                      (map (advance dim (gen s)) (seq 0 dim)))))
          (complex_of (map (gen s) (seq 0 dim))
                      (map (advance dim (gen s)) (seq 0 dim))),
      mkWorld (advance dim (advance dim (gen s))) (queue s)).
Proof. reflexivity. Qed.

(** X2: [create_random_vec(dim)] never raises; it returns [dim] entries,
    takes exactly [2 * dim] samples from the generator and leaves the
    queue alone; and unless all the samples it took are zero, the array
    it returns has norm 1 and its entry [k] is
    [(sample k + 1j * sample (dim + k)) / norm]: the real parts are the
    first [dim] samples, the imaginary parts the next [dim]. *)
Theorem create_random_vec_unit (dim : nat) (s : world) :
  exists v s',
    create_random_vec dim s = Ok (v, s') /\
    length v = dim /\
    queue s' = queue s /\
    (forall n, gen s' n = gen s (2 * dim + n)%nat) /\
    ((exists k, (k < 2 * dim)%nat /\ gen s k <> 0) ->
     lnorm v = 1 /\
     forall k, (k < dim)%nat ->
       nth k v C0 =
       Cdivr (gen s k, gen s (dim + k)%nat)
             (lnorm (map (fun i => (gen s i, gen s (dim + i)%nat)) (seq 0 dim)))).
Proof.
  eexists. eexists. split; [apply create_random_vec_run|]. cbn [gen queue].
  rewrite complex_of_map.
  split; [rewrite !length_map, length_seq; reflexivity|].
  split; [reflexivity|].
  split; [intros n; unfold advance; f_equal; lia|].
  intros [k [Hk Hg]].
  assert (Ev : map (fun k0 => (RtoC (gen s k0) + Ci * RtoC (advance dim (gen s) k0))%C)
                   (seq 0 dim) =
               map (fun i => (gen s i, gen s (dim + i)%nat)) (seq 0 dim)).
  { apply map_ext. intros i. unfold advance. calg. csplit; ring. }
  rewrite Ev.
  set (vec := map (fun i => (gen s i, gen s (dim + i)%nat)) (seq 0 dim)).
  assert (Hpos : 0 < fold_right (fun z acc => Cnorm2 z + acc) 0 vec).
  { assert (Hj : exists j, (j < dim)%nat /\
                  0 < Cnorm2 (gen s j, gen s (dim + j)%nat)).
    { destruct (Nat.lt_ge_cases k dim) as [Hlt | Hge].
      - exists k. split; [exact Hlt|]. calg. nra.
      - exists (k - dim)%nat. split; [lia|]. calg.
        replace (dim + (k - dim))%nat with k by lia. nra. }
    destruct Hj as [j [Hj Hz]].
    eapply Rlt_le_trans; [exact Hz|]. apply sumsq_member.
    unfold vec. apply in_map_iff. exists j. split; [reflexivity|].
    apply in_seq. lia. }
  assert (Hr : lnorm vec <> 0).
  { unfold lnorm. apply Rgt_not_eq, sqrt_lt_R0, Hpos. }
  split.
  - unfold lnorm at 1. rewrite sumsq_divr by exact Hr.
    unfold lnorm. rewrite sqrt_sqrt by lra.
    replace (fold_right (fun z acc => Cnorm2 z + acc) 0 vec /
             fold_right (fun z acc => Cnorm2 z + acc) 0 vec) with 1 by (field; lra).
    apply sqrt_1.
  - intros i Hi.
    rewrite (nth_indep _ C0 (Cdivr C0 (lnorm vec)))
      by (rewrite length_map; unfold vec; rewrite length_map, length_seq; exact Hi).
    rewrite (map_nth (fun z => Cdivr z (lnorm vec))). f_equal. unfold vec.
    rewrite (nth_indep _ C0 ((fun i0 => (gen s i0, gen s (dim + i0)%nat)) 0%nat))
      by (rewrite length_map, length_seq; exact Hi).
    rewrite (map_nth (fun i0 => (gen s i0, gen s (dim + i0)%nat))).
    rewrite seq_nth by exact Hi. reflexivity.
Qed.

End MoreRandomVec.

(** ** The circuit on a unitary with two exactly representable phases *)

Section TwoPeaks.
Import Simulator QPE RandomUnitary Hamiltonian.

Lemma Mmul_complement_r (P : M2) :
  Mmul P (Msub eye2 P) = Msub P (Mmul P P).
Proof. destruct P as [[p0 p1] [p2 p3] [p4 p5] [p6 p7]]. mring. Qed.

Lemma Mmul_complement_l (P : M2) :
  Mmul (Msub eye2 P) P = Msub P (Mmul P P).
Proof. destruct P as [[p0 p1] [p2 p3] [p4 p5] [p6 p7]]. mring. Qed.

Lemma Mmul_complement_both (P : M2) :
  Mmul (Msub eye2 P) (Msub eye2 P) = Msub (Msub eye2 P) (Msub P (Mmul P P)).
Proof. destruct P as [[p0 p1] [p2 p3] [p4 p5] [p6 p7]]. mring. Qed.

Lemma Msub_self (P : M2) : Msub P P = Mzero.
Proof. destruct P as [[p0 p1] [p2 p3] [p4 p5] [p6 p7]]. unfold Mzero. mring. Qed.

Lemma Msub_zero (P : M2) : Msub P Mzero = P.
Proof. destruct P as [[p0 p1] [p2 p3] [p4 p5] [p6 p7]]. unfold Mzero. mring. Qed.

Lemma Madd_complement (P : M2) : Madd P (Msub eye2 P) = eye2.
Proof. destruct P as [[p0 p1] [p2 p3] [p4 p5] [p6 p7]]. mring. Qed.

(** The complement of a projector is a projector, orthogonal to it. *)
Lemma projector_complement (P : M2) :
  Mmul P P = P ->
  Madd P (Msub eye2 P) = eye2 /\
  Mmul P (Msub eye2 P) = Mzero /\
  Mmul (Msub eye2 P) P = Mzero /\
  Mmul (Msub eye2 P) (Msub eye2 P) = Msub eye2 P.
Proof.
  intros HP. split; [apply Madd_complement|].
  rewrite Mmul_complement_r, Mmul_complement_l, Mmul_complement_both, HP.
  rewrite Msub_self, Msub_zero. auto.
Qed.

Lemma vent_Mvec_comb (a b : C) (P Q : M2) (v : V2) (s : bool) :
  vent (Mvec (Madd (Mscale a P) (Mscale b Q)) v) s =
  (a * vent (Mvec P v) s + b * vent (Mvec Q v) s)%C.
Proof.
  destruct P as [p0 p1 p2 p3], Q as [q0 q1 q2 q3], v as [v0 v1].
  destruct s; cbn [vent Mvec Madd Mscale fst snd m00 m01 m10 m11]; ring.
Qed.

(** The inverse transform of a phase ramp of frequency [i] is the basis
    state [i]. *)
Lemma qft_phase_sum (m i j : nat) (a : C) :
  (i < 2 ^ m)%nat -> (j < 2 ^ m)%nat ->
  Csum (2 ^ m)
       (fun k => (adjoint_matrix (QFT_matrix m) j k *
                  (Cpow (phase_factor (INR i / 2 ^ m)) k * a *
                   Cpow (RtoC (/ sqrt 2)) m))%C) =
  (a * (if Nat.eqb i j then C1 else C0))%C.
Proof.
  intros Hi Hj. pose proof (pow2_R_pos m) as Hp.
  rewrite (Csum_ext _ _
    (fun k => (RtoC (/ 2 ^ m) * a *
               Cexpi (2 * PI * (INR i - INR j) / INR (2 ^ m) * INR k))%C))
    by (intros k _; apply qft_term).
  rewrite Csum_scale, Csum_roots by assumption.
  destruct (Nat.eqb i j).
  - rewrite INR_pow2. destruct a as [a0 a1]. calg. csplit; field; lra.
  - ring.
Qed.

(** The amplitudes after the whole circuit for a unitary
    [e^(2 pi i i1/2^m) P + e^(2 pi i i2/2^m) (I - P)]. *)
Lemma two_peak_amplitude (P : M2) (ws : list wire) (t1 t2 : R) (i1 i2 : nat)
    (s : bool) (x : basis) :
  Mmul P P = P -> NoDup (0%nat :: ws) ->
  (i1 < 2 ^ length ws)%nat -> (i2 < 2 ^ length ws)%nat ->
  length x = length ws ->
  run (0%nat :: ws)
      ([RY t1 0%nat; RZ t2 0%nat] ++ map Hadamard ws ++
       [ControlledSequence
          (Madd (Mscale (phase_factor (INR i1 / 2 ^ length ws)) P)
                (Mscale (phase_factor (INR i2 / 2 ^ length ws)) (Msub eye2 P)))
          0%nat ws;
        AdjointQFT ws]) zero_state (s :: x) =
  (vent (Mvec P (Mvec (RZ_matrix t2) (Mvec (RY_matrix t1) (C1, C0)))) s *
     (if Nat.eqb i1 (val x) then C1 else C0) +
   vent (Mvec (Msub eye2 P) (Mvec (RZ_matrix t2) (Mvec (RY_matrix t1) (C1, C0)))) s *
     (if Nat.eqb i2 (val x) then C1 else C0))%C.
Proof.
  intros HP Hnd Hi1 Hi2 Hx.
  destruct (projector_complement P HP) as [H1 [H2 [H3 H4]]].
  set (v := Mvec (RZ_matrix t2) (Mvec (RY_matrix t1) (C1, C0))).
  set (al := phase_factor (INR i1 / 2 ^ length ws)).
  set (be := phase_factor (INR i2 / 2 ^ length ws)).
  rewrite !run_app. unfold run at 1. cbn [fold_left].
  rewrite adjoint_qft_sem by assumption.
  assert (Hj : (val x < 2 ^ length ws)%nat) by (rewrite <- Hx; apply val_lt).
  rewrite (Csum_ext _ _
    (fun k =>
       (adjoint_matrix (QFT_matrix (length ws)) (val x) k *
          (Cpow al k * vent (Mvec P v) s * Cpow (RtoC (/ sqrt 2)) (length ws)) +
        adjoint_matrix (QFT_matrix (length ws)) (val x) k *
          (Cpow be k * vent (Mvec (Msub eye2 P) v) s *
           Cpow (RtoC (/ sqrt 2)) (length ws)))%C)).
  - rewrite Csum_add. unfold al, be.
    rewrite !qft_phase_sum by assumption. reflexivity.
  - intros k Hk.
    rewrite after_ladder by (try assumption; apply length_bits).
    rewrite val_bits by exact Hk. fold v.
    rewrite (Mpow_comb P (Msub eye2 P) H1 H2 H3 HP H4), vent_Mvec_comb. ring.
Qed.

Lemma Vdot_images (P Q : M2) (v w : V2) :
  Vdot (Mvec P v) (Mvec Q w) = Vdot v (Mvec (Mmul (Mdag P) Q) w).
Proof.
  destruct P as [[p0 p1] [p2 p3] [p4 p5] [p6 p7]],
           Q as [[q0 q1] [q2 q3] [q4 q5] [q6 q7]],
           v as [[a0 a1] [b0 b1]], w as [[c0 c1] [d0 d1]].
  calg. csplit; ring.
Qed.

Lemma Mvec_zero (v : V2) : Mvec Mzero v = (C0, C0).
Proof. destruct v as [[a0 a1] [b0 b1]]. unfold Mzero. calg. csplit; csplit; ring. Qed.

Lemma Vdot_zero_r (v : V2) : Vdot v (C0, C0) = C0.
Proof. destruct v as [[a0 a1] [b0 b1]]. calg. csplit; ring. Qed.

(** Pythagoras for the two images of a Hermitian projector. *)
Lemma projector_pythagoras (P : M2) (v : V2) :
  Mdag P = P -> Mmul P P = P ->
  Cnorm2 (vent (Mvec P v) false + vent (Mvec (Msub eye2 P) v) false) +
  Cnorm2 (vent (Mvec P v) true + vent (Mvec (Msub eye2 P) v) true) =
  Vnorm2 (Mvec P v) + Vnorm2 (Mvec (Msub eye2 P) v) /\
  Vnorm2 (Mvec P v) + Vnorm2 (Mvec (Msub eye2 P) v) = Vnorm2 v.
Proof.
  intros Hd HP. destruct (projector_complement P HP) as [_ [H2 _]].
  pose proof (Vdot_images P (Msub eye2 P) v v) as E.
  rewrite Hd, H2, Mvec_zero, Vdot_zero_r in E.
  assert (Es : (vent (Mvec P v) false + vent (Mvec (Msub eye2 P) v) false,
                vent (Mvec P v) true + vent (Mvec (Msub eye2 P) v) true)%C = v).
  { destruct P as [[p0 p1] [p2 p3] [p4 p5] [p6 p7]], v as [[a0 a1] [b0 b1]].
    calg. csplit; csplit; ring. }
  assert (Ec : Cnorm2 (vent (Mvec P v) false + vent (Mvec (Msub eye2 P) v) false) +
               Cnorm2 (vent (Mvec P v) true + vent (Mvec (Msub eye2 P) v) true) =
               Vnorm2 (Mvec P v) + Vnorm2 (Mvec (Msub eye2 P) v)).
  { revert E. generalize (Mvec P v) (Mvec (Msub eye2 P) v).
    intros [[a0 a1] [b0 b1]] [[c0 c1] [d0 d1]]. calg. intros E.
    injection E as E1 E2. nsatz. }
  split; [exact Ec|]. rewrite <- Ec.
  pose proof (f_equal fst Es) as Es0. pose proof (f_equal snd Es) as Es1.
  cbn [fst snd] in Es0, Es1. rewrite Es0, Es1. destruct v; reflexivity.
Qed.

(** For a unitary [e^(2 pi i i1/2^m) P + e^(2 pi i i2/2^m) (I - P)], [P] a
    Hermitian projector, what [circuit] returns has on bitstring [i1]
    the squared norm of the [P]-part of the prepared state, on [i2] that
    of the [(I - P)]-part, and 0 anywhere else. *)
Lemma two_peak_distribution (P : M2) (ws : list wire) (i1 i2 : nat) (s : world)
    (p : list R) (s' : world) :
  Mdag P = P -> Mmul P P = P ->
  (i1 < 2 ^ length ws)%nat -> (i2 < 2 ^ length ws)%nat ->
  circuit (Madd (Mscale (phase_factor (INR i1 / 2 ^ length ws)) P)
                (Mscale (phase_factor (INR i2 / 2 ^ length ws)) (Msub eye2 P)))
          ws s = Ok (p, s') ->
  length p = (2 ^ length ws)%nat /\
  forall j, (j < 2 ^ length ws)%nat ->
    nth j p 0 =
    (if Nat.eqb j i1 then Vnorm2 (Mvec P (prepared (gen s))) else 0) +
    (if Nat.eqb j i2 then Vnorm2 (Mvec (Msub eye2 P) (prepared (gen s))) else 0).
Proof.
  intros Hd HP Hi1 Hi2 Hrun.
  destruct (circuit_returned _ ws s p s' Hrun) as [Hnd [Hm [_ [Hlen Hp]]]].
  split; [exact Hlen|].
  intros j Hj. rewrite (Hp j Hj).
  rewrite !(two_peak_amplitude P ws _ _ i1 i2 _ _ HP Hnd Hi1 Hi2 (length_bits _ _)).
  rewrite val_bits by exact Hj. fold (prepared (gen s)).
  destruct (projector_pythagoras P (prepared (gen s)) Hd HP) as [Epy _].
  rewrite (Nat.eqb_sym j i1), (Nat.eqb_sym j i2).
  revert Epy. unfold Vnorm2.
  generalize (Mvec P (prepared (gen s))) (Mvec (Msub eye2 P) (prepared (gen s))).
  intros [[a0 a1] [b0 b1]] [[c0 c1] [d0 d1]].
  destruct (Nat.eqb i1 j), (Nat.eqb i2 j); calg; intros Epy; try ring.
  rewrite <- Epy. ring.
Qed.

Lemma Mdag_eye : Mdag eye2 = eye2.
Proof. mring. Qed.

End TwoPeaks.

(** ** The first run cell: [create_unitary] followed by [circuit] *)

Section ExactPhasesCell.
Import Simulator QPE RandomUnitary Hamiltonian.

Lemma Vnorm2_proj_apply (e v : V2) :
  Vnorm2 e = 1 -> Vnorm2 (Mvec (proj e) v) = Cnorm2 (Vdot e v).
Proof. intros He. rewrite proj_apply, Vnorm2_scale, He. ring. Qed.

(** What a run of the two calls returned, once [create_unitary] has
    returned on draws that do not degenerate. *)
Lemma cell_returned (a b : R) (ws : list wire) (s : world) (p : list R) (s' : world) :
  Vnorm (drawn_vec (gen s)) <> 0 ->
  Vnorm (projected_of (gen s)) <> 0 ->
  bind (create_unitary [a; b]) (fun unitary => circuit unitary ws) s = Ok (p, s') ->
  circuit (Madd (Mscale (phase_factor a) (proj (eigvec_1_of (gen s))))
                (Mscale (phase_factor b) (Msub eye2 (proj (eigvec_1_of (gen s))))))
          ws (mkWorld (advance 8 (gen s)) (queue s)) = Ok (p, s').
Proof.
  intros H1 H3 Hrun.
  assert (Hu : Vnorm2 (eigvec_1_of (gen s)) = 1) by (apply Vnorm2_normalized, H1).
  assert (Hp : proj (eigvec_2_of (gen s)) = Msub eye2 (proj (eigvec_1_of (gen s))))
    by (apply proj_eigvec_2; assumption).
  unfold bind in Hrun. rewrite (create_unitary_run a b s H1 H3), Hp in Hrun.
  exact Hrun.
Qed.

(** The run of the two calls in exact arithmetic, for the worked examples. *)
Lemma cell_run (a b : R) (ws : list wire) (s : world) :
  Vnorm (drawn_vec (gen s)) <> 0 ->
  Vnorm (projected_of (gen s)) <> 0 ->
  NoDup (0%nat :: ws) -> (1 <= length ws)%nat ->
  bind (create_unitary [a; b]) (fun unitary => circuit unitary ws) s =
  Ok (execute
        ([RY (2 * PI * advance 8 (gen s) 0%nat) 0%nat;
          RZ (2 * PI * advance 8 (gen s) 1%nat) 0%nat] ++
         map Hadamard ws ++
         [ControlledSequence
            (Madd (Mscale (phase_factor a) (proj (eigvec_1_of (gen s))))
                  (Mscale (phase_factor b) (proj (eigvec_2_of (gen s)))))
            0%nat ws;
          AdjointQFT ws]) ws,
      mkWorld (advance 2 (advance 8 (gen s))) (queue s)).
Proof.
  intros H1 H3 Hnd Hm. unfold bind. rewrite (create_unitary_run a b s H1 H3).
  rewrite (circuit_run _ ws _ Hnd Hm). cbn [gen queue]. reflexivity.
Qed.

Lemma wires_123_nodup : NoDup (0 :: [1; 2; 3])%nat.
Proof. repeat constructor; simpl; intuition lia. Qed.

Lemma three_wires : (1 <= length [1; 2; 3]%nat)%nat.
Proof. simpl. lia. Qed.

(** X10: whenever the two calls of the first run cell return
    ([create_unitary] on two phases [i1/2^m] and [i2/2^m], draws that do
    not degenerate, then [circuit] on the result), the array returned
    follows the Born rule of the prepared state in the drawn eigenbasis:
    bitstring [i1] has probability [|<e1|psi>|^2], bitstring [i2] has
    [|<e2|psi>|^2], and the other bitstrings have 0. *)
Theorem exact_phases_born_rule (ws : list wire) (i1 i2 : nat) (s : world)
    (p : list R) (s' : world) :
  Vnorm (drawn_vec (gen s)) <> 0 ->
  Vnorm (projected_of (gen s)) <> 0 ->
  (i1 < 2 ^ length ws)%nat -> (i2 < 2 ^ length ws)%nat ->
  bind (create_unitary [INR i1 / 2 ^ length ws; INR i2 / 2 ^ length ws])
       (fun unitary => circuit unitary ws) s = Ok (p, s') ->
  length p = (2 ^ length ws)%nat /\
  forall j, (j < 2 ^ length ws)%nat ->
    nth j p 0 =
    (if Nat.eqb j i1
     then Cnorm2 (Vdot (eigvec_1_of (gen s)) (prepared (advance 8 (gen s))))
     else 0) +
    (if Nat.eqb j i2
     then Cnorm2 (Vdot (eigvec_2_of (gen s)) (prepared (advance 8 (gen s))))
     else 0).
Proof.
  intros H1 H3 Hi1 Hi2 Hrun.
  assert (Hu : Vnorm2 (eigvec_1_of (gen s)) = 1) by (apply Vnorm2_normalized, H1).
  assert (Hu2 : Vnorm2 (eigvec_2_of (gen s)) = 1) by (apply Vnorm2_normalized, H3).
  assert (Hp : proj (eigvec_2_of (gen s)) = Msub eye2 (proj (eigvec_1_of (gen s))))
    by (apply proj_eigvec_2; assumption).
  destruct (two_peak_distribution (proj (eigvec_1_of (gen s))) ws i1 i2 _ p s'
              (Mdag_proj _) (proj_idem _ Hu) Hi1 Hi2
              (cell_returned _ _ ws s p s' H1 H3 Hrun))
    as [Hlen Hp'].
  split; [exact Hlen|].
  intros j Hj. rewrite (Hp' j Hj). cbn [gen].
  rewrite <- Hp, !Vnorm2_proj_apply by assumption. reflexivity.
Qed.

(** X11: when both phases are the same [i/2^m], whatever the two calls
    return (on draws that do not degenerate) puts probability 1 on
    bitstring [i] and 0 on the others, whichever vectors and state were
    drawn. *)
Theorem equal_phases_certain (ws : list wire) (i : nat) (s : world)
    (p : list R) (s' : world) :
  Vnorm (drawn_vec (gen s)) <> 0 ->
  Vnorm (projected_of (gen s)) <> 0 ->
  (i < 2 ^ length ws)%nat ->
  bind (create_unitary [INR i / 2 ^ length ws; INR i / 2 ^ length ws])
       (fun unitary => circuit unitary ws) s = Ok (p, s') ->
  length p = (2 ^ length ws)%nat /\
  forall j, (j < 2 ^ length ws)%nat ->
    nth j p 0 = if Nat.eqb j i then 1 else 0.
Proof.
  intros H1 H3 Hi Hrun.
  assert (Hu : Vnorm2 (eigvec_1_of (gen s)) = 1) by (apply Vnorm2_normalized, H1).
  destruct (two_peak_distribution (proj (eigvec_1_of (gen s))) ws i i _ p s'
              (Mdag_proj _) (proj_idem _ Hu) Hi Hi
              (cell_returned _ _ ws s p s' H1 H3 Hrun))
    as [Hlen Hp'].
  split; [exact Hlen|].
  intros j Hj. rewrite (Hp' j Hj). cbn [gen].
  destruct (projector_pythagoras (proj (eigvec_1_of (gen s)))
              (prepared (advance 8 (gen s))) (Mdag_proj _) (proj_idem _ Hu))
    as [_ Epy].
  rewrite prepared_unit in Epy.
  destruct (Nat.eqb j i); lra.
Qed.

Lemma exact_phases_born_rule_witness :
  exists p s',
    bind (create_unitary [INR 2 / 2 ^ length [1; 2; 3]%nat;
                          INR 7 / 2 ^ length [1; 2; 3]%nat])
         (fun unitary => circuit unitary [1; 2; 3]%nat) skew_world = Ok (p, s') /\
    length p = (2 ^ length [1; 2; 3]%nat)%nat /\
    forall j, (j < 2 ^ length [1; 2; 3]%nat)%nat ->
      nth j p 0 =
      (if Nat.eqb j 2
       then Cnorm2 (Vdot (eigvec_1_of (gen skew_world))
                         (prepared (advance 8 (gen skew_world))))
       else 0) +
      (if Nat.eqb j 7
       then Cnorm2 (Vdot (eigvec_2_of (gen skew_world))
                         (prepared (advance 8 (gen skew_world))))
       else 0).
Proof.
  pose proof (cell_run (INR 2 / 2 ^ length [1; 2; 3]%nat)
                (INR 7 / 2 ^ length [1; 2; 3]%nat) [1; 2; 3]%nat skew_world
                (proj1 skew_draws) (proj1 (proj2 skew_draws)) wires_123_nodup
                three_wires) as Hrun.
  assert (H2 : (2 < 2 ^ length [1; 2; 3]%nat)%nat) by (simpl; lia).
  assert (H7 : (7 < 2 ^ length [1; 2; 3]%nat)%nat) by (simpl; lia).
  eexists. eexists. split; [exact Hrun|].
  exact (exact_phases_born_rule [1; 2; 3]%nat 2 7 skew_world _ _
           (proj1 skew_draws) (proj1 (proj2 skew_draws)) H2 H7 Hrun).
Defined.

Lemma equal_phases_certain_witness :
  exists p s',
    bind (create_unitary [INR 5 / 2 ^ length [1; 2; 3]%nat;
                          INR 5 / 2 ^ length [1; 2; 3]%nat])
         (fun unitary => circuit unitary [1; 2; 3]%nat) skew_world = Ok (p, s') /\
    length p = (2 ^ length [1; 2; 3]%nat)%nat /\
    forall j, (j < 2 ^ length [1; 2; 3]%nat)%nat ->
      nth j p 0 = if Nat.eqb j 5 then 1 else 0.
Proof.
  pose proof (cell_run (INR 5 / 2 ^ length [1; 2; 3]%nat)
                (INR 5 / 2 ^ length [1; 2; 3]%nat) [1; 2; 3]%nat skew_world
                (proj1 skew_draws) (proj1 (proj2 skew_draws)) wires_123_nodup
                three_wires) as Hrun.
  assert (H5 : (5 < 2 ^ length [1; 2; 3]%nat)%nat) by (simpl; lia).
  eexists. eexists. split; [exact Hrun|].
  exact (equal_phases_certain [1; 2; 3]%nat 5 skew_world _ _
           (proj1 skew_draws) (proj1 (proj2 skew_draws)) H5 Hrun).
Defined.

End ExactPhasesCell.

(** ** [create_random_state] *)

Section MoreRandomState.
Import Simulator QPE.

Lemma create_random_state_run (s : world) :
  create_random_state s =
  Ok (tt, mkWorld (advance 2 (gen s))
            (queue s ++ [RY (2 * PI * gen s 0%nat) 0%nat;
                         RZ (2 * PI * gen s 1%nat) 0%nat])).
Proof.
  unfold create_random_state, bind, np_random_rand0, enqueue. cbn [gen queue].
  rewrite <- app_assoc. reflexivity.
Qed.

Lemma prepared_bloch (g : rng) :
  prepared g =
  ((Cexpi (- (PI * g 1%nat)) * RtoC (cos (PI * g 0%nat)))%C,
   (Cexpi (PI * g 1%nat) * RtoC (sin (PI * g 0%nat)))%C).
Proof.
  unfold prepared, RZ_matrix, RY_matrix.
  replace (2 * PI * g 0%nat / 2) with (PI * g 0%nat) by field.
  replace (- (2 * PI * g 1%nat) / 2) with (- (PI * g 1%nat)) by field.
  replace (2 * PI * g 1%nat / 2) with (PI * g 1%nat) by field.
  generalize (Cexpi (- (PI * g 1%nat))) (Cexpi (PI * g 1%nat)).
  intros [a0 a1] [b0 b1]. calg. csplit; csplit; ring.
Qed.

(** X7: [create_random_state] draws two samples [r1], [r2], records an RY by
    [2 pi r1] and an RZ by [2 pi r2] on wire 0 (in this order, after
    whatever was recorded before) and raises nothing.  The two operators
    take the all-zero state to the product state whose wire 0 holds
    [(e^(-i pi r2) cos(pi r1), e^(i pi r2) sin(pi r1))]: wire 0 reads 1
    with probability [sin^2(pi r1)], which the second sample does not
    change. *)
Theorem create_random_state_bloch (s : world) (ws : list wire) :
  create_random_state s =
    Ok (tt, mkWorld (advance 2 (gen s))
              (queue s ++ [RY (2 * PI * gen s 0%nat) 0%nat;
                           RZ (2 * PI * gen s 1%nat) 0%nat])) /\
  eqn (S (length ws))
      (run (0%nat :: ws)
           [RY (2 * PI * gen s 0%nat) 0%nat; RZ (2 * PI * gen s 1%nat) 0%nat]
           zero_state)
      (pstate (((Cexpi (- (PI * gen s 1%nat)) * RtoC (cos (PI * gen s 0%nat)))%C,
                (Cexpi (PI * gen s 1%nat) * RtoC (sin (PI * gen s 0%nat)))%C)
               :: repeat (C1, C0) (length ws))) /\
  Cnorm2 (Cexpi (- (PI * gen s 1%nat)) * RtoC (cos (PI * gen s 0%nat))) =
    (cos (PI * gen s 0%nat)) ^ 2 /\
  Cnorm2 (Cexpi (PI * gen s 1%nat) * RtoC (sin (PI * gen s 0%nat))) =
    (sin (PI * gen s 0%nat)) ^ 2.
Proof.
  split; [apply create_random_state_run|]. split; [|split].
  - rewrite <- prepared_bloch. apply prepared_stage. reflexivity.
  - rewrite Cnorm2_mul, Cexpi_norm. calg. ring.
  - rewrite Cnorm2_mul, Cexpi_norm. calg. ring.
Qed.

End MoreRandomState.

(** ** The circuit on phases that are not multiples of [1/2^m] *)

Section InexactPhases.
Import Simulator QPE RandomUnitary Hamiltonian Response.

Lemma qft_term_gen (m j k : nat) (theta : R) (a : C) :
  (adjoint_matrix (QFT_matrix m) j k *
   (Cpow (phase_factor theta) k * a * Cpow (RtoC (/ sqrt 2)) m))%C =
  (RtoC (/ 2 ^ m) * a *
   Cexpi (2 * PI * (theta - INR j / 2 ^ m) * INR k))%C.
Proof.
  pose proof (pow2_R_pos m) as Hp. pose proof (sqrt_pow_2_pos m) as Hs.
  unfold adjoint_matrix, QFT_matrix.
  rewrite Cconj_mul, Cconj_RtoC, Cexpi_conj.
  rewrite phase_factor_Cexpi, Cexpi_pow, Cpow_inv_sqrt2.
  replace (2 * PI * (theta - INR j / 2 ^ m) * INR k)
    with (- (2 * PI * INR (k * j) / 2 ^ m) + INR k * (2 * PI * theta))
    by (rewrite mult_INR; field; lra).
  rewrite Cexpi_add.
  replace (RtoC (/ 2 ^ m)) with (RtoC (/ sqrt (2 ^ m)) * RtoC (/ sqrt (2 ^ m)))%C.
  - ring.
  - rewrite <- (sqrt_pow_2_sqr m) at 3. calg. csplit; field; lra.
Qed.

Lemma qft_phase_sum_gen (m j : nat) (theta : R) (a : C) :
  Csum (2 ^ m)
       (fun k => (adjoint_matrix (QFT_matrix m) j k *
                  (Cpow (phase_factor theta) k * a *
                   Cpow (RtoC (/ sqrt 2)) m))%C) =
  (a * amplitude m theta j)%C.
Proof.
  rewrite (Csum_ext _ _
    (fun k => (RtoC (/ 2 ^ m) * a *
               Cexpi (2 * PI * (theta - INR j / 2 ^ m) * INR k))%C))
    by (intros k _; apply qft_term_gen).
  rewrite Csum_scale. unfold amplitude. ring.
Qed.

(** The amplitudes after the whole circuit when the prepared column is an
    eigen-column of the unitary, for any eigenphase. *)
Lemma eigen_amplitude (U : M2) (ws : list wire) (t1 t2 theta : R)
    (s : bool) (x : basis) :
  NoDup (0%nat :: ws) -> length x = length ws ->
  Mvec U (Mvec (RZ_matrix t2) (Mvec (RY_matrix t1) (C1, C0))) =
    Vscale (phase_factor theta)
           (Mvec (RZ_matrix t2) (Mvec (RY_matrix t1) (C1, C0))) ->
  run (0%nat :: ws)
      ([RY t1 0%nat; RZ t2 0%nat] ++ map Hadamard ws ++
       [ControlledSequence U 0%nat ws; AdjointQFT ws]) zero_state (s :: x) =
  (vent (Mvec (RZ_matrix t2) (Mvec (RY_matrix t1) (C1, C0))) s *
   amplitude (length ws) theta (val x))%C.
Proof.
  intros Hnd Hx Heig.
  set (v := Mvec (RZ_matrix t2) (Mvec (RY_matrix t1) (C1, C0))) in *.
  rewrite !run_app. unfold run at 1. cbn [fold_left].
  rewrite adjoint_qft_sem by assumption.
  assert (Hj : (val x < 2 ^ length ws)%nat) by (rewrite <- Hx; apply val_lt).
  rewrite <- qft_phase_sum_gen. apply Csum_ext. intros k Hk.
  rewrite after_ladder by (try assumption; apply length_bits).
  rewrite val_bits by exact Hk. fold v.
  rewrite (Mvec_Mpow_eigen _ _ _ k Heig). destruct v as [v0 v1].
  destruct s; cbn [vent Vscale fst snd]; ring.
Qed.

(** The same for a unitary [e^(2 pi i th1) P + e^(2 pi i th2) (I - P)]
    and any prepared column. *)
Lemma two_phase_amplitude (P : M2) (ws : list wire) (t1 t2 th1 th2 : R)
    (s : bool) (x : basis) :
  Mmul P P = P -> NoDup (0%nat :: ws) -> length x = length ws ->
  run (0%nat :: ws)
      ([RY t1 0%nat; RZ t2 0%nat] ++ map Hadamard ws ++
       [ControlledSequence
          (Madd (Mscale (phase_factor th1) P)
                (Mscale (phase_factor th2) (Msub eye2 P)))
          0%nat ws;
        AdjointQFT ws]) zero_state (s :: x) =
  (vent (Mvec P (Mvec (RZ_matrix t2) (Mvec (RY_matrix t1) (C1, C0)))) s *
     amplitude (length ws) th1 (val x) +
   vent (Mvec (Msub eye2 P) (Mvec (RZ_matrix t2) (Mvec (RY_matrix t1) (C1, C0)))) s *
     amplitude (length ws) th2 (val x))%C.
Proof.
  intros HP Hnd Hx.
  destruct (projector_complement P HP) as [H1 [H2 [H3 H4]]].
  set (v := Mvec (RZ_matrix t2) (Mvec (RY_matrix t1) (C1, C0))).
  rewrite !run_app. unfold run at 1. cbn [fold_left].
  rewrite adjoint_qft_sem by assumption.
  assert (Hj : (val x < 2 ^ length ws)%nat) by (rewrite <- Hx; apply val_lt).
  rewrite <- !qft_phase_sum_gen, <- Csum_add. apply Csum_ext. intros k Hk.
  rewrite after_ladder by (try assumption; apply length_bits).
  rewrite val_bits by exact Hk. fold v.
  rewrite (Mpow_comb P (Msub eye2 P) H1 H2 H3 HP H4), vent_Mvec_comb. ring.
Qed.

(** Orthogonal columns weighted by two amplitudes: no cross term. *)
Lemma orthogonal_mix (a b : V2) (d1 d2 : C) :
  Vdot a b = C0 ->
  Cnorm2 (vent a false * d1 + vent b false * d2) +
  Cnorm2 (vent a true * d1 + vent b true * d2) =
  Vnorm2 a * Cnorm2 d1 + Vnorm2 b * Cnorm2 d2.
Proof.
  destruct a as [[a0 a1] [b0 b1]], b as [[c0 c1] [e0 e1]],
           d1 as [x0 x1], d2 as [y0 y1].
  calg. intros E. injection E as E1 E2. nsatz.
Qed.

Lemma projector_images_orthogonal (P : M2) (v : V2) :
  Mdag P = P -> Mmul P P = P ->
  Vdot (Mvec P v) (Mvec (Msub eye2 P) v) = C0.
Proof.
  intros Hd HP. destruct (projector_complement P HP) as [_ [H2 _]].
  rewrite Vdot_images, Hd, H2, Mvec_zero. apply Vdot_zero_r.
Qed.

Lemma two_phase_distribution (P : M2) (ws : list wire) (th1 th2 : R) (s : world) :
  Mdag P = P -> Mmul P P = P -> NoDup (0%nat :: ws) -> (1 <= length ws)%nat ->
  exists p,
    circuit (Madd (Mscale (phase_factor th1) P)
                  (Mscale (phase_factor th2) (Msub eye2 P)))
            ws s = Ok (p, mkWorld (advance 2 (gen s)) (queue s)) /\
    length p = (2 ^ length ws)%nat /\
    forall j, (j < 2 ^ length ws)%nat ->
      nth j p 0 =
      Vnorm2 (Mvec P (prepared (gen s))) * response (length ws) th1 j +
      Vnorm2 (Mvec (Msub eye2 P) (prepared (gen s))) * response (length ws) th2 j.
Proof.
  intros Hd HP Hnd Hm.
  destruct (circuit_probs
              (Madd (Mscale (phase_factor th1) P)
                    (Mscale (phase_factor th2) (Msub eye2 P)))
              ws s Hnd Hm) as [p [Hrun [Hlen Hp]]].
  exists p. split; [exact Hrun|]. split; [exact Hlen|].
  intros j Hj. rewrite (Hp j Hj).
  rewrite !(two_phase_amplitude P ws _ _ th1 th2 _ _ HP Hnd (length_bits _ _)).
  rewrite val_bits by exact Hj. fold (prepared (gen s)).
  apply orthogonal_mix, projector_images_orthogonal; assumption.
Qed.

Lemma two_phase_returned (P : M2) (ws : list wire) (th1 th2 : R) (s : world)
    (p : list R) (s' : world) :
  Mdag P = P -> Mmul P P = P ->
  circuit (Madd (Mscale (phase_factor th1) P)
                (Mscale (phase_factor th2) (Msub eye2 P)))
          ws s = Ok (p, s') ->
  length p = (2 ^ length ws)%nat /\
  forall j, (j < 2 ^ length ws)%nat ->
    nth j p 0 =
    Vnorm2 (Mvec P (prepared (gen s))) * response (length ws) th1 j +
    Vnorm2 (Mvec (Msub eye2 P) (prepared (gen s))) * response (length ws) th2 j.
Proof.
  intros Hd HP Hrun.
  destruct (circuit_returns _ ws s p s' Hrun) as [Hnd Hm].
  destruct (two_phase_distribution P ws th1 th2 s Hd HP Hnd Hm)
    as [p0 [Hrun0 Hrest]].
  rewrite Hrun0 in Hrun. injection Hrun as Ep _. subst p0. exact Hrest.
Qed.

(** X8: For a unitary [e^(2 pi i th1) P + e^(2 pi i th2) (I - P)], [P] a
    Hermitian projector and [th1], [th2] any real phases, on at least one
    estimation wire, the wires distinct and none of them wire 0,
    [circuit] draws two samples, leaves the surrounding queue as it was,
    and returns the mixture of the two single-phase responses, weighted
    by the squared norms of the two parts of the prepared state; the two
    weights sum to 1. *)
Theorem circuit_two_phases (P : M2) (ws : list wire) (th1 th2 : R) (s : world) :
  Mdag P = P -> Mmul P P = P -> NoDup (0%nat :: ws) -> (1 <= length ws)%nat ->
  exists p,
    circuit (Madd (Mscale (phase_factor th1) P)
                  (Mscale (phase_factor th2) (Msub eye2 P)))
            ws s = Ok (p, mkWorld (advance 2 (gen s)) (queue s)) /\
    length p = (2 ^ length ws)%nat /\
    Vnorm2 (Mvec P (prepared (gen s))) +
      Vnorm2 (Mvec (Msub eye2 P) (prepared (gen s))) = 1 /\
    forall j, (j < 2 ^ length ws)%nat ->
      nth j p 0 =
      Vnorm2 (Mvec P (prepared (gen s))) * response (length ws) th1 j +
      Vnorm2 (Mvec (Msub eye2 P) (prepared (gen s))) * response (length ws) th2 j.
Proof.
  intros Hd HP Hnd Hm.
  destruct (two_phase_distribution P ws th1 th2 s Hd HP Hnd Hm) as [p [Hrun [Hlen Hp]]].
  exists p. split; [exact Hrun|]. split; [exact Hlen|]. split; [|exact Hp].
  destruct (projector_pythagoras P (prepared (gen s)) Hd HP) as [_ Epy].
  rewrite Epy. apply prepared_unit.
Qed.

(** A generator state whose first sample is a quarter turn: the prepared
    state has weight 1/2 on either basis column. *)
Lemma quarter_world_sample :
  gen (mkWorld (advance 8 skew_gen) []) 0%nat = 1 / 4.
Proof. reflexivity. Qed.

Lemma circuit_two_phases_witness :
  exists p,
    circuit (Madd (Mscale (phase_factor (1 / 3)) (mkM2 C1 C0 C0 C0))
                  (Mscale (phase_factor (1 / 5)) (Msub eye2 (mkM2 C1 C0 C0 C0))))
            [1; 2; 3]%nat (mkWorld (advance 8 skew_gen) []) =
      Ok (p, mkWorld (advance 2 (advance 8 skew_gen)) []) /\
    length p = (2 ^ length [1; 2; 3]%nat)%nat /\
    Vnorm2 (Mvec (mkM2 C1 C0 C0 C0) (prepared (advance 8 skew_gen))) +
      Vnorm2 (Mvec (Msub eye2 (mkM2 C1 C0 C0 C0)) (prepared (advance 8 skew_gen))) = 1 /\
    forall j, (j < 2 ^ length [1; 2; 3]%nat)%nat ->
      nth j p 0 =
      Vnorm2 (Mvec (mkM2 C1 C0 C0 C0) (prepared (advance 8 skew_gen))) *
        response (length [1; 2; 3]%nat) (1 / 3) j +
      Vnorm2 (Mvec (Msub eye2 (mkM2 C1 C0 C0 C0)) (prepared (advance 8 skew_gen))) *
        response (length [1; 2; 3]%nat) (1 / 5) j.
Proof.
  apply (circuit_two_phases (mkM2 C1 C0 C0 C0) [1; 2; 3]%nat (1 / 3) (1 / 5)
           (mkWorld (advance 8 skew_gen) [])).
  - mring.
  - mring.
  - repeat constructor; simpl; intuition lia.
  - simpl. lia.
Defined.

End InexactPhases.

(** ** The shape of the response: a squared Dirichlet kernel *)

Section ResponseShape.
Import Simulator QPE RandomUnitary Response.

Lemma Cnorm2_Cexpi_minus_1 (x : R) :
  Cnorm2 (Cexpi (2 * x) - C1) = 4 * (sin x) ^ 2.
Proof.
  rewrite Cexpi_cis, cos_2a_sin, sin_2a. calg.
  pose proof (sin2_cos2 x) as H. unfold Rsqr in H.
  set (sn := sin x) in *. set (cs := cos x) in *. clearbody sn cs.
  transitivity (4 * sn ^ 2 * (sn * sn + cs * cs)); [ring | rewrite H; ring].
Qed.

Lemma Csum_Cexpi_kernel (n : nat) (x : R) :
  Cnorm2 (Csum n (fun k => Cexpi (2 * x * INR k))) * (sin x) ^ 2 =
  (sin (INR n * x)) ^ 2.
Proof.
  rewrite (Csum_ext n _ (Cpow (Cexpi (2 * x)))).
  2:{ intros k _. rewrite Cexpi_pow. f_equal. ring. }
  pose proof (f_equal Cnorm2 (Csum_geometric (Cexpi (2 * x)) n)) as G.
  rewrite Cnorm2_mul, Cexpi_pow in G.
  replace (INR n * (2 * x)) with (2 * (INR n * x)) in G by ring.
  rewrite !Cnorm2_Cexpi_minus_1 in G. lra.
Qed.

(** Closed form of the response away from its peak. *)
Lemma response_closed_form (m : nat) (theta : R) (j : nat) :
  sin (PI * (theta - INR j / 2 ^ m)) <> 0 ->
  response m theta j =
  (sin (2 ^ m * (PI * (theta - INR j / 2 ^ m))) /
   (2 ^ m * sin (PI * (theta - INR j / 2 ^ m)))) ^ 2.
Proof.
  intros Hs. pose proof (pow2_R_pos m) as Hp.
  unfold response, amplitude. rewrite Cnorm2_mul.
  set (x := PI * (theta - INR j / 2 ^ m)) in *.
  rewrite (Csum_ext _ _ (fun k => Cexpi (2 * x * INR k))).
  2:{ intros k _. f_equal. unfold x. ring. }
  pose proof (Csum_Cexpi_kernel (2 ^ m) x) as K. rewrite INR_pow2 in K.
  set (S := Cnorm2 (Csum (2 ^ m) (fun k => Cexpi (2 * x * INR k)))) in *.
  clearbody S.
  replace (Cnorm2 (RtoC (/ 2 ^ m))) with ((/ 2 ^ m) ^ 2) by (calg; ring).
  apply Rmult_eq_reg_r with ((sin x) ^ 2); [|apply pow_nonzero, Hs].
  transitivity ((/ 2 ^ m) ^ 2 * (S * sin x ^ 2)); [ring|].
  rewrite K. field. split; lra.
Qed.

(** At a phase that is a multiple of [1/2^m] the response is a single
    peak. *)
Lemma response_exact (m i j : nat) :
  (i < 2 ^ m)%nat -> (j < 2 ^ m)%nat ->
  response m (INR i / 2 ^ m) j = if Nat.eqb i j then 1 else 0.
Proof.
  intros Hi Hj. pose proof (pow2_R_pos m) as Hp.
  unfold response, amplitude.
  rewrite (Csum_ext _ _
    (fun k => Cexpi (2 * PI * (INR i - INR j) / INR (2 ^ m) * INR k))).
  2:{ intros k _. f_equal. rewrite INR_pow2. field. lra. }
  rewrite Csum_roots by assumption. destruct (Nat.eqb i j).
  - rewrite INR_pow2. calg. field. lra.
  - calg. ring.
Qed.

(** The response is a probability distribution over the bitstrings. *)
Lemma response_nonneg (m : nat) (theta : R) (j : nat) : 0 <= response m theta j.
Proof. apply Cnorm2_nonneg. Qed.

(** Shifting the phase by a whole turn changes nothing. *)
Lemma amplitude_shift (m : nat) (theta : R) (j : nat) :
  amplitude m (1 + theta) j = amplitude m theta j.
Proof.
  unfold amplitude. f_equal. apply Csum_ext. intros k _.
  replace (2 * PI * (1 + theta - INR j / 2 ^ m) * INR k)
    with (2 * PI * INR k + 2 * PI * (theta - INR j / 2 ^ m) * INR k) by ring.
  rewrite Cexpi_add, Cexpi_2pi_nat. ring.
Qed.

Lemma response_shift (m : nat) (theta : R) (j : nat) :
  response m (1 + theta) j = response m theta j.
Proof. unfold response. rewrite amplitude_shift. reflexivity. Qed.

End ResponseShape.

(** ** How much of the weight the nearest bitstring gets *)

Section NearestBitstring.
Import Simulator QPE RandomUnitary Response.

Lemma INR_fact_values :
  INR (fact 1) = 1 /\ INR (fact 2) = 2 /\ INR (fact 3) = 6 /\
  INR (fact 4) = 24 /\ INR (fact 5) = 120 /\ INR (fact 6) = 720 /\
  INR (fact 7) = 5040.
Proof.
  repeat split;
  match goal with |- INR ?n = ?r =>
    let v := eval vm_compute in n in change (INR n) with (INR v) end;
  rewrite INR_IZR_INZ; simpl; reflexivity.
Qed.

Lemma sin_cubic (x : R) : 0 <= x <= 1 -> x - x ^ 3 / 6 <= sin x.
Proof.
  intros Hx. assert (Hpi : 0 <= x <= PI) by (generalize PI2_1; lra).
  destruct (SIN x (proj1 Hpi) (proj2 Hpi)) as [Hl _].
  eapply Rle_trans; [|exact Hl].
  unfold sin_lb, sin_approx, sin_term. cbn [sum_f_R0 Nat.mul Nat.add pow].
  destruct INR_fact_values as [F1 [_ [F3 [_ [F5 [_ F7]]]]]].
  rewrite F1, F3, F5, F7.
  assert (H2 : 0 <= x * x <= 1) by nra.
  assert (H5 : 0 <= x * (x * (x * (x * x)))) by (repeat apply Rmult_le_pos; lra).
  assert (0 <= x * (x * (x * (x * x))) * (42 - x * x)) by (apply Rmult_le_pos; lra).
  lra.
Qed.

Lemma cos_quadratic (y : R) : 0 <= y <= 1 -> 1 - y ^ 2 / 2 <= cos y.
Proof.
  intros Hy.
  assert (Hpi : - PI / 2 <= y <= PI / 2) by (generalize PI2_1; lra).
  destruct (COS y (proj1 Hpi) (proj2 Hpi)) as [Hl _].
  eapply Rle_trans; [|exact Hl].
  unfold cos_lb, cos_approx, cos_term. cbn [sum_f_R0 Nat.mul Nat.add pow].
  destruct INR_fact_values as [_ [F2 [_ [F4 [_ [F6 _]]]]]].
  change (INR (fact 0)) with 1.
  rewrite F2, F4, F6.
  assert (H2 : 0 <= y * y <= 1) by nra.
  assert (H4 : 0 <= y * (y * (y * y))) by (repeat apply Rmult_le_pos; lra).
  assert (0 <= y * (y * (y * y)) * (30 - y * y)) by (apply Rmult_le_pos; lra).
  lra.
Qed.

(** Jordan's inequality: [sin x >= 2 x / pi] on [[0, pi/2]]. *)
Lemma sin_jordan (x : R) : 0 <= x <= PI / 2 -> 2 * x / PI <= sin x.
Proof.
  intros Hx. pose proof PI2_3_2 as P3. pose proof PI_4 as P4.
  assert (Hpi : 0 < PI) by lra.
  destruct (Rle_dec x 1) as [H1 | H1].
  - pose proof (sin_cubic x (conj (proj1 Hx) H1)) as Hc.
    eapply Rle_trans; [|exact Hc].
    apply Rmult_le_reg_r with PI; [exact Hpi|].
    unfold Rdiv at 1. rewrite Rmult_assoc, Rinv_l, Rmult_1_r by lra.
    assert (x ^ 3 <= x) by (simpl; nra).
    nra.
  - set (y := PI / 2 - x).
    assert (Hy : 0 <= y <= 1) by (unfold y; lra).
    pose proof (cos_quadratic y Hy) as Hc.
    replace (sin x) with (cos y) by (unfold y; apply cos_shift).
    eapply Rle_trans; [|exact Hc].
    apply Rmult_le_reg_r with PI; [exact Hpi|].
    unfold Rdiv at 1. rewrite Rmult_assoc, Rinv_l, Rmult_1_r by lra.
    replace x with (PI / 2 - y) by (unfold y; ring).
    assert (y ^ 2 <= y) by (simpl; nra).
    nra.
Qed.

Lemma sin_sqr_abs (x : R) : (sin x) ^ 2 = (sin (Rabs x)) ^ 2.
Proof.
  unfold Rabs. destruct (Rcase_abs x); [rewrite sin_neg; ring | reflexivity].
Qed.

Lemma four_over_pi2_lt_1 : 4 / PI ^ 2 < 1.
Proof.
  pose proof PI2_3_2 as P3.
  apply Rmult_lt_reg_r with (PI ^ 2); [nra|].
  unfold Rdiv. rewrite Rmult_assoc, Rinv_l by nra. nra.
Qed.

Lemma response_at_peak (m : nat) (theta : R) (j : nat) :
  theta - INR j / 2 ^ m = 0 -> response m theta j = 1.
Proof.
  intros E. pose proof (pow2_R_pos m) as Hp. unfold response, amplitude.
  rewrite (Csum_ext _ _ (fun _ => C1)).
  2:{ intros k _. rewrite E, Rmult_0_r, Rmult_0_l. apply Cexpi_0. }
  rewrite Csum_const_one, INR_pow2. calg. field. lra.
Qed.

(** Within half a grid step of [j / 2^m] the response is at least
    [4 / pi^2]. *)
Lemma response_near (m : nat) (theta : R) (j : nat) :
  Rabs (theta - INR j / 2 ^ m) <= / (2 * 2 ^ m) ->
  4 / PI ^ 2 <= response m theta j.
Proof.
  intros Hd. pose proof (pow2_R_pos m) as Hp.
  pose proof PI2_3_2 as P3. pose proof PI_4 as P4.
  assert (Hpi : 0 < PI) by lra.
  destruct (Req_dec (theta - INR j / 2 ^ m) 0) as [E | E].
  - rewrite (response_at_peak m theta j E). left. apply four_over_pi2_lt_1.
  - set (d := theta - INR j / 2 ^ m) in *.
    assert (Hd0 : 0 < Rabs d) by (apply Rabs_pos_lt, E).
    set (y := PI * Rabs d).
    assert (Hy0 : 0 < y) by (unfold y; apply Rmult_lt_0_compat; assumption).
    assert (HN1 : 1 <= 2 ^ m) by (apply pow_R1_Rle; lra).
    assert (HNy : 2 ^ m * y <= PI / 2).
    { unfold y.
      assert (2 ^ m * Rabs d <= / 2).
      { apply Rmult_le_reg_l with (/ 2 ^ m); [apply Rinv_0_lt_compat, Hp|].
        rewrite <- Rmult_assoc, Rinv_l, Rmult_1_l by lra.
        rewrite <- Rinv_mult. rewrite (Rmult_comm (2 ^ m) 2). exact Hd. }
      nra. }
    assert (Hy : y <= PI / 2) by nra.
    assert (Hs0 : 0 < sin y) by (apply sin_gt_0; lra).
    assert (Hsy : sin y <= y) by (left; apply sin_lt_x, Hy0).
    assert (HJ : 2 * (2 ^ m * y) / PI <= sin (2 ^ m * y))
      by (apply sin_jordan; split; [nra | exact HNy]).
    assert (Hx : sin (PI * d) <> 0).
    { intros Hz. assert (Hq : (sin (PI * d)) ^ 2 = 0) by (rewrite Hz; ring).
      rewrite sin_sqr_abs, Rabs_mult, (Rabs_pos_eq PI) in Hq by lra.
      fold y in Hq. nra. }
    rewrite (response_closed_form m theta j Hx). fold d.
    replace ((sin (2 ^ m * (PI * d)) / (2 ^ m * sin (PI * d))) ^ 2)
      with ((sin (2 ^ m * (PI * d))) ^ 2 / ((2 ^ m) ^ 2 * (sin (PI * d)) ^ 2))
      by (field; split; [exact Hx | lra]).
    rewrite (sin_sqr_abs (2 ^ m * (PI * d))), (sin_sqr_abs (PI * d)).
    rewrite !Rabs_mult, (Rabs_pos_eq PI), (Rabs_pos_eq (2 ^ m)) by lra.
    fold y.
    assert (Hlow : 2 * (2 ^ m * sin y) / PI <= sin (2 ^ m * y)).
    { eapply Rle_trans; [|exact HJ].
      unfold Rdiv. apply Rmult_le_compat_r; [left; apply Rinv_0_lt_compat, Hpi|].
      nra. }
    assert (Hpos : 0 <= 2 * (2 ^ m * sin y) / PI).
    { unfold Rdiv. apply Rmult_le_pos; [nra | left; apply Rinv_0_lt_compat, Hpi]. }
    assert (Hsq : (2 * (2 ^ m * sin y) / PI) ^ 2 <= (sin (2 ^ m * y)) ^ 2)
      by (apply pow_incr; split; assumption).
    assert (Hden : 0 < (2 ^ m) ^ 2 * (sin y) ^ 2) by (apply Rmult_lt_0_compat; nra).
    apply Rmult_le_reg_r with ((2 ^ m) ^ 2 * (sin y) ^ 2); [exact Hden|].
    unfold Rdiv at 2. rewrite Rmult_assoc, Rinv_l, Rmult_1_r by lra.
    eapply Rle_trans; [|exact Hsq]. right. field. lra.
Qed.

Lemma Mvec_scalar (c : C) (v : V2) : Mvec (Mscale c eye2) v = Vscale c v.
Proof.
  destruct c as [c0 c1], v as [[a0 a1] [b0 b1]]. calg. csplit; csplit; ring.
Qed.

(** X9: When the prepared column is an eigen-column of the unitary with any
    eigenphase [theta], on at least one estimation wire, the wires distinct
    and none of them wire 0, [circuit] returns the response of [theta]: a
    squared Dirichlet kernel around [theta * 2^m], in which a bitstring
    within half a grid step of the phase has probability at least
    [4 / pi^2]. *)
Theorem circuit_eigenstate_response (U : M2) (ws : list wire) (theta : R)
    (s : world) :
  NoDup (0%nat :: ws) -> (1 <= length ws)%nat ->
  Mvec U (prepared (gen s)) = Vscale (phase_factor theta) (prepared (gen s)) ->
  exists p s',
    circuit U ws s = Ok (p, s') /\
    length p = (2 ^ length ws)%nat /\
    forall j, (j < 2 ^ length ws)%nat ->
      nth j p 0 = response (length ws) theta j /\
      (sin (PI * (theta - INR j / 2 ^ length ws)) <> 0 ->
       nth j p 0 =
       (sin (2 ^ length ws * (PI * (theta - INR j / 2 ^ length ws))) /
        (2 ^ length ws * sin (PI * (theta - INR j / 2 ^ length ws)))) ^ 2) /\
      (Rabs (theta - INR j / 2 ^ length ws) <= / (2 * 2 ^ length ws) ->
       4 / PI ^ 2 <= nth j p 0).
Proof.
  intros Hnd Hm Heig.
  destruct (circuit_probs U ws s Hnd Hm) as [p [Hrun [Hlen Hp]]].
  exists p. eexists. split; [exact Hrun|]. split; [exact Hlen|].
  intros j Hj.
  assert (E : nth j p 0 = response (length ws) theta j).
  { rewrite (Hp j Hj). unfold prepared in Heig.
    rewrite !(eigen_amplitude U ws _ _ theta _ _ Hnd (length_bits _ _) Heig).
    rewrite val_bits by exact Hj. fold (prepared (gen s)).
    pose proof (prepared_unit (gen s)) as Hu. unfold Vnorm2 in Hu.
    rewrite !Cnorm2_mul. cbn [vent]. unfold response.
    transitivity ((Cnorm2 (fst (prepared (gen s))) + Cnorm2 (snd (prepared (gen s)))) *
                  Cnorm2 (amplitude (length ws) theta j)); [ring|].
    rewrite Hu. ring. }
  rewrite E. split; [reflexivity|]. split.
  - apply response_closed_form.
  - apply response_near.
Qed.

Lemma circuit_eigenstate_response_witness :
  exists p s',
    circuit (mkM2 C1 C0 C0 (phase_factor (1 / 3))) [1; 2]%nat demo_world = Ok (p, s') /\
    length p = (2 ^ length [1; 2]%nat)%nat /\
    forall j, (j < 2 ^ length [1; 2]%nat)%nat ->
      nth j p 0 = response (length [1; 2]%nat) (1 / 3) j /\
      (sin (PI * (1 / 3 - INR j / 2 ^ length [1; 2]%nat)) <> 0 ->
       nth j p 0 =
       (sin (2 ^ length [1; 2]%nat * (PI * (1 / 3 - INR j / 2 ^ length [1; 2]%nat))) /
        (2 ^ length [1; 2]%nat *
         sin (PI * (1 / 3 - INR j / 2 ^ length [1; 2]%nat)))) ^ 2) /\
      (Rabs (1 / 3 - INR j / 2 ^ length [1; 2]%nat) <= / (2 * 2 ^ length [1; 2]%nat) ->
       4 / PI ^ 2 <= nth j p 0).
Proof.
  apply (circuit_eigenstate_response (mkM2 C1 C0 C0 (phase_factor (1 / 3)))
           [1; 2]%nat (1 / 3) demo_world).
  - repeat constructor; simpl; intuition lia.
  - simpl. lia.
  - cbn [gen demo_world]. rewrite demo_prepared.
    destruct (phase_factor (1 / 3)) as [a b]. calg. csplit; csplit; ring.
Defined.

End NearestBitstring.

(** ** The second run cell: phases off the grid *)

Section InexactPhasesCell.
Import Simulator QPE RandomUnitary Response.

(** X12: whenever the two calls of the second run cell return
    ([create_unitary] on any two phases, draws that do not degenerate,
    then [circuit] on the result), the array returned is the two responses
    mixed with the Born weights [|<e1|psi>|^2] and [|<e2|psi>|^2] of the
    prepared state in the drawn eigenbasis; the weights sum to 1, and a
    bitstring within half a grid step of a phase gets at least [4 / pi^2]
    of that phase's weight. *)
Theorem inexact_phases_distribution (ws : list wire) (th1 th2 : R) (s : world)
    (p : list R) (s' : world) :
  Vnorm (drawn_vec (gen s)) <> 0 ->
  Vnorm (projected_of (gen s)) <> 0 ->
  bind (create_unitary [th1; th2]) (fun unitary => circuit unitary ws) s =
    Ok (p, s') ->
  exists w1 w2,
    length p = (2 ^ length ws)%nat /\
    w1 = Cnorm2 (Vdot (eigvec_1_of (gen s)) (prepared (advance 8 (gen s)))) /\
    w2 = Cnorm2 (Vdot (eigvec_2_of (gen s)) (prepared (advance 8 (gen s)))) /\
    w1 + w2 = 1 /\
    forall j, (j < 2 ^ length ws)%nat ->
      nth j p 0 = w1 * response (length ws) th1 j + w2 * response (length ws) th2 j /\
      (Rabs (th1 - INR j / 2 ^ length ws) <= / (2 * 2 ^ length ws) ->
       4 / PI ^ 2 * w1 <= nth j p 0) /\
      (Rabs (th2 - INR j / 2 ^ length ws) <= / (2 * 2 ^ length ws) ->
       4 / PI ^ 2 * w2 <= nth j p 0).
Proof.
  intros H1 H3 Hrun.
  assert (Hu : Vnorm2 (eigvec_1_of (gen s)) = 1) by (apply Vnorm2_normalized, H1).
  assert (Hu2 : Vnorm2 (eigvec_2_of (gen s)) = 1) by (apply Vnorm2_normalized, H3).
  assert (Hp : proj (eigvec_2_of (gen s)) = Msub eye2 (proj (eigvec_1_of (gen s))))
    by (apply proj_eigvec_2; assumption).
  destruct (two_phase_returned (proj (eigvec_1_of (gen s))) ws th1 th2
              (mkWorld (advance 8 (gen s)) (queue s)) p s'
              (Mdag_proj _) (proj_idem _ Hu)
              (cell_returned th1 th2 ws s p s' H1 H3 Hrun))
    as [Hlen Hp'].
  cbn [gen] in Hp'.
  destruct (projector_pythagoras (proj (eigvec_1_of (gen s)))
              (prepared (advance 8 (gen s))) (Mdag_proj _) (proj_idem _ Hu))
    as [_ Epy].
  rewrite prepared_unit in Epy.
  rewrite <- Hp in Hp', Epy. rewrite !Vnorm2_proj_apply in Hp', Epy by assumption.
  do 2 eexists.
  split; [exact Hlen|]. split; [reflexivity|]. split; [reflexivity|].
  split; [exact Epy|]. intros j Hj. rewrite (Hp' j Hj).
  pose proof (response_nonneg (length ws) th1 j) as R1.
  pose proof (response_nonneg (length ws) th2 j) as R2.
  pose proof (Cnorm2_nonneg (Vdot (eigvec_1_of (gen s)) (prepared (advance 8 (gen s))))) as W1.
  pose proof (Cnorm2_nonneg (Vdot (eigvec_2_of (gen s)) (prepared (advance 8 (gen s))))) as W2.
  split; [reflexivity|]. split; intros Hn; apply response_near in Hn; nra.
Qed.

Lemma wires_12345 :
  NoDup (0 :: [1; 2; 3; 4; 5])%nat /\ (1 <= length [1; 2; 3; 4; 5]%nat)%nat.
Proof. split; [repeat constructor; simpl; intuition lia | simpl; lia]. Qed.

Lemma inexact_phases_distribution_witness :
  exists p s',
    bind (create_unitary [24108735 / 100000000; 81843316 / 100000000])
         (fun unitary => circuit unitary [1; 2; 3; 4; 5]%nat) skew_world =
      Ok (p, s') /\
    exists w1 w2,
    length p = (2 ^ length [1; 2; 3; 4; 5]%nat)%nat /\
    w1 = Cnorm2 (Vdot (eigvec_1_of (gen skew_world))
                      (prepared (advance 8 (gen skew_world)))) /\
    w2 = Cnorm2 (Vdot (eigvec_2_of (gen skew_world))
                      (prepared (advance 8 (gen skew_world)))) /\
    w1 + w2 = 1 /\
    forall j, (j < 2 ^ length [1; 2; 3; 4; 5]%nat)%nat ->
      nth j p 0 =
        w1 * response (length [1; 2; 3; 4; 5]%nat) (24108735 / 100000000) j +
        w2 * response (length [1; 2; 3; 4; 5]%nat) (81843316 / 100000000) j /\
      (Rabs (24108735 / 100000000 - INR j / 2 ^ length [1; 2; 3; 4; 5]%nat)
         <= / (2 * 2 ^ length [1; 2; 3; 4; 5]%nat) ->
       4 / PI ^ 2 * w1 <= nth j p 0) /\
      (Rabs (81843316 / 100000000 - INR j / 2 ^ length [1; 2; 3; 4; 5]%nat)
         <= / (2 * 2 ^ length [1; 2; 3; 4; 5]%nat) ->
       4 / PI ^ 2 * w2 <= nth j p 0).
Proof.
  pose proof (cell_run (24108735 / 100000000) (81843316 / 100000000)
                [1; 2; 3; 4; 5]%nat skew_world
                (proj1 skew_draws) (proj1 (proj2 skew_draws))
                (proj1 wires_12345) (proj2 wires_12345)) as Hrun.
  eexists. eexists. split; [exact Hrun|].
  exact (inexact_phases_distribution [1; 2; 3; 4; 5]%nat
           (24108735 / 100000000) (81843316 / 100000000) skew_world _ _
           (proj1 skew_draws) (proj1 (proj2 skew_draws)) Hrun).
Defined.

End InexactPhasesCell.

(** ** The spectrum of the Hamiltonian *)

Section HamiltonianSpectrum.
Import Hamiltonian.

Lemma eigen_char (p q : R) (z lam : C) :
  eigenvalue (mkM2 (RtoC p) z (Cconj z) (RtoC q)) lam ->
  Im lam = 0 /\ (p - Re lam) * (q - Re lam) = Cnorm2 z.
Proof.
  intros Hl. pose proof (hermitian_eigenvalue_real p q z lam Hl) as Him.
  split; [exact Him|]. destruct Hl as [v [Hv E]].
  destruct v as [[x0 x1] [y0 y1]], z as [z0 z1], lam as [l0 l1].
  cbn [Im snd] in Him. subst l1.
  assert (Hn : x0 * x0 + x1 * x1 + y0 * y0 + y1 * y1 <> 0).
  { intros Hz. apply Hv.
    assert (x0 = 0) by nra. assert (x1 = 0) by nra.
    assert (y0 = 0) by nra. assert (y1 = 0) by nra. subst. reflexivity. }
  calg. injection E as E1 E2 E3 E4.
  assert (Hd : ((p - l0) * (q - l0) - (z0 * z0 + z1 * z1)) *
               (x0 * x0 + x1 * x1 + y0 * y0 + y1 * y1) = 0) by nsatz.
  apply Rmult_integral in Hd. destruct Hd as [Hd | Hd]; [lra | contradiction].
Qed.

Lemma char_eigen (p q : R) (z : C) (lam : R) :
  (p - lam) * (q - lam) = Cnorm2 z ->
  eigenvalue (mkM2 (RtoC p) z (Cconj z) (RtoC q)) (RtoC lam).
Proof.
  intros Hc. destruct z as [z0 z1].
  destruct (Req_dec (z0 * z0 + z1 * z1) 0) as [Hz | Hz].
  - assert (z0 = 0) by nra. assert (z1 = 0) by nra. subst z0 z1.
    assert (Hpq : (p - lam) * (q - lam) = 0) by (revert Hc; calg; lra).
    apply Rmult_integral in Hpq. destruct Hpq as [Hp | Hq].
    + exists (C1, C0). split.
      * intros E. injection E as E. lra.
      * assert (p = lam) by lra. subst p. calg. csplit; csplit; ring.
    + exists (C0, C1). split.
      * intros E. injection E as E. lra.
      * assert (q = lam) by lra. subst q. calg. csplit; csplit; ring.
  - exists ((z0, z1), RtoC (lam - p)). split.
    + intros E. injection E as E1 E2 _. subst z0 z1. apply Hz. ring.
    + revert Hc. calg. intros Hc. csplit; csplit; nsatz.
Qed.

Lemma char_roots (p q n l : R) :
  0 <= n ->
  (p - l) * (q - l) = n <->
  l = (p + q) / 2 + sqrt (((p - q) / 2) ^ 2 + n) \/
  l = (p + q) / 2 - sqrt (((p - q) / 2) ^ 2 + n).
Proof.
  intros Hn.
  assert (Hpos : 0 <= ((p - q) / 2) ^ 2 + n)
    by (apply Rplus_le_le_0_compat; [apply pow2_ge_0 | exact Hn]).
  pose proof (sqrt_sqrt _ Hpos) as Hr.
  set (r := sqrt (((p - q) / 2) ^ 2 + n)) in *. clearbody r.
  split.
  - intros Hc.
    assert (Hf : (l - ((p + q) / 2 + r)) * (l - ((p + q) / 2 - r)) = 0) by nra.
    apply Rmult_integral in Hf. destruct Hf; [left | right]; lra.
  - intros [E | E]; subst l; nra.
Qed.

Lemma hermitian_form_eigvals (p q : R) (z lam : C) :
  eigenvalue (mkM2 (RtoC p) z (Cconj z) (RtoC q)) lam <->
  lam = RtoC ((p + q) / 2 + sqrt (((p - q) / 2) ^ 2 + Cnorm2 z)) \/
  lam = RtoC ((p + q) / 2 - sqrt (((p - q) / 2) ^ 2 + Cnorm2 z)).
Proof.
  pose proof (Cnorm2_nonneg z) as Hz.
  split.
  - intros Hl. destruct (eigen_char p q z lam Hl) as [Him Hc].
    apply (char_roots p q (Cnorm2 z) (Re lam) Hz) in Hc.
    destruct lam as [l0 l1]. cbn [Im Re fst snd] in *. subst l1.
    destruct Hc as [E | E]; [left | right]; rewrite <- E; reflexivity.
  - intros [E | E]; subst lam; apply char_eigen;
      apply (char_roots p q (Cnorm2 z) _ Hz); [left | right]; reflexivity.
Qed.

(** X13: The eigenvalues of the Hamiltonian [0.5 * (A + A^dagger)] are exactly
    the two reals [c + r] and [c - r], with [c] the mean of the diagonal
    and [r = sqrt(((h00 - h11)/2)^2 + |h01|^2)]: what [np.linalg.eigvals]
    returns has no imaginary part for [np.real] to drop. *)
Theorem hermitian_eigvals_formula (A : M2) (lam : C) :
  eigenvalue (hermitian_part A) lam <->
  lam = RtoC ((Re (m00 (hermitian_part A)) + Re (m11 (hermitian_part A))) / 2 +
              sqrt (((Re (m00 (hermitian_part A)) -
                      Re (m11 (hermitian_part A))) / 2) ^ 2 +
                    Cnorm2 (m01 (hermitian_part A)))) \/
  lam = RtoC ((Re (m00 (hermitian_part A)) + Re (m11 (hermitian_part A))) / 2 -
              sqrt (((Re (m00 (hermitian_part A)) -
                      Re (m11 (hermitian_part A))) / 2) ^ 2 +
                    Cnorm2 (m01 (hermitian_part A)))).
Proof.
  destruct (hermitian_part_form A) as [p [q [z HA]]]. rewrite HA.
  cbn [m00 m01 m11]. change (Re (RtoC p)) with p. change (Re (RtoC q)) with q.
  apply hermitian_form_eigvals.
Qed.

End HamiltonianSpectrum.

(** ** The evolution operator and the phases cell *)

Section HamiltonianEvolution.
Import Simulator RandomUnitary Hamiltonian HamiltonianPhases.

Lemma phase_factor_wrap1 (p : R) : phase_factor (wrap1 p) = phase_factor p.
Proof.
  unfold wrap1. destruct (Rlt_dec p 0); [|reflexivity].
  rewrite !phase_factor_Cexpi.
  replace (2 * PI * (1 + p)) with (2 * PI * INR 1 + 2 * PI * p) by (simpl; ring).
  rewrite Cexpi_add, Cexpi_2pi_nat. ring.
Qed.

Lemma phase_factor_scaled (x : R) : phase_factor (x / (2 * PI)) = Cexpi x.
Proof.
  rewrite phase_factor_Cexpi. f_equal. pose proof two_pi_pos. field. lra.
Qed.

(** The shape of [expm(hamiltonian * 1j * duration)]. *)
Lemma expm_form (A : M2) (T : R) (E : M2) :
  is_expm (generator (hermitian_part A) T) E ->
  exists (P : M2) (a b : R),
    Mdag P = P /\ Mmul P P = P /\
    hermitian_part A = Madd (Mscale (RtoC a) P) (Mscale (RtoC b) (Msub eye2 P)) /\
    E = Madd (Mscale (Cexpi (a * T)) P) (Mscale (Cexpi (b * T)) (Msub eye2 P)).
Proof.
  intros HE. destruct (hermitian_part_form A) as [p [q [z HA]]]. rewrite HA in *.
  destruct (hermitian_spectral p q z)
    as [P [Q [a [b [H1 [H2 [H3 [H4 [H5 [H6 H7]]]]]]]]]].
  assert (Hexp : is_expm (generator (mkM2 (RtoC p) z (Cconj z) (RtoC q)) T)
                   (Madd (Mscale (Cexpi (a * T)) P) (Mscale (Cexpi (b * T)) Q))).
  { rewrite H7, generator_comb. apply is_expm_comb; assumption. }
  exists P, a, b. rewrite <- (complement_projector P Q H1).
  split; [exact H6|]. split; [exact H4|]. split; [exact H7|].
  apply (Mcv_unique _ _ _ HE Hexp).
Qed.

Lemma vent_Vscale (c : C) (w : V2) (s : bool) :
  vent (Vscale c w) s = (c * vent w s)%C.
Proof. destruct w as [w0 w1], s; reflexivity. Qed.

Lemma vent_ext (x y : V2) : (forall s, vent x s = vent y s) -> x = y.
Proof.
  intros H. destruct x as [x0 x1], y as [y0 y1].
  pose proof (H false) as Hf. pose proof (H true) as Ht.
  cbn [vent fst snd] in Hf, Ht. subst. reflexivity.
Qed.

Lemma Vscale_eq_reg (a b : C) (w : V2) :
  Vscale a w = Vscale b w -> Vnorm2 w <> 0 -> a = b.
Proof.
  destruct a as [a0 a1], b as [b0 b1], w as [[x0 x1] [y0 y1]].
  calg. intros E Hn. injection E as E1 E2 E3 E4.
  assert (H0 : (a0 - b0) * (x0 * x0 + x1 * x1 + (y0 * y0 + y1 * y1)) = 0) by nsatz.
  assert (H1 : (a1 - b1) * (x0 * x0 + x1 * x1 + (y0 * y0 + y1 * y1)) = 0) by nsatz.
  apply Rmult_integral in H0, H1.
  destruct H0 as [H0 | H0]; [|contradiction].
  destruct H1 as [H1 | H1]; [|contradiction].
  f_equal; lra.
Qed.

Lemma Mmul_projector_comb (P Q : M2) (a b : C) :
  Mmul P P = P -> Mmul P Q = Mzero ->
  Mmul P (Madd (Mscale a P) (Mscale b Q)) = Mscale a P.
Proof.
  intros HP HQ.
  transitivity (Madd (Mscale a (Mmul P P)) (Mscale b (Mmul P Q))).
  - destruct P as [[p0 p1] [p2 p3] [p4 p5] [p6 p7]],
             Q as [[q0 q1] [q2 q3] [q4 q5] [q6 q7]], a as [a0 a1], b as [b0 b1].
    mring.
  - rewrite HP, HQ. destruct P as [[p0 p1] [p2 p3] [p4 p5] [p6 p7]],
                             a as [a0 a1], b as [b0 b1].
    unfold Mzero. mring.
Qed.

Lemma Mvec_Mscale (c : C) (P : M2) (v : V2) :
  Mvec (Mscale c P) v = Vscale c (Mvec P v).
Proof.
  destruct P as [[p0 p1] [p2 p3] [p4 p5] [p6 p7]], c as [c0 c1],
           v as [[x0 x1] [y0 y1]].
  calg. csplit; csplit; ring.
Qed.

(** On the [P]-part of an eigen-column, the scalar [f(a)] acts as
    [f(lam)]. *)
Lemma eigen_part (P Q : M2) (a b : R) (lam : C) (v : V2) (T : R) :
  Mmul P P = P -> Mmul P Q = Mzero ->
  Mvec (Madd (Mscale (RtoC a) P) (Mscale (RtoC b) Q)) v = Vscale lam v ->
  Vscale (Cexpi (a * T)) (Mvec P v) = Vscale (Cexpi (Re lam * T)) (Mvec P v).
Proof.
  intros HP HQ Hv.
  assert (E : Vscale (RtoC a) (Mvec P v) = Vscale lam (Mvec P v)).
  { rewrite <- Mvec_Mscale, <- (Mmul_projector_comb P Q (RtoC a) (RtoC b) HP HQ).
    rewrite Mvec_Mmul, Hv. apply Mvec_Vscale. }
  destruct (Req_dec (Vnorm2 (Mvec P v)) 0) as [Hz | Hz].
  - assert (E0 : Mvec P v = (C0, C0)).
    { revert Hz. generalize (Mvec P v). intros [[x0 x1] [y0 y1]]. calg. intros Hz.
      assert (x0 = 0) by nra. assert (x1 = 0) by nra.
      assert (y0 = 0) by nra. assert (y1 = 0) by nra. subst. reflexivity. }
    rewrite E0. calg. csplit; csplit; ring.
  - apply Vscale_eq_reg in E; [|exact Hz]. rewrite <- E. reflexivity.
Qed.

Lemma comb_acts_as_scalar (P : M2) (al be ga : C) (v : V2) :
  Vscale al (Mvec P v) = Vscale ga (Mvec P v) ->
  Vscale be (Mvec (Msub eye2 P) v) = Vscale ga (Mvec (Msub eye2 P) v) ->
  Mvec (Madd (Mscale al P) (Mscale be (Msub eye2 P))) v = Vscale ga v.
Proof.
  intros H1 H2. apply vent_ext. intros s.
  pose proof (f_equal (fun w => vent w s) H1) as E1.
  pose proof (f_equal (fun w => vent w s) H2) as E2.
  cbv beta in E1, E2. rewrite !vent_Vscale in E1, E2.
  rewrite vent_Mvec_comb, vent_Vscale, E1, E2.
  transitivity (ga * vent (Mvec (Madd P (Msub eye2 P)) v) s)%C.
  - destruct P as [p0 p1 p2 p3], v as [v0 v1].
    destruct s; cbn [vent Mvec Madd Msub eye2 fst snd m00 m01 m10 m11]; ring.
  - rewrite Madd_complement, Mvec_eye. reflexivity.
Qed.

Lemma Msub_complement_complement (P : M2) : Msub eye2 (Msub eye2 P) = P.
Proof. destruct P as [[p0 p1] [p2 p3] [p4 p5] [p6 p7]]. mring. Qed.

Lemma Madd_comm (A B : M2) : Madd A B = Madd B A.
Proof.
  destruct A as [[p0 p1] [p2 p3] [p4 p5] [p6 p7]],
           B as [[q0 q1] [q2 q3] [q4 q5] [q6 q7]]. mring.
Qed.

(** X14: Every eigen-column of the Hamiltonian, with eigenvalue [lam], is an
    eigen-column of [expm(hamiltonian * 1j * duration)] with eigenvalue
    [e^(i lam T)], and the entry the phases cell computes from [lam] is
    an eigenphase of the unitary for that column: for every duration,
    whether or not the entry lands in [[0,1)]. *)
Theorem expm_spectral_mapping (A : M2) (T : R) (E : M2) (lam : C) (v : V2) :
  is_expm (generator (hermitian_part A) T) E ->
  Mvec (hermitian_part A) v = Vscale lam v ->
  Mvec E v = Vscale (Cexpi (Re lam * T)) v /\
  Mvec E v = Vscale (phase_factor (wrap1 (Re lam * T / (2 * PI)))) v.
Proof.
  intros HE Hv.
  destruct (expm_form A T E HE) as [P [a [b [Hd [HP [HH HEq]]]]]].
  destruct (projector_complement P HP) as [H1 [H2 [H3 H4]]].
  rewrite HH in Hv.
  assert (G : Mvec E v = Vscale (Cexpi (Re lam * T)) v).
  { rewrite HEq. apply comb_acts_as_scalar.
    - apply (eigen_part P (Msub eye2 P) a b lam v T HP H2 Hv).
    - apply (eigen_part (Msub eye2 P) P b a lam v T H4 H3).
      rewrite Madd_comm. exact Hv. }
  split; [exact G|].
  rewrite phase_factor_wrap1, phase_factor_scaled. exact G.
Qed.

(** A worked evolution: the Hamiltonian [diag(-1, 1)] over the duration 7
    gives [diag(e^(-7i), e^(7i))]; the phase [-7 / (2 pi)] of the first
    eigenvalue is below -1, so the wrapped entry stays negative. *)
Lemma expm_diag_demo :
  is_expm (generator (hermitian_part (mkM2 (RtoC (-1)) C0 C0 C1)) 7)
          (Madd (Mscale (Cexpi (-1 * 7)) (mkM2 C1 C0 C0 C0))
                (Mscale (Cexpi (1 * 7)) (mkM2 C0 C0 C0 C1))).
Proof.
  replace (hermitian_part (mkM2 (RtoC (-1)) C0 C0 C1))
    with (Madd (Mscale (RtoC (-1)) (mkM2 C1 C0 C0 C0))
               (Mscale (RtoC 1) (mkM2 C0 C0 C0 C1)))
    by (unfold hermitian_part; calg; msplit; field).
  rewrite generator_comb. apply is_expm_comb; unfold Mzero; mring.
Qed.

Lemma expm_spectral_mapping_witness :
  Mvec (Madd (Mscale (Cexpi (-1 * 7)) (mkM2 C1 C0 C0 C0))
             (Mscale (Cexpi (1 * 7)) (mkM2 C0 C0 C0 C1))) (C1, C0) =
    Vscale (Cexpi (Re (RtoC (-1)) * 7)) (C1, C0) /\
  Mvec (Madd (Mscale (Cexpi (-1 * 7)) (mkM2 C1 C0 C0 C0))
             (Mscale (Cexpi (1 * 7)) (mkM2 C0 C0 C0 C1))) (C1, C0) =
    Vscale (phase_factor (wrap1 (Re (RtoC (-1)) * 7 / (2 * PI)))) (C1, C0).
Proof.
  apply (expm_spectral_mapping (mkM2 (RtoC (-1)) C0 C0 C1) 7 _ (RtoC (-1)) (C1, C0)).
  - exact expm_diag_demo.
  - unfold hermitian_part. calg. csplit; csplit; field.
Defined.

End HamiltonianEvolution.

(** ** The Hamiltonian cells, end to end *)

Section HamiltonianCells.
Import Simulator QPE RandomUnitary Hamiltonian HamiltonianPhases HamiltonianDraw
       Response.

Lemma hamiltonian_cell_run (s : world) :
  hamiltonian_cell s =
  Ok (mkM2 (RtoC (-1 + (1 - -1) * gen s 0%nat))
           (((-1 + (1 - -1) * gen s 1%nat) + (-1 + (1 - -1) * gen s 2%nat)) / 2,
            ((-1 + (1 - -1) * gen s 5%nat) - (-1 + (1 - -1) * gen s 6%nat)) / 2)
           (Cconj
              (((-1 + (1 - -1) * gen s 1%nat) + (-1 + (1 - -1) * gen s 2%nat)) / 2,
               ((-1 + (1 - -1) * gen s 5%nat) - (-1 + (1 - -1) * gen s 6%nat)) / 2))
           (RtoC (-1 + (1 - -1) * gen s 3%nat)),
      mkWorld (advance 8 (gen s)) (queue s)).
Proof.
  unfold hamiltonian_cell, bind, np_random_uniform_2x2, ret.
  cbn [gen queue]. unfold advance. cbn [Nat.add]. f_equal. f_equal.
  unfold hermitian_part. calg. msplit; field.
Qed.

Lemma hamiltonian_cell_bound (s : world) :
  (forall n, (n < 8)%nat -> 0 <= gen s n < 1) ->
  exists H,
    hamiltonian_cell s = Ok (H, mkWorld (advance 8 (gen s)) (queue s)) /\
    Mdag H = H /\
    forall lam, eigenvalue H lam -> Rabs (Re lam) <= 5 / 2.
Proof.
  intros Hg. eexists. split; [apply hamiltonian_cell_run|].
  split; [apply hermitian_form_dag|].
  intros lam Hl. apply eigen_char in Hl. destruct Hl as [_ Hc].
  pose proof (Hg 0%nat ltac:(lia)) as G0. pose proof (Hg 1%nat ltac:(lia)) as G1.
  pose proof (Hg 2%nat ltac:(lia)) as G2. pose proof (Hg 3%nat ltac:(lia)) as G3.
  pose proof (Hg 5%nat ltac:(lia)) as G5. pose proof (Hg 6%nat ltac:(lia)) as G6.
  revert Hc. unfold Cnorm2. cbn [fst snd].
  set (p := -1 + (1 - -1) * gen s 0%nat). set (q := -1 + (1 - -1) * gen s 3%nat).
  set (z0 := (-1 + (1 - -1) * gen s 1%nat + (-1 + (1 - -1) * gen s 2%nat)) / 2).
  set (z1 := (-1 + (1 - -1) * gen s 5%nat - (-1 + (1 - -1) * gen s 6%nat)) / 2).
  assert (Hp : -1 <= p <= 1) by (unfold p; lra).
  assert (Hq : -1 <= q <= 1) by (unfold q; lra).
  assert (Hz0 : -1 <= z0 <= 1) by (unfold z0; lra).
  assert (Hz1 : -1 <= z1 <= 1) by (unfold z1; lra).
  clearbody p q z0 z1. set (l := Re lam). clearbody l. intros Hc.
  assert (Hn : z0 * z0 + z1 * z1 <= 2) by nra.
  apply Rabs_le. split.
  - destruct (Rle_dec (- (5 / 2)) l) as [Hle | Hgt]; [exact Hle | exfalso].
    assert (0 <= (p - l - 3 / 2) * (q - l - 3 / 2)) by (apply Rmult_le_pos; lra). nra.
  - destruct (Rle_dec l (5 / 2)) as [Hle | Hgt]; [exact Hle | exfalso].
    assert (0 <= (l - p - 3 / 2) * (l - q - 3 / 2)) by (apply Rmult_le_pos; lra). nra.
Qed.

(** An entry the phases cell computes from a value within 1/2 of an
    eigenvalue, over a duration of at most 2 in absolute value. *)
Lemma rounded_entry_range (rnd : R -> R) (l lam T : R) :
  RoundedPhases.rounding rnd ->
  Rabs lam <= 5 / 2 -> Rabs (l - lam) < 1 / 2 -> Rabs T <= 2 ->
  0 <= RoundedPhases.wrap1 rnd (RoundedPhases.scaled rnd l T) <= 1.
Proof.
  intros Hr Hlam Hl HT.
  apply rounded_wrap1_range; [exact Hr|]. apply scaled_bounds; [exact Hr|].
  pose proof PI2_3_2 as P3. rewrite Rabs_mult.
  assert (Rabs l < 3).
  { replace l with (lam + (l - lam)) by ring.
    eapply Rle_lt_trans; [apply Rabs_triang|]. lra. }
  pose proof (Rabs_pos l). pose proof (Rabs_pos T). nra.
Qed.

(** X15: Whatever the generator yields in [[0,1)], the cell returns a
    Hermitian array, after exactly eight samples and without touching
    the queue, whose eigenvalues lie between -5/2 and 5/2; so for the
    notebook's [duration = 1.] (and for any duration up to 2 in absolute
    value) every entry the phases cell computes from a value within 1/2
    of an eigenvalue lies in [[0,1]], both ends included, whatever the
    rounding of the float64 operations. *)
Theorem hamiltonian_cell_phases_in_range (s : world) :
  (forall n, (n < 8)%nat -> 0 <= gen s n < 1) ->
  exists H,
    hamiltonian_cell s = Ok (H, mkWorld (advance 8 (gen s)) (queue s)) /\
    Mdag H = H /\
    forall lam, eigenvalue H lam ->
      Rabs (Re lam) <= 5 / 2 /\
      forall (rnd : R -> R) (l T : R),
        RoundedPhases.rounding rnd ->
        Rabs (l - Re lam) < 1 / 2 -> Rabs T <= 2 ->
        0 <= RoundedPhases.wrap1 rnd (RoundedPhases.scaled rnd l T) <= 1.
Proof.
  intros Hg. destruct (hamiltonian_cell_bound s Hg) as [H [Hrun [Hd Hb]]].
  exists H. split; [exact Hrun|]. split; [exact Hd|].
  intros lam Hl. split; [apply Hb, Hl|].
  intros rnd l T Hr Hnear HT.
  apply (rounded_entry_range rnd l (Re lam) T Hr (Hb lam Hl) Hnear HT).
Qed.

Lemma demo_gen_unit_interval (n : nat) : (n < 8)%nat -> 0 <= gen demo_world n < 1.
Proof.
  intros Hn. cbn [gen demo_world]. unfold demo_gen.
  do 8 (destruct n as [|n]; [lra|]). lia.
Qed.

Lemma hamiltonian_cell_phases_in_range_witness :
  exists H,
    hamiltonian_cell demo_world =
      Ok (H, mkWorld (advance 8 (gen demo_world)) (queue demo_world)) /\
    Mdag H = H /\
    forall lam, eigenvalue H lam ->
      Rabs (Re lam) <= 5 / 2 /\
      forall (rnd : R -> R) (l T : R),
        RoundedPhases.rounding rnd ->
        Rabs (l - Re lam) < 1 / 2 -> Rabs T <= 2 ->
        0 <= RoundedPhases.wrap1 rnd (RoundedPhases.scaled rnd l T) <= 1.
Proof.
  apply (hamiltonian_cell_phases_in_range demo_world).
  exact demo_gen_unit_interval.
Defined.

(** The spectral decomposition with the eigenvalues written out. *)
Lemma hermitian_spectral_explicit (p q : R) (z : C) :
  exists P : M2,
    Mdag P = P /\ Mmul P P = P /\
    mkM2 (RtoC p) z (Cconj z) (RtoC q) =
      Madd (Mscale (RtoC ((p + q) / 2 + sqrt (((p - q) / 2) ^ 2 + Cnorm2 z))) P)
           (Mscale (RtoC ((p + q) / 2 - sqrt (((p - q) / 2) ^ 2 + Cnorm2 z)))
                   (Msub eye2 P)).
Proof.
  destruct z as [z0 z1]. unfold Cnorm2. cbn [fst snd].
  set (d := (p - q) / 2). set (c := (p + q) / 2).
  set (r := sqrt (d ^ 2 + (z0 * z0 + z1 * z1))).
  assert (Hpos : 0 <= d ^ 2 + (z0 * z0 + z1 * z1)) by (simpl; nra).
  assert (Hr2 : r * r = d * d + (z0 * z0 + z1 * z1))
    by (unfold r; rewrite sqrt_sqrt by exact Hpos; ring).
  destruct (Req_dec r 0) as [Hr | Hr].
  - rewrite Hr in Hr2 |- *.
    assert (d = 0) by nra. assert (z0 = 0) by nra. assert (z1 = 0) by nra.
    assert (Hpq : q = p) by (unfold d in *; lra).
    assert (Hc : c = p) by (unfold c; lra). rewrite Hc. subst z0 z1 q.
    exists eye2. repeat split; mring.
  - set (u := d / r). set (w0 := z0 / r). set (w1 := z1 / r).
    assert (Hu : u * u + w0 * w0 + w1 * w1 = 1).
    { unfold u, w0, w1. field_simplify_eq; [|exact Hr]. nra. }
    assert (Hd : r * u = d) by (unfold u; field; exact Hr).
    assert (Hz0 : r * w0 = z0) by (unfold w0; field; exact Hr).
    assert (Hz1 : r * w1 = z1) by (unfold w1; field; exact Hr).
    assert (Hp : p = c + d) by (unfold c, d; field).
    assert (Hq : q = c - d) by (unfold c, d; field).
    set (h := / 2). assert (Hh : 2 * h = 1) by (unfold h; field).
    clearbody u w0 w1 c d r h. clear Hr2 Hpos Hr.
    exists (mkM2 (RtoC (h * (1 + u))) (h * w0, h * w1)
                 (h * w0, - (h * w1)) (RtoC (h * (1 - u)))).
    subst p q d z0 z1.
    repeat split; calg; msplit; nsatz.
Qed.

(** X16: The last cell, on at least one estimation wire, the wires distinct
    and none of them wire 0.  For [E = expm(hamiltonian * 1j * duration)]
    there are a Hermitian projector [P] and reals [a], [b], which are the
    eigenvalues of the Hamiltonian, such that the phases cell turns
    [[a, b]] into two phases and [circuit(E, estimation_wires)] returns
    the responses of these two phases, mixed with the squared norms of
    the two parts of the prepared state. *)
Theorem hamiltonian_run_distribution (A : M2) (T : R) (E : M2)
    (ws : list wire) (s : world) :
  is_expm (generator (hermitian_part A) T) E ->
  NoDup (0%nat :: ws) -> (1 <= length ws)%nat ->
  exists (P : M2) (a b ph1 ph2 : R) (p : list R) (s' : world),
    eigenvalue (hermitian_part A) (RtoC a) /\
    eigenvalue (hermitian_part A) (RtoC b) /\
    (forall lam, eigenvalue (hermitian_part A) lam ->
       lam = RtoC a \/ lam = RtoC b) /\
    phases_of [a; b] T = Some [ph1; ph2] /\
    circuit E ws s = Ok (p, s') /\
    length p = (2 ^ length ws)%nat /\
    Vnorm2 (Mvec P (prepared (gen s))) +
      Vnorm2 (Mvec (Msub eye2 P) (prepared (gen s))) = 1 /\
    forall j, (j < 2 ^ length ws)%nat ->
      nth j p 0 =
      Vnorm2 (Mvec P (prepared (gen s))) * response (length ws) ph1 j +
      Vnorm2 (Mvec (Msub eye2 P) (prepared (gen s))) * response (length ws) ph2 j.
Proof.
  intros HE Hnd Hm.
  destruct (hermitian_part_form A) as [p0 [q0 [z HA]]].
  destruct (hermitian_spectral_explicit p0 q0 z) as [P [Hd [HP HH]]].
  pose proof (hermitian_form_eigvals p0 q0 z) as Hf.
  rewrite HA in HE.
  set (a := (p0 + q0) / 2 + sqrt (((p0 - q0) / 2) ^ 2 + Cnorm2 z)) in *.
  set (b := (p0 + q0) / 2 - sqrt (((p0 - q0) / 2) ^ 2 + Cnorm2 z)) in *.
  destruct (projector_complement P HP) as [H1 [H2 [H3 H4]]].
  assert (Hexp : is_expm (generator (mkM2 (RtoC p0) z (Cconj z) (RtoC q0)) T)
                   (Madd (Mscale (Cexpi (a * T)) P)
                         (Mscale (Cexpi (b * T)) (Msub eye2 P)))).
  { rewrite HH, generator_comb. apply is_expm_comb; assumption. }
  pose proof (Mcv_unique _ _ _ HE Hexp) as HEq.
  rewrite <- (phase_factor_scaled (a * T)), <- (phase_factor_scaled (b * T)) in HEq.
  rewrite <- (phase_factor_wrap1 (a * T / (2 * PI))) in HEq.
  rewrite <- (phase_factor_wrap1 (b * T / (2 * PI))) in HEq.
  destruct (two_phase_distribution P ws (wrap1 (a * T / (2 * PI)))
              (wrap1 (b * T / (2 * PI))) s Hd HP Hnd Hm)
    as [p [Hrun [Hlen Hp]]].
  rewrite <- HEq in Hrun.
  destruct (projector_pythagoras P (prepared (gen s)) Hd HP) as [_ Epy].
  rewrite prepared_unit in Epy.
  exists P, a, b, (wrap1 (a * T / (2 * PI))), (wrap1 (b * T / (2 * PI))), p.
  eexists.
  rewrite HA.
  split; [apply Hf; left; reflexivity|].
  split; [apply Hf; right; reflexivity|].
  split; [intros lam Hl; apply Hf, Hl|].
  split; [apply phases_of_pair|].
  split; [exact Hrun|]. split; [exact Hlen|]. split; [exact Epy|]. exact Hp.
Qed.

Lemma hamiltonian_run_distribution_witness :
  exists (P : M2) (a b ph1 ph2 : R) (p : list R) (s' : world),
    eigenvalue (hermitian_part (mkM2 (RtoC (-1)) C0 C0 C1)) (RtoC a) /\
    eigenvalue (hermitian_part (mkM2 (RtoC (-1)) C0 C0 C1)) (RtoC b) /\
    (forall lam, eigenvalue (hermitian_part (mkM2 (RtoC (-1)) C0 C0 C1)) lam ->
       lam = RtoC a \/ lam = RtoC b) /\
    phases_of [a; b] 7 = Some [ph1; ph2] /\
    circuit (Madd (Mscale (Cexpi (-1 * 7)) (mkM2 C1 C0 C0 C0))
                  (Mscale (Cexpi (1 * 7)) (mkM2 C0 C0 C0 C1)))
            [1; 2; 3; 4; 5]%nat (mkWorld (advance 8 skew_gen) []) = Ok (p, s') /\
    length p = (2 ^ length [1; 2; 3; 4; 5]%nat)%nat /\
    Vnorm2 (Mvec P (prepared (gen (mkWorld (advance 8 skew_gen) [])))) +
      Vnorm2 (Mvec (Msub eye2 P) (prepared (gen (mkWorld (advance 8 skew_gen) [])))) = 1 /\
    forall j, (j < 2 ^ length [1; 2; 3; 4; 5]%nat)%nat ->
      nth j p 0 =
      Vnorm2 (Mvec P (prepared (gen (mkWorld (advance 8 skew_gen) [])))) *
        response (length [1; 2; 3; 4; 5]%nat) ph1 j +
      Vnorm2 (Mvec (Msub eye2 P) (prepared (gen (mkWorld (advance 8 skew_gen) [])))) *
        response (length [1; 2; 3; 4; 5]%nat) ph2 j.
Proof.
  apply (hamiltonian_run_distribution (mkM2 (RtoC (-1)) C0 C0 C1) 7 _
           [1; 2; 3; 4; 5]%nat (mkWorld (advance 8 skew_gen) [])).
  - exact expm_diag_demo.
  - repeat constructor; simpl; intuition lia.
  - simpl. lia.
Defined.

End HamiltonianCells.

(** ** The phases cell on any input *)

Section MorePhaseWrap.
Import HamiltonianPhases.

(** X18: The loop indexes entries 0 and 1 whatever the array holds: on fewer
    than two eigenvalues the cell stops with the index error, on more it
    wraps the first two and only scales the rest. *)
Theorem phases_cell_indices (T : R) :
  phases_of [] T = None /\
  (forall l, phases_of [l] T = None) /\
  (forall l1 l2 rest,
     phases_of (l1 :: l2 :: rest) T =
     Some (wrap1 (l1 * T / (2 * PI)) :: wrap1 (l2 * T / (2 * PI)) ::
           map (fun e => e * T / (2 * PI)) rest)).
Proof.
  split; [reflexivity|]. split.
  - intros l. unfold phases_of, wrap_loop, wrap_at. simpl.
    destruct (Rlt_dec (l * T / (2 * PI)) 0); reflexivity.
  - intros l1 l2 rest. unfold phases_of, wrap_loop, wrap_at, wrap1. simpl.
    destruct (Rlt_dec (l1 * T / (2 * PI)) 0); simpl;
      destruct (Rlt_dec (l2 * T / (2 * PI)) 0); reflexivity.
Qed.

End MorePhaseWrap.

(** ** [view_results] *)

Section Plots.
Import Simulator QPE RandomUnitary Plotting.

Lemma bits_zero (m : nat) : bits m 0 = repeat false m.
Proof.
  induction m as [|m IH]; simpl; [reflexivity|]. rewrite Nat.bits_0, IH. reflexivity.
Qed.

Lemma bits_pad (a b k : nat) :
  (k < 2 ^ b)%nat -> bits (a + b) k = repeat false a ++ bits b k.
Proof.
  intros Hk. induction a as [|a IH]; simpl; [reflexivity|].
  rewrite IH. f_equal. apply testbit_small.
  apply Nat.lt_le_trans with (2 ^ b)%nat; [exact Hk|].
  apply Nat.pow_le_mono_r; lia.
Qed.

Lemma binary_repr_bits (m k : nat) :
  (1 <= m)%nat -> (k < 2 ^ m)%nat ->
  binary_repr k m = Some (bitstring (bits m k)).
Proof.
  intros Hm Hk. destruct k as [|k].
  - unfold binary_repr. rewrite bits_zero. destruct m; [lia | reflexivity].
  - unfold binary_repr.
    assert (Hl : (Nat.log2 (S k) < m)%nat) by (apply Nat.log2_lt_pow2; lia).
    destruct (Nat.ltb_spec m (S (Nat.log2 (S k)))) as [Hlt | Hge]; [lia|].
    rewrite <- bits_pad.
    + replace (m - S (Nat.log2 (S k)) + S (Nat.log2 (S k)))%nat with m by lia.
      reflexivity.
    + apply Nat.log2_spec. lia.
Qed.

Lemma xtick_labels_pow2 (m : nat) (l : list nat) :
  (1 <= m)%nat -> Forall (fun k => (k < 2 ^ m)%nat) l ->
  xtick_labels l (2 ^ m) m =
  Some (map (fun k => mkLabel (INR k / INR (2 ^ m)) (bitstring (bits m k))) l).
Proof.
  intros Hm Hl. induction Hl as [|k l Hk _ IH]; simpl; [reflexivity|].
  rewrite (binary_repr_bits m k Hm Hk), IH. reflexivity.
Qed.

Lemma stride_map {A B} (f : A -> B) (e k : nat) (l : list A) :
  stride e k (map f l) = map f (stride e k l).
Proof.
  revert k. induction l as [|x t IH]; intros k; simpl; [reflexivity|].
  destruct k; simpl; rewrite IH; reflexivity.
Qed.

Lemma stride_seq_In (e : nat) (n a skip k : nat) :
  (1 <= e)%nat ->
  In k (stride e skip (seq a n)) <->
  (a + skip <= k < a + n)%nat /\ Nat.divide e (k - (a + skip)).
Proof.
  intros He. revert a skip. induction n as [|n IH]; intros a skip; simpl.
  - split; [contradiction | lia].
  - destruct skip as [|skip].
    + simpl. rewrite IH. split.
      * intros [E | [Hr Hd]].
        -- subst k. split; [lia|]. replace (a - (a + 0))%nat with 0%nat by lia.
           apply Nat.divide_0_r.
        -- split; [lia|].
           replace (k - (a + 0))%nat with ((k - (S a + (e - 1))) + e)%nat by lia.
           apply Nat.divide_add_r; [exact Hd | apply Nat.divide_refl].
      * intros [Hr Hd]. destruct (Nat.eq_dec k a) as [E | E]; [left; auto|].
        right. destruct Hd as [c Hc].
        assert (Hc1 : (1 <= c)%nat) by (destruct c; [lia | lia]).
        split; [nia|]. exists (c - 1)%nat. nia.
    + rewrite IH. split; intros [Hr Hd].
      * split; [lia|]. replace (k - (a + S skip))%nat with (k - (S a + skip))%nat by lia.
        exact Hd.
      * split; [lia|]. replace (k - (S a + skip))%nat with (k - (a + S skip))%nat by lia.
        exact Hd.
Qed.

Lemma seq_below (n : nat) : Forall (fun k => (k < n)%nat) (seq 0 n).
Proof. apply Forall_forall. intros k Hk. apply in_seq in Hk. lia. Qed.

Lemma view_results_run (results phases : list R) (m : nat) (e : Z) :
  length results = (2 ^ m)%nat -> (1 <= m)%nat -> (0 < e)%Z ->
  view_results results phases e =
  Shown (mkFigure
           (combine (seq 0 (2 ^ m)) results)
           (stride (Z.to_nat e) 0 (seq 0 (2 ^ m)))
           (map (fun k => mkLabel (INR k / 2 ^ m) (bitstring (bits m k)))
                (stride (Z.to_nat e) 0 (seq 0 (2 ^ m))))
           (map (fun true_phase => true_phase * 2 ^ m) phases)).
Proof.
  intros Hlen Hm He. unfold view_results. rewrite Hlen.
  pose proof (pow2_pos m) as Hp.
  destruct (2 ^ m)%nat as [|n'] eqn:En; [lia|]. rewrite <- En.
  rewrite Nat.log2_pow2 by lia.
  rewrite (xtick_labels_pow2 m _ Hm (seq_below _)).
  unfold slice_step.
  destruct (Z.eqb_spec e 0) as [E0 | _]; [lia|].
  destruct (Z.ltb_spec 0 e) as [_ | Hn]; [|lia].
  rewrite stride_map, INR_pow2. reflexivity.
Qed.

(** X19: On an array of [2^m] probabilities, [m >= 1], and a positive
    [show_every], [view_results] raises nothing; it draws bar [k] with
    height [results[k]], puts a tick at every multiple of [show_every]
    below [2^m], labels the tick at [k] with the fraction [k / 2^m] and
    the [m]-bit string of [k], first bit most significant (the bitstring
    whose probability the bar shows), and puts the dashed line of a phase
    [phi] at [phi * 2^m]. *)
Theorem view_results_labels (results phases : list R) (m : nat) (e : Z) :
  length results = (2 ^ m)%nat -> (1 <= m)%nat -> (0 < e)%Z ->
  exists f,
    view_results results phases e = Shown f /\
    bars f = combine (seq 0 (2 ^ m)) results /\
    (forall k, (k < 2 ^ m)%nat -> In (k, nth k results 0) (bars f)) /\
    (forall k, In k (ticks f) <-> (k < 2 ^ m)%nat /\ Nat.divide (Z.to_nat e) k) /\
    ticklabels f =
      map (fun k => mkLabel (INR k / 2 ^ m) (bitstring (bits m k))) (ticks f) /\
    (forall k, (k < 2 ^ m)%nat -> val (bits m k) = k) /\
    vlines f = map (fun true_phase => true_phase * 2 ^ m) phases.
Proof.
  intros Hlen Hm He. eexists.
  split; [apply (view_results_run results phases m e Hlen Hm He)|].
  cbn [bars ticks ticklabels vlines].
  split; [reflexivity|]. split; [|split; [|split; [reflexivity|split; [|reflexivity]]]].
  - intros k Hk.
    replace (k, nth k results 0) with (nth k (combine (seq 0 (2 ^ m)) results) (0%nat, 0)).
    + apply nth_In. rewrite length_combine, length_seq, Hlen. lia.
    + rewrite combine_nth by (rewrite length_seq; auto).
      rewrite seq_nth by exact Hk. reflexivity.
  - intros k. assert (He' : (1 <= Z.to_nat e)%nat) by lia.
    rewrite (stride_seq_In _ _ _ _ _ He').
    rewrite !Nat.add_0_l, Nat.sub_0_r. split; intros [H1 H2]; split; auto; lia.
  - intros k Hk. apply val_bits, Hk.
Qed.

Lemma view_results_labels_witness :
  exists f,
    view_results [1; 0; 0; 0] [0] 1 = Shown f /\
    bars f = combine (seq 0 (2 ^ 2)) [1; 0; 0; 0] /\
    (forall k, (k < 2 ^ 2)%nat -> In (k, nth k [1; 0; 0; 0] 0) (bars f)) /\
    (forall k, In k (ticks f) <-> (k < 2 ^ 2)%nat /\ Nat.divide (Z.to_nat 1) k) /\
    ticklabels f =
      map (fun k => mkLabel (INR k / 2 ^ 2) (bitstring (bits 2 k))) (ticks f) /\
    (forall k, (k < 2 ^ 2)%nat -> val (bits 2 k) = k) /\
    vlines f = map (fun true_phase => true_phase * 2 ^ 2) [0].
Proof.
  apply (view_results_labels [1; 0; 0; 0] [0] 2 1).
  - reflexivity.
  - lia.
  - lia.
Defined.

Lemma In_combine_seq (l : list R) (a n k : nat) (h : R) :
  In (k, h) (combine (seq a n) l) ->
  (a <= k < a + n)%nat /\ nth (k - a) l 0 = h.
Proof.
  revert a l. induction n as [|n IH]; intros a l; simpl; [contradiction|].
  destruct l as [|x l]; simpl; [contradiction|].
  intros [E | Hin].
  - injection E as E1 E2. subst. rewrite Nat.sub_diag. split; [lia | reflexivity].
  - apply IH in Hin. destruct Hin as [Hr Hn]. split; [lia|].
    replace (k - a)%nat with (S (k - S a)) by lia. exact Hn.
Qed.

(** X20: The first run cell as a whole: [create_unitary], [circuit], then
    [view_results].  With phases [i1/2^m] and [i2/2^m], whenever the
    first two calls return, [view_results] raises nothing, it draws one
    bar for each entry of the array returned, and the two dashed lines
    sit at [i1] and [i2], on the bars of these two bitstrings. *)
Theorem exact_phases_plot (ws : list wire) (i1 i2 : nat) (s : world)
    (p : list R) (s' : world) :
  (i1 < 2 ^ length ws)%nat -> (i2 < 2 ^ length ws)%nat ->
  bind (create_unitary [INR i1 / 2 ^ length ws; INR i2 / 2 ^ length ws])
       (fun unitary => circuit unitary ws) s = Ok (p, s') ->
  exists f,
    view_results p [INR i1 / 2 ^ length ws; INR i2 / 2 ^ length ws] 1 = Shown f /\
    bars f = combine (seq 0 (2 ^ length ws)) p /\
    vlines f = [INR i1; INR i2] /\
    In (i1, nth i1 p 0) (bars f) /\ In (i2, nth i2 p 0) (bars f).
Proof.
  intros Hi1 Hi2 Hrun.
  destruct (bind_returned _ _ _ _ _ Hrun) as [U [s1 [_ Hc]]].
  destruct (circuit_returned U ws s1 p s' Hc) as [_ [Hm [_ [Hlen _]]]].
  assert (Hbar : forall k, (k < 2 ^ length ws)%nat ->
                   In (k, nth k p 0) (combine (seq 0 (2 ^ length ws)) p)).
  { intros k Hk.
    replace (k, nth k p 0)
      with (nth k (combine (seq 0 (2 ^ length ws)) p) (0%nat, 0)).
    - apply nth_In. rewrite length_combine, length_seq, Hlen. lia.
    - rewrite combine_nth by (rewrite length_seq; auto).
      rewrite seq_nth by exact Hk. reflexivity. }
  eexists.
  split; [apply (view_results_run p _ (length ws) 1 Hlen Hm); lia|].
  cbn [vlines bars map]. pose proof (pow2_R_pos (length ws)) as Hpos.
  split; [reflexivity|]. split.
  - f_equal; [|f_equal]; field; lra.
  - split; apply Hbar; assumption.
Qed.

Lemma exact_phases_plot_witness :
  exists p s',
    bind (create_unitary [INR 2 / 2 ^ length [1; 2; 3]%nat;
                          INR 7 / 2 ^ length [1; 2; 3]%nat])
         (fun unitary => circuit unitary [1; 2; 3]%nat) skew_world = Ok (p, s') /\
    exists f,
      view_results p [INR 2 / 2 ^ length [1; 2; 3]%nat;
                      INR 7 / 2 ^ length [1; 2; 3]%nat] 1 = Shown f /\
      bars f = combine (seq 0 (2 ^ length [1; 2; 3]%nat)) p /\
      vlines f = [INR 2; INR 7] /\
      In (2%nat, nth 2 p 0) (bars f) /\ In (7%nat, nth 7 p 0) (bars f).
Proof.
  pose proof (cell_run (INR 2 / 2 ^ length [1; 2; 3]%nat)
                (INR 7 / 2 ^ length [1; 2; 3]%nat) [1; 2; 3]%nat skew_world
                (proj1 skew_draws) (proj1 (proj2 skew_draws)) wires_123_nodup
                three_wires) as Hrun.
  assert (H2 : (2 < 2 ^ length [1; 2; 3]%nat)%nat) by (simpl; lia).
  assert (H7 : (7 < 2 ^ length [1; 2; 3]%nat)%nat) by (simpl; lia).
  eexists. eexists. split; [exact Hrun|].
  exact (exact_phases_plot [1; 2; 3]%nat 2 7 skew_world _ _ H2 H7 Hrun).
Defined.

(** X21: Where [view_results] stops: on an empty array with the
    OverflowError of [int(np.log2(0))], whatever [show_every] is; on a
    zero [show_every] with the ValueError of the slice, after the labels
    were built. *)
Theorem view_results_errors (results phases : list R) (m : nat) :
  length results = (2 ^ m)%nat -> (1 <= m)%nat ->
  (forall e, view_results [] phases e = RaisedOverflowError) /\
  view_results results phases 0 = Raised ValueError.
Proof.
  intros Hlen Hm. split; [reflexivity|].
  unfold view_results. rewrite Hlen.
  pose proof (pow2_pos m) as Hp.
  destruct (2 ^ m)%nat as [|n'] eqn:En; [lia|]. rewrite <- En.
  rewrite Nat.log2_pow2 by lia.
  rewrite (xtick_labels_pow2 m _ Hm (seq_below _)). reflexivity.
Qed.

Lemma view_results_errors_witness :
  (forall e, view_results [] [0] e = RaisedOverflowError) /\
  view_results [1; 0] [0] 0 = Raised ValueError.
Proof.
  apply (view_results_errors [1; 0] [0] 1).
  - reflexivity.
  - lia.
Defined.

End Plots.

(** ** The last cell: the Hamiltonian run and its plot *)

Section HamiltonianPlot.
Import Simulator QPE RandomUnitary Hamiltonian HamiltonianPhases HamiltonianDraw
       Plotting.

Lemma circuit_total (U : M2) (ws : list wire) (s : world) (p : list R) (s' : world) :
  unitary2 U -> circuit U ws s = Ok (p, s') -> total p = 1.
Proof.
  intros HU Hrun. destruct (circuit_returns U ws s p s' Hrun) as [Hnd Hm].
  assert (E : p = execute ([RY (2 * PI * gen s 0%nat) 0%nat;
                            RZ (2 * PI * gen s 1%nat) 0%nat] ++
                           map Hadamard ws ++
                           [ControlledSequence U 0%nat ws; AdjointQFT ws]) ws)
    by (rewrite (circuit_run U ws s Hnd Hm) in Hrun; congruence).
  subst p. unfold execute. rewrite circuit_wire_order by exact Hnd. cbn [length].
  rewrite (index_of_tail 0%nat ws Hnd), total_probs.
  rewrite (run_norm U ws); [apply zero_state_norm | exact HU | exact Hnd |].
  apply Forall_app. split; [repeat constructor|].
  apply Forall_app. split; [|repeat constructor].
  apply Forall_forall. intros o Ho. apply in_map_iff in Ho.
  destruct Ho as [w [<- Hw]]. exact Hw.
Qed.

Lemma expm_unitary (A : M2) (T : R) (E : M2) :
  is_expm (generator (hermitian_part A) T) E -> unitary2 E.
Proof.
  intros HE. destruct (expm_form A T E HE) as [P [a [b [Hd [HP [_ HEq]]]]]].
  rewrite HEq. apply two_phase_unitary_gen; [exact Hd | exact HP | apply Cexpi_norm ..].
Qed.

Lemma map_snd_combine_seq (l : list R) (a : nat) :
  map snd (combine (seq a (length l)) l) = l.
Proof.
  revert a. induction l as [|x l IH]; intros a; simpl; [reflexivity|].
  f_equal. apply IH.
Qed.

Lemma hermitian_part_fixed (H : M2) : Mdag H = H -> hermitian_part H = H.
Proof.
  intros Hd. unfold hermitian_part. rewrite Hd.
  destruct H as [[a0 a1] [b0 b1] [c0 c1] [d0 d1]]. calg. msplit; field.
Qed.

(** X22: The Hamiltonian cells in sequence, for samples in [[0,1)]: the draw,
    any two values [a], [b] within 1/2 of eigenvalues of the drawn
    Hamiltonian as [eigs], the matrix exponential at [duration = 1.], the
    phases cell on float64 (whatever the rounding), [circuit] on at
    least one wire, the wires distinct and none of them wire 0, and
    [view_results(results, phases, 4)].  Nothing raises, the plot has
    [2^m] bars whose heights sum to 1, and both dashed lines fall inside
    [[0, 2^m]], both ends included. *)
Theorem hamiltonian_cells_plot (ws : list wire) (s : world) :
  (forall n, (n < 8)%nat -> 0 <= gen s n < 1) ->
  NoDup (0%nat :: ws) -> (1 <= length ws)%nat ->
  exists H s1,
    hamiltonian_cell s = Ok (H, s1) /\
    forall (E : M2) (la lb : C) (a b : R) (rnd : R -> R),
      is_expm (generator H 1) E ->
      eigenvalue H la -> Rabs (a - Re la) < 1 / 2 ->
      eigenvalue H lb -> Rabs (b - Re lb) < 1 / 2 ->
      RoundedPhases.rounding rnd ->
      exists ph p s2 f,
        RoundedPhases.phases_of rnd [a; b] 1 = Some ph /\
        circuit E ws s1 = Ok (p, s2) /\
        view_results p ph 4 = Shown f /\
        length (bars f) = (2 ^ length ws)%nat /\
        total (map snd (bars f)) = 1 /\
        Forall (fun x => 0 <= x <= 2 ^ length ws) (vlines f).
Proof.
  intros Hg Hnd Hm. destruct (hamiltonian_cell_bound s Hg) as [H [Hrun [Hd Hb]]].
  exists H. eexists. split; [exact Hrun|].
  intros E la lb a b rnd HE Hla Ha Hlb Hb' Hr.
  assert (HU : unitary2 E).
  { apply (expm_unitary H 1). rewrite (hermitian_part_fixed H Hd). exact HE. }
  destruct (circuit_probs E ws (mkWorld (advance 8 (gen s)) (queue s)) Hnd Hm)
    as [p [Hc [Hlen _]]].
  pose proof (circuit_total E ws _ p _ HU Hc) as Ht.
  exists [RoundedPhases.wrap1 rnd (RoundedPhases.scaled rnd a 1);
          RoundedPhases.wrap1 rnd (RoundedPhases.scaled rnd b 1)], p.
  do 2 eexists.
  split; [apply rounded_phases_of_pair|]. split; [exact Hc|].
  split; [apply (view_results_run p _ (length ws) 4 Hlen Hm); lia|].
  cbn [bars vlines map]. split; [|split].
  - rewrite length_combine, length_seq, Hlen. apply Nat.min_id.
  - rewrite <- Hlen, map_snd_combine_seq. exact Ht.
  - pose proof (pow2_R_pos (length ws)) as Hp.
    assert (H1 : Rabs 1 <= 2) by (rewrite Rabs_R1; lra).
    pose proof (rounded_entry_range rnd a (Re la) 1 Hr (Hb la Hla) Ha H1) as Ra.
    pose proof (rounded_entry_range rnd b (Re lb) 1 Hr (Hb lb Hlb) Hb' H1) as Rb.
    apply Forall_cons; [|apply Forall_cons; [|apply Forall_nil]]; split; nra.
Qed.

Lemma hamiltonian_cells_plot_witness :
  exists H s1,
    hamiltonian_cell demo_world = Ok (H, s1) /\
    forall (E : M2) (la lb : C) (a b : R) (rnd : R -> R),
      is_expm (generator H 1) E ->
      eigenvalue H la -> Rabs (a - Re la) < 1 / 2 ->
      eigenvalue H lb -> Rabs (b - Re lb) < 1 / 2 ->
      RoundedPhases.rounding rnd ->
      exists ph p s2 f,
        RoundedPhases.phases_of rnd [a; b] 1 = Some ph /\
        circuit E [1; 2; 3; 4; 5]%nat s1 = Ok (p, s2) /\
        view_results p ph 4 = Shown f /\
        length (bars f) = (2 ^ length [1; 2; 3; 4; 5]%nat)%nat /\
        total (map snd (bars f)) = 1 /\
        Forall (fun x => 0 <= x <= 2 ^ length [1; 2; 3; 4; 5]%nat) (vlines f).
Proof.
  apply (hamiltonian_cells_plot [1; 2; 3; 4; 5]%nat demo_world).
  - exact demo_gen_unit_interval.
  - repeat constructor; simpl; intuition lia.
  - simpl. lia.
Defined.

End HamiltonianPlot.
